(** * gmsync: playlist resolution, favorites and reconciliation glue

    A shallow embedding of [gmusicapi_scripts/gmsync.py].  Python
    dictionaries are finite maps from field names to scalar values,
    exceptions are an explicit error type, and the calls [main] makes to
    its collaborators (docopt, the two gmusicapi wrappers, [os], [shutil],
    the logger) are the nodes of a program tree that an environment
    answers one at a time. *)

From Stdlib Require Import ZArith Ascii String List Sorted Permutation.
From stdpp Require Import base option gmap strings list fin_maps sorting pretty.

Local Open Scope string_scope.
Local Open Scope list_scope.
Local Open Scope Z_scope.

(** ** Python values and exceptions *)

Module Py.

(** The scalar values that occur as fields of song dictionaries and as
    entries of the dictionary built from docopt's result. [VStrs] is a
    list of strings (docopt's repeated options and arguments), [VInf] is
    [float('inf')]. *)
Inductive value : Type :=
| VNone
| VBool (b : bool)
| VInt (z : Z)
| VStr (s : string)
| VStrs (l : list string)
| VInf.

#[global] Instance value_eq_dec : EqDecision value.
Proof. solve_decision. Defined.

Definition value_enc (v : value) : unit + bool + Z + string + list string + unit :=
  match v with
  | VNone => inl (inl (inl (inl (inl tt))))
  | VBool b => inl (inl (inl (inl (inr b))))
  | VInt z => inl (inl (inl (inr z)))
  | VStr s => inl (inl (inr s))
  | VStrs l => inl (inr l)
  | VInf => inr tt
  end.

Definition value_dec (x : unit + bool + Z + string + list string + unit) : value :=
  match x with
  | inl (inl (inl (inl (inl _)))) => VNone
  | inl (inl (inl (inl (inr b)))) => VBool b
  | inl (inl (inl (inr z))) => VInt z
  | inl (inl (inr s)) => VStr s
  | inl (inr l) => VStrs l
  | inr _ => VInf
  end.

#[global] Instance value_countable : Countable value.
Proof. apply (inj_countable' value_enc value_dec). by intros []. Defined.

Inductive exn : Type :=
| NameError (name : string)
| KeyError (key : value)
| TypeError
| ValueError
| OverflowError
| UnboundLocalError (name : string)
| RecursionError
| SystemExit (code : option Z)
| External (what : string).

#[global] Instance exn_eq_dec : EqDecision exn.
Proof. solve_decision. Defined.

(** The result of evaluating an expression: a value or a raised exception. *)
Inductive result (A : Type) : Type :=
| Ok (a : A)
| Err (e : exn).
Arguments Ok {A} a.
Arguments Err {A} e.

Definition rbind {A B} (r : result A) (f : A → result B) : result B :=
  match r with Ok a => f a | Err e => Err e end.

#[global] Instance result_ret : MRet result := @Ok.
#[global] Instance result_bind : MBind result := λ A B f r, rbind r f.
#[global] Instance result_fmap : FMap result := λ A B f r, rbind r (λ a, Ok (f a)).

(** [d[k]] on a dictionary with string keys. *)
Definition getitem (d : gmap string value) (k : string) : result value :=
  match d !! k with Some v => Ok v | None => Err (KeyError (VStr k)) end.

(** [d.get(k)]. *)
Definition get (d : gmap string value) (k : string) : value :=
  default VNone (d !! k).

(** Truth value of an object, as tested by [if] and [not]. *)
Definition truthy (v : value) : bool :=
  match v with
  | VNone => false
  | VBool b => b
  | VInt z => negb (z =? 0)
  | VStr s => negb (String.eqb s "")
  | VStrs l => match l with [] => false | _ => true end
  | VInf => true
  end.

(** Dictionary keys are compared by [==] and [hash]: [True] and [1] are
    one key, a list is unhashable. [hashkey] gives the canonical key under
    which a dictionary stores a value, or the [TypeError] of an unhashable
    one. *)
Definition hashkey (v : value) : result value :=
  match v with
  | VBool b => Ok (VInt (if b then 1 else 0))
  | VStrs _ => Err TypeError
  | _ => Ok v
  end.

(** *** Strings *)

Definition slash : ascii := "/"%char.

(** [s.startswith('/')] and [s.endswith('/')]. *)
Definition starts_with_slash (s : string) : bool :=
  match s with String c _ => Ascii.eqb c slash | EmptyString => false end.

Fixpoint ends_with_slash (s : string) : bool :=
  match s with
  | EmptyString => false
  | String c EmptyString => Ascii.eqb c slash
  | String _ s' => ends_with_slash s'
  end.

(** [s.rstrip(chars)] and [s.lstrip(chars)] for a set of characters. *)
Fixpoint rstrip (chars : list ascii) (s : string) : string :=
  match s with
  | EmptyString => EmptyString
  | String c s' =>
      match rstrip chars s' with
      | EmptyString => if bool_decide (c ∈ chars) then EmptyString else String c EmptyString
      | r => String c r
      end
  end.

Fixpoint lstrip (chars : list ascii) (s : string) : string :=
  match s with
  | EmptyString => EmptyString
  | String c s' => if bool_decide (c ∈ chars) then lstrip chars s' else s
  end.

(** [s.split(sep, 1)] for a one-character separator: at most one cut. *)
Fixpoint split_once (sep : ascii) (s : string) : string * option string :=
  match s with
  | EmptyString => (EmptyString, None)
  | String c s' =>
      if Ascii.eqb c sep then (EmptyString, Some s')
      else let '(a, b) := split_once sep s' in (String c a, b)
  end.

Definition split1 (sep : ascii) (s : string) : list string :=
  match split_once sep s with
  | (a, None) => [a]
  | (a, Some b) => [a; b]
  end.

(** [s.rfind('/')]: the index of the last slash, or [-1]. *)
Fixpoint rfind_slash (s : string) : Z :=
  match s with
  | EmptyString => -1
  | String c s' =>
      let r := rfind_slash s' in
      if 0 <=? r then r + 1 else if Ascii.eqb c slash then 0 else -1
  end.

(** The slice [s[:n]], for [n >= 0]. *)
Fixpoint take_str (n : nat) (s : string) : string :=
  match n, s with
  | S n', String c s' => String c (take_str n' s')
  | _, _ => EmptyString
  end.

Fixpoint all_slashes (s : string) : bool :=
  match s with
  | EmptyString => true
  | String c s' => Ascii.eqb c slash && all_slashes s'
  end.

(** [posixpath.dirname]:
    [i = p.rfind('/') + 1; head = p[:i];
     if head and head != '/'*len(head): head = head.rstrip('/')]. *)
Definition dirname (p : string) : string :=
  let i := rfind_slash p + 1 in
  let head := take_str (Z.to_nat i) p in
  if negb (String.eqb head "") && negb (all_slashes head) then rstrip [slash] head
  else head.

(** [posixpath.join] of two components. *)
Definition path_join (a b : string) : string :=
  if starts_with_slash b then b
  else if String.eqb a "" || ends_with_slash a then a +:+ b
  else a +:+ "/" +:+ b.

(** The longest common prefix of two strings, character by character. *)
Fixpoint common_prefix2 (a b : string) : string :=
  match a, b with
  | String x a', String y b' =>
      if Ascii.eqb x y then String x (common_prefix2 a' b') else EmptyString
  | _, _ => EmptyString
  end.

(** [os.path.commonprefix]: the longest string that is a prefix of every
    element; the empty string for an empty list. *)
Definition commonprefix (m : list string) : string :=
  match m with
  | [] => EmptyString
  | p :: ps => foldl common_prefix2 p ps
  end.

(** *** Numbers *)

Definition digit_of (c : ascii) : option Z :=
  let n := Z.of_N (N_of_ascii c) in
  if (48 <=? n) && (n <=? 57) then Some (n - 48) else None.

(** Digits with single underscores between them, as [int] accepts. *)
Fixpoint parse_digits (acc : Z) (after_digit : bool) (s : string) : option Z :=
  match s with
  | EmptyString => if after_digit then Some acc else None
  | String c s' =>
      match digit_of c with
      | Some d => parse_digits (10 * acc + d) true s'
      | None =>
          if Ascii.eqb c "_"%char && after_digit then
            match s' with
            | String c' _ =>
                match digit_of c' with
                | Some _ => parse_digits acc false s'
                | None => None
                end
            | EmptyString => None
            end
          else None
      end
  end.

Definition whitespace : list ascii :=
  [" "%char; ascii_of_nat 9; ascii_of_nat 10; ascii_of_nat 11; ascii_of_nat 12; ascii_of_nat 13].

(** [int(s)] for a string in base ten: surrounding ASCII whitespace, an
    optional sign, digits. (Digits outside ASCII are not modelled.) *)
Definition parse_int (s : string) : option Z :=
  match rstrip whitespace (lstrip whitespace s) with
  | String "-" s' => Z.opp <$> parse_digits 0 false s'
  | String "+" s' => parse_digits 0 false s'
  | s' => parse_digits 0 false s'
  end.

(** The builtin [int]. *)
Definition int (v : value) : result Z :=
  match v with
  | VInt z => Ok z
  | VBool b => Ok (if b then 1 else 0)
  | VStr s => match parse_int s with Some z => Ok z | None => Err ValueError end
  | VInf => Err OverflowError
  | VNone | VStrs _ => Err TypeError
  end.

(** The builtin [str] (and [format] with an empty format spec). *)
Definition str (v : value) : string :=
  match v with
  | VNone => "None"
  | VBool true => "True"
  | VBool false => "False"
  | VInt z => pretty z
  | VStr s => s
  | VStrs l => "[" +:+ String.concat ", " (map (λ x, "'" +:+ x +:+ "'") l) +:+ "]"
  | VInf => "inf"
  end.

(** [repr]: as [str], with strings in quotes. *)
Definition repr (v : value) : string :=
  match v with VStr s => "'" +:+ s +:+ "'" | _ => str v end.

(** [str] of a dictionary, entries in key order. *)
Definition dict_repr (d : gmap string value) : string :=
  "{" +:+ String.concat ", "
            (map (λ kv : string * value, "'" +:+ kv.1 +:+ "': " +:+ repr kv.2) (map_to_list d))
      +:+ "}".

(** The line feed and the byte order mark of [UTF-8-SIG]. *)
Definition nl : string := String (ascii_of_nat 10) EmptyString.
Definition utf8_bom : string :=
  String (ascii_of_nat 239) (String (ascii_of_nat 187) (String (ascii_of_nat 191) EmptyString)).

(** [a + b] where the right operand is a string. *)
Definition add_str (a : value) (b : string) : result string :=
  match a with VStr s => Ok (s +:+ b) | _ => Err TypeError end.

(** *** Comparison and sorting *)

(** Numbers on one line: [bool] and [int] as integers, [float('inf')]
    above all of them. *)
Definition numeric (v : value) : option (option Z) :=
  match v with
  | VBool b => Some (Some (if b then 1 else 0))
  | VInt z => Some (Some z)
  | VInf => Some None
  | _ => None
  end.

(** [a == b]. *)
Definition eqb (a b : value) : bool :=
  match numeric a, numeric b with
  | Some x, Some y => bool_decide (x = y)
  | None, None => bool_decide (a = b)
  | _, _ => false
  end.

Fixpoint strs_ltb (a b : list string) : bool :=
  match a, b with
  | _, [] => false
  | [], _ :: _ => true
  | x :: a', y :: b' => if String.eqb x y then strs_ltb a' b' else String.ltb x y
  end.

(** [a < b]; [TypeError] between values of unrelated types, and for
    [None] even against itself. *)
Definition lt (a b : value) : result bool :=
  match numeric a, numeric b with
  | Some x, Some y =>
      Ok match x, y with
         | Some m, Some n => m <? n
         | Some _, None => true
         | None, _ => false
         end
  | _, _ =>
      match a, b with
      | VStr x, VStr y => Ok (String.ltb x y)
      | VStrs x, VStrs y => Ok (strs_ltb x y)
      | _, _ => Err TypeError
      end
  end.

(** [a < b] on tuples of the same length: the first position where the
    two differ under [==] decides. *)
Fixpoint tuple_lt (a b : list value) : result bool :=
  match a, b with
  | x :: a', y :: b' => if eqb x y then tuple_lt a' b' else lt x y
  | [], _ :: _ => Ok true
  | _, [] => Ok false
  end.

Section Sort.
Context {A K : Type} (less : K → K → result bool).

Definition comparable (k1 k2 : K) : bool :=
  match less k1 k2, less k2 k1 with Ok _, Ok _ => true | _, _ => false end.

Fixpoint pairwise_comparable (ks : list K) : bool :=
  match ks with
  | [] => true
  | k :: ks' => forallb (comparable k) ks' && pairwise_comparable ks'
  end.

Definition lessb (k1 k2 : K) : bool :=
  match less k1 k2 with Ok b => b | Err _ => false end.

(** Insertion behind every element that is smaller, in front of equal
    ones: with [foldr], equal keys keep their order. *)
Fixpoint insert_keyed (x : K * A) (l : list (K * A)) : list (K * A) :=
  match l with
  | [] => [x]
  | y :: l' => if lessb y.1 x.1 then y :: insert_keyed x l' else x :: l
  end.

Definition sort_keyed (l : list (K * A)) : list (K * A) := foldr insert_keyed [] l.

(** [l.sort(key=key)]: the keys are computed first, in order; the sort
    is stable and uses [<] only. When two of the keys cannot be ordered
    the sort raises [TypeError] (at a comparison that depends on the
    algorithm; for the keys used here, which are equal-length tuples of
    scalars, no run of comparisons can order all elements then). *)
Definition list_sort (key : A → result K) (l : list A) : result (list A) :=
  ks ← mapM key l ;
  if pairwise_comparable ks then Ok ((sort_keyed (zip ks l)).*2)
  else Err TypeError.

(** Ascending order of keyed elements: the later key is not below the
    earlier one. *)
Definition keys_ascend (x y : K * A) : Prop := lessb y.1 x.1 = false.

(** The order [list_sort] leaves its result in, in terms of the key
    function. *)
Definition ascending_by (key : A → result K) (a b : A) : Prop :=
  ∃ ka kb, key a = Ok ka ∧ key b = Ok kb ∧ lessb kb ka = false.
End Sort.

End Py.
Import Py.

(** A song (or a playlist entry) as the remote APIs deliver it. *)
Abbreviation song := (gmap string value).

(** A playlist of [get_all_user_playlist_contents]: its name and its
    ordered entries. *)
Record playlist : Type := Playlist { pl_name : value; pl_tracks : list song }.

(** ** Calls to collaborators

    Every call the script makes into a library, the operating system or
    one of the two wrapper objects is a [call]; [resp] is the type of what
    it returns. *)

(** The keyword arguments of [get_local_songs]; [None] stands for an
    argument left at its default. *)
Record local_query : Type := LocalQuery {
  lq_paths : value;
  lq_include_filters : option (list (list string));
  lq_exclude_filters : option (list (list string));
  lq_all_includes : option value;
  lq_all_excludes : option value;
  lq_exclude_patterns : value;
  lq_max_depth : option value
}.

Inductive call : Type :=
| Docopt
| PPrint (d : gmap string value)
| SetLevel (level : Z)
| Log (level : Z) (msg : string)
| Print (msg : string)
| Input (prompt : string)
| MmwNew (enable_logging : value)
| MmwLogin (oauth_filename uploader_id : value)
| MmwIsAuthenticated
| MmwGetGoogleSongs (include_filters exclude_filters : option (list (list string)))
                    (all_includes all_excludes : option value)
| MmwGetLocalSongs (q : local_query)
| MmwDownload (songs : list song) (template : value)
| MmwUpload (songs : list string) (enable_matching delete_on_success : value)
| MmwLogout
| McwNew (enable_logging : value)
| McwLogin (username : string)
| McwIsAuthenticated
| McwSetAttr (attr : string) (v : value)
| McwGetAttr (attr : string)
| McwGetRegisteredDevices
| McwGetAllSongs
| McwGetAllUserPlaylistContents
| McwLogout
| JsonLoadFile (path : string)
| OpenWrite (path : string)
| JsonDump (path : string) (d : gmap string value)
| MakeSurePathExists (path : string) (mode : Z)
| Isdir (path : string)
| Listdir (path : string)
| Rmdir (path : string)
| Remove (path : string)
| Move (src dst : string)
| TempWrite (suffix : string) (content : string).

Definition resp (c : call) : Type :=
  match c with
  | Docopt => list (string * value)
  | Input _ => string
  | MmwIsAuthenticated | McwIsAuthenticated | Isdir _ => bool
  | MmwGetGoogleSongs _ _ _ _ => list song * list song
  | MmwGetLocalSongs _ => list string * list string * list string
  | McwGetAttr _ => value
  | McwGetAllSongs => list song
  | McwGetAllUserPlaylistContents => list playlist
  | JsonLoadFile _ => gmap string value
  | Listdir _ => list string
  | TempWrite _ _ => string
  | _ => unit
  end.

(** The calls that fetch a collection or act on one. *)
Definition reconciliation_call (c : call) : bool :=
  match c with
  | MmwGetGoogleSongs _ _ _ _ | MmwGetLocalSongs _ | MmwDownload _ _ | MmwUpload _ _ _
  | McwGetAllSongs | McwGetAllUserPlaylistContents
  | Remove _ | Move _ _ | Rmdir _ | TempWrite _ _ => true
  | _ => false
  end.

(** ** Programs

    A program either returns, raises, or makes a call and continues with
    its answer, which is a value or an exception raised by the callee. *)
Inductive prog (A : Type) : Type :=
| Ret (a : A)
| Raise (e : exn)
| Call (c : call) (k : result (resp c) → prog A).
Arguments Ret {A} a.
Arguments Raise {A} e.
Arguments Call {A} c k.

Fixpoint pbind {A B} (p : prog A) (f : A → prog B) : prog B :=
  match p with
  | Ret a => f a
  | Raise e => Raise e
  | Call c k => Call c (λ x, pbind (k x) f)
  end.

#[global] Instance prog_ret : MRet prog := @Ret.
#[global] Instance prog_bind : MBind prog := λ A B f p, pbind p f.
#[global] Instance prog_fmap : FMap prog := λ A B f p, pbind p (λ a, Ret (f a)).

(** An expression evaluated inside a program. *)
Definition lift {A} (r : result A) : prog A :=
  match r with Ok a => Ret a | Err e => Raise e end.

(** A call whose answer is returned, or whose exception propagates. *)
Definition perform (c : call) : prog (resp c) := Call c lift.

(** [try: p  except: h] with a bare [except], which catches everything. *)
Fixpoint try_except {A} (p : prog A) (h : exn → prog A) : prog A :=
  match p with
  | Ret a => Ret a
  | Raise e => h e
  | Call c k => Call c (λ x, try_except (k x) h)
  end.

(** [for x in l: body x]. *)
Fixpoint for_each {A} (l : list A) (body : A → prog unit) : prog unit :=
  match l with
  | [] => Ret tt
  | x :: l' => _ ← body x ; for_each l' body
  end.

(** *** Running a program against an environment *)

(** What happened at one call: the call and its answer. *)
Inductive event : Type := Ev (c : call) (r : result (resp c)).

Definition event_call (e : event) : call := match e with Ev c _ => c end.

Section Run.
(** The environment: a state and, for each call, its answer (a value
    or an exception) and the next state. *)
Context {W : Type} (respond : ∀ c : call, W → result (resp c) * W).

Fixpoint run {A} (p : prog A) (w : W) : result A * W * list event :=
  match p with
  | Ret a => (Ok a, w, [])
  | Raise e => (Err e, w, [])
  | Call c k =>
      let '(r, w') := respond c w in
      let '(out, w'', tr) := run (k r) w' in
      (out, w'', Ev c r :: tr)
  end.
End Run.

(** The exit status of the interpreter for the outcome of [main]:
    [SystemExit] carries it ([None] is success), any other exception that
    escapes gives [1]. *)
Definition exit_status {A} (out : result A) : Z :=
  match out with
  | Ok _ => 0
  | Err (SystemExit None) => 0
  | Err (SystemExit (Some n)) => n
  | Err _ => 1
  end.

(** ** The identity key and the lookup dictionaries (lines 286-308) *)

(** [songid]: [track['trackId'] if 'trackId' in track else track['id']]. *)
Definition songid (track : song) : result value :=
  if decide (is_Some (track !! "trackId")) then getitem track "trackId"
  else getitem track "id".

(** [songs_to_dict]: the reducer [songs[id] = song; return songs]. *)
Definition songs_to_dict (songs : gmap value song) (s : song) : result (gmap value song) :=
  id ← songid s ;
  k ← hashkey id ;
  Ok (<[k := s]> songs).

(** [functools.reduce(function, iterable, initial)]. *)
Fixpoint reduce {A B} (f : A → B → result A) (l : list B) (acc : A) : result A :=
  match l with
  | [] => Ok acc
  | x :: l' => acc' ← f acc x ; reduce f l' acc'
  end.

(** The loop of [get_mmw_tracks], carrying [tracks] and [seen]. *)
Fixpoint get_mmw_tracks_loop (tracks_dict : gmap value song) (songs : list song)
    (tracks : list song) (seen : gmap value bool) : result (list song) :=
  match songs with
  | [] => Ok tracks
  | s :: rest =>
      id ← songid s ;
      k ← hashkey id ;
      if decide (is_Some (seen !! k)) then
        get_mmw_tracks_loop tracks_dict rest tracks seen
      else
        match tracks_dict !! k with
        | None => Err (KeyError id)
        | Some t =>
            get_mmw_tracks_loop tracks_dict rest (tracks ++ [t]) (<[k := true]> seen)
        end
  end.

Definition get_mmw_tracks (tracks_dict : gmap value song) (songs : list song)
    : result (list song) :=
  get_mmw_tracks_loop tracks_dict songs [] ∅.

(** The identity key of an entry as a dictionary key. *)
Definition identity_key (s : song) : result value :=
  id ← songid s ; hashkey id.

(** Stable de-duplication in the spec's words: the first occurrence of a
    key stays where it is, every later occurrence is dropped. *)
Fixpoint first_occurrences {K} `{EqDecision K} (l : list K) : list K :=
  match l with
  | [] => []
  | x :: l' => x :: filter (λ y, y ≠ x) (first_occurrences l')
  end.

(** ** The identity key, in the spec's words *)

(** The [trackId] field of a record when it has one, and else its [id]
    field. *)
Definition trackId_else_id (record : song) : option value :=
  match record !! "trackId" with
  | Some v => Some v
  | None => record !! "id"
  end.

(** The dictionary key that value makes. *)
Definition lookup_key (record : song) : option value :=
  match trackId_else_id record with
  | Some v => match hashkey v with Ok k => Some k | Err _ => None end
  | None => None
  end.

(** ** Library functions and process constants

    Pure functions of the libraries the script imports and the constants
    of the process it runs in. *)
Record externals : Type := Externals {
  (** [os.getcwd()]; the script never changes directory. *)
  getcwd : string;
  (** [os.path.abspath] and [os.path.relpath(path, start)]. *)
  abspath : string → string;
  relpath : string → string → string;
  (** [gmusicapi_wrapper.utils.template_to_filepath(template, metadata)]. *)
  template_to_filepath : string → song → string;
  (** [gmusicapi.clients.OAUTH_FILEPATH]. *)
  OAUTH_FILEPATH : string;
  (** The identity keys that [compare_song_collections] derives for a
      local file and for a remote song. *)
  song_key : Type;
  song_key_eq : EqDecision song_key;
  local_key : string → song_key;
  remote_key : song → song_key;
  (** The tags of a local file, as a song dictionary. *)
  local_metadata : string → song
}.
#[global] Existing Instance song_key_eq.

(** Modelled from the spec: [compare_song_collections] of
    [gmusicapi_wrapper.utils], which is not part of this repository.
    [missing(source, target)] is every song of [source], in order, whose
    identity key does not appear among the keys of [target] (spec 4.3). *)
Definition compare_song_collections {A B K} `{EqDecision K}
    (key_src : A → K) (key_dst : B → K) (src : list A) (dst : list B) : list A :=
  let dst_keys := key_dst <$> dst in
  filter (λ s, key_src s ∉ dst_keys) src.

(** Logging levels. *)
Definition QUIET : Z := 25.
Definition INFO : Z := 20.
Definition WARNING : Z := 30.

(** Iterating over a value: a list gives its elements, a string its
    characters. *)
Fixpoint chars (s : string) : list string :=
  match s with
  | EmptyString => []
  | String c s' => String c EmptyString :: chars s'
  end.

Definition iter (v : value) : result (list string) :=
  match v with
  | VStrs l => Ok l
  | VStr s => Ok (chars s)
  | _ => Err TypeError
  end.

(** A path argument of an [os.path] function. *)
Definition as_path (v : value) : result string :=
  match v with VStr s => Ok s | _ => Err TypeError end.

(** [v[0]]. *)
Definition first_item (v : value) : result string :=
  match v with
  | VStrs (x :: _) => Ok x
  | VStr (String c _) => Ok (String c EmptyString)
  | VStrs [] | VStr EmptyString => Err (External "IndexError")
  | _ => Err TypeError
  end.

Section Script.
Context (X : externals).

(** *** [template_to_base_path] (lines 87-97) *)
Definition template_to_base_path (template : value) (google_songs : list song)
    : result string :=
  if Py.eqb template (VStr (getcwd X)) || Py.eqb template (VStr "%suggested%") then
    Ok (getcwd X)
  else
    t ← as_path template ;
    let template := abspath X t in
    let song_paths := map (template_to_filepath X template) google_songs in
    Ok (dirname (commonprefix song_paths)).

(** *** [metadata_from_mobile_client_song] (lines 99-111) *)
Definition copy_if_set (s : song) (field target : string) (metadata : song)
    : result song :=
  v ← getitem s field ;
  Ok (if truthy v then <[target := v]> metadata else metadata).

Definition metadata_from_mobile_client_song (s : song) : result song :=
  m ← copy_if_set s "artist" "artist" ∅ ;
  m ← copy_if_set s "album" "album" m ;
  m ← copy_if_set s "title" "title" m ;
  m ← copy_if_set s "year" "date" m ;
  m ← copy_if_set s "albumArtist" "albumartist" m ;
  tn ← getitem s "trackNumber" ;
  ttc ← getitem s "totalTrackCount" ;
  let m := <["tracknumber" := VStr (str tn +:+ "/" +:+ str ttc)]> m in
  dn ← getitem s "discNumber" ;
  tdc ← getitem s "totalDiscCount" ;
  Ok (<["discnumber" := VStr (str dn +:+ "/" +:+ str tdc)]> m).

(** *** [login_mobile_client] (lines 113-129) *)
Definition login_mobile_client : prog (gmap string value) :=
  _ ← perform (McwSetAttr "api.session._master_token" VNone) ;
  _ ← perform (McwSetAttr "api.session._authtoken" VNone) ;
  _ ← perform (McwSetAttr "api.android_id" VNone) ;
  _ ← perform (McwSetAttr "api.session.is_authenticated" (VBool false)) ;
  _ ← perform (Log INFO "Logging in to Mobile Client") ;
  username ← perform (Input "Enter your Google username or email address: ") ;
  _ ← perform (McwLogin username) ;
  master ← perform (McwGetAttr "api.session._master_token") ;
  auth ← perform (McwGetAttr "api.session._authtoken") ;
  android ← perform (McwGetAttr "api.android_id") ;
  mret (<["androidId" := android]> (<["email" := VStr username]>
         (<["authToken" := auth]> (<["masterToken" := master]> ∅)))).

(** *** [login_mobile_client_from_cache] (lines 131-159)

    [creds] is a local variable that the first [try] may leave unbound. *)
Definition use_stored_credentials (creds : gmap string value) : prog unit :=
  _ ← perform (Log INFO (dict_repr creds)) ;
  master ← lift (getitem creds "masterToken") ;
  _ ← perform (McwSetAttr "api.session._master_token" master) ;
  auth ← lift (getitem creds "authToken") ;
  _ ← perform (McwSetAttr "api.session._authtoken" auth) ;
  android ← lift (getitem creds "androidId") ;
  _ ← perform (McwSetAttr "api.android_id" android) ;
  perform (McwSetAttr "api.session.is_authenticated" (VBool true)).

Definition login_mobile_client_from_cache (oauth_filename : value) : prog unit :=
  name ← lift (match oauth_filename with
               | VStr f => Ok ("mc" +:+ f +:+ ".cred")
               | _ => Err TypeError
               end) ;
  let creds_filepath := path_join (dirname (OAUTH_FILEPATH X)) name in
  (* first try: the stored credentials; [inl] when it ran through,
     [inr] with the state of [creds] when the [except] clause runs *)
  r ← try_except
        (_ ← perform (Log INFO "Trying stored credentials to log in to Mobile Client") ;
         creds ← perform (JsonLoadFile creds_filepath) ;
         try_except (_ ← use_stored_credentials creds ; mret (inl creds))
                    (λ _, mret (inr (Some creds))))
        (λ _, mret (inr None)) ;
  creds ← match r with
          | inl creds => mret (Some creds)
          | inr creds => _ ← perform (Log INFO "Unable to load credentials file...") ;
                         mret creds
          end ;
  (* second try: test the login *)
  ok ← try_except (_ ← perform McwGetRegisteredDevices ; mret true) (λ _, mret false) ;
  creds ← (if ok : bool then mret creds else Some <$> login_mobile_client) ;
  _ ← perform (MakeSurePathExists (dirname creds_filepath) 448) ;
  _ ← perform (OpenWrite creds_filepath) ;
  creds ← lift (match creds with
                | Some c => Ok c
                | None => Err (UnboundLocalError "creds")
                end) ;
  _ ← perform (JsonDump creds_filepath creds) ;
  perform (Log INFO "Stored Mobile Client credentials").

(** *** [removeEmptyFolders] (lines 161-178)

    The recursion follows the directory tree the environment reports;
    [depth] is the number of stack frames left before the interpreter
    raises [RecursionError]. *)
Fixpoint removeEmptyFolders (depth : nat) (path : string) (removeRoot : bool)
    : prog unit :=
  match depth with
  | O => Raise RecursionError
  | S depth' =>
      d ← perform (Isdir path) ;
      if negb d then mret tt
      else
        files ← perform (Listdir path) ;
        _ ← for_each files (λ f,
              let fullpath := path_join path f in
              d ← perform (Isdir fullpath) ;
              if d : bool then removeEmptyFolders depth' fullpath true else mret tt) ;
        files ← perform (Listdir path) ;
        if bool_decide (files = []) && removeRoot then
          _ ← perform (Print ("Removing empty folder: " +:+ path)) ;
          perform (Rmdir path)
        else mret tt
  end.

(** Frames available to [removeEmptyFolders] under the default
    recursion limit of 1000. *)
Definition recursion_depth : nat := 997.

(** *** The closures of [main] (lines 228-254, 287-338)

    Each takes the variables of [main] it closes over as arguments. *)

(** [download_songs] (lines 228-246). *)
Definition download_songs (cli : gmap string value) (songs_to_download : list song)
    : prog unit :=
  dry ← lift (getitem cli "dry-run") ;
  if truthy dry then
    _ ← perform (Log INFO (nl +:+ "Found " +:+ pretty (length songs_to_download)
                             +:+ " song(s) to download")) ;
    match songs_to_download with
    | _ :: _ =>
        _ ← perform (Log INFO (nl +:+ "Songs to download:" +:+ nl)) ;
        for_each songs_to_download (λ s,
          let title := default (VStr "<title>") (s !! "title") in
          let artist := default (VStr "<artist>") (s !! "artist") in
          let album := default (VStr "<album>") (s !! "album") in
          song_id ← lift (getitem s "id") ;
          perform (Log QUIET (str title +:+ " -- " +:+ str artist +:+ " -- "
                                +:+ str album +:+ " (" +:+ str song_id +:+ ")")))
    | [] => perform (Log INFO (nl +:+ "No songs to download"))
    end
  else
    match songs_to_download with
    | _ :: _ =>
        _ ← perform (Log INFO (nl +:+ "Downloading " +:+ pretty (length songs_to_download)
                                 +:+ " song(s) from Google Music" +:+ nl)) ;
        template ← lift (getitem cli "output") ;
        perform (MmwDownload songs_to_download template)
    | [] => perform (Log INFO (nl +:+ "No songs to download"))
    end.

(** The sort key of line 253:
    [(song.get('artist'), song.get('album'), song.get('track_number'))]. *)
Definition download_key (s : song) : result (list value) :=
  Ok [get s "artist"; get s "album"; get s "track_number"].

(** [download_missing_google_songs] (lines 248-254). *)
Definition download_missing_google_songs (cli : gmap string value) (mmw_songs : list song)
    : prog unit :=
  input ← lift (getitem cli "input") ;
  exclude ← lift (getitem cli "exclude") ;
  '(matched_local_songs, _, _) ←
     perform (MmwGetLocalSongs (LocalQuery input None None None None exclude None)) ;
  _ ← perform (Log INFO (nl +:+ "Finding missing songs...")) ;
  let songs_to_download :=
    compare_song_collections (remote_key X) (local_key X) mmw_songs matched_local_songs in
  songs_to_download ← lift (list_sort tuple_lt download_key songs_to_download) ;
  download_songs cli songs_to_download.

(** The lines a playlist entry contributes to the m3u file
    (lines 321-329). *)
Definition m3u_entry (cli : gmap string value) (songs_dict : gmap value song)
    (outpath : string) (track : song) : result (list string) :=
  id ← songid track ;
  k ← hashkey id ;
  s ← match songs_dict !! k with Some s => Ok s | None => Err (KeyError id) end ;
  artist ← getitem s "artist" ;
  title ← getitem s "title" ;
  duration ← (if decide (is_Some (s !! "durationMillis")) then
                ms ← getitem s "durationMillis" ;
                n ← int ms ;
                Ok (pretty (n `quot` 1000))
              else Ok "0") ;
  metadata ← metadata_from_mobile_client_song s ;
  output ← getitem cli "output" ;
  template ← as_path output ;
  let songpath := template_to_filepath X template metadata +:+ ".mp3" in
  artist ← as_path artist ;
  title ← as_path title ;
  Ok ["#EXTINF," +:+ duration +:+ "," +:+ artist +:+ " - " +:+ title;
      relpath X songpath outpath].

(** [create_playlist_file] (lines 315-338). *)
Definition create_playlist_file (cli : gmap string value) (songs_dict : gmap value song)
    (name : value) (songs : list song) (outpath : string) : prog unit :=
  file ← lift (add_str name ".m3u") ;
  let filename := path_join outpath file in
  dry ← lift (getitem cli "dry-run") ;
  _ ← (if truthy dry then mret tt
       else
         entries ← lift (mapM (m3u_entry cli songs_dict outpath) songs) ;
         let m3u := "#EXTM3U" :: concat entries in
         let contentstr := String.concat nl m3u in
         temp ← perform (TempWrite ".m3u" (utf8_bom +:+ contentstr)) ;
         perform (Move temp filename)) ;
  perform (Log QUIET ("Playlist (" +:+ pretty (length songs) +:+ " tracks): " +:+ filename)).

(** The name of the favorites playlist (line 355):
    [cli['favorites'] if 'favorites' in cli else '___auto_favorites___']. *)
Definition favorites_playlist_name (cli : gmap string value) : result value :=
  if decide (is_Some (cli !! "favorites")) then getitem cli "favorites"
  else Ok (VStr "___auto_favorites___").

(** The favorites (lines 357-359): the songs rated above 3, most
    recently modified first. *)
Fixpoint rated_above_3 (all_songs : list song) : result (list song) :=
  match all_songs with
  | [] => Ok []
  | t :: rest =>
      rating ← getitem t "rating" ;
      r ← int rating ;
      keep ← rated_above_3 rest ;
      Ok (if 3 <? r then t :: keep else keep)
  end.

Definition favorites_key (s : song) : result Z :=
  ts ← int (get s "lastModifiedTimestamp") ;
  Ok (ts * -1).

Definition thumbs_up (all_songs : list song) : result (list song) :=
  selected ← rated_above_3 all_songs ;
  list_sort (λ a b : Z, Ok (a <? b)) favorites_key selected.

(** *** The blocks of [main] *)

(** Removed-file detection (lines 259-280). *)
Definition songs_to_move (local_songs : list string * list string * list string)
    (matched_google_songs filtered_google_songs : list song) : list string :=
  let '(matched_local_songs, filtered_local_songs, excluded_local_songs) := local_songs in
  let all_local_songs := matched_local_songs ++ filtered_local_songs ++ excluded_local_songs in
  let all_google_songs := matched_google_songs ++ filtered_google_songs in
  compare_song_collections (local_key X) (remote_key X) all_local_songs all_google_songs.

Definition move_removed_songs (cli : gmap string value)
    (matched_google_songs filtered_google_songs : list song) : prog unit :=
  _ ← perform (Log INFO "Moving Removed songs...") ;
  removed ← lift (getitem cli "removed") ;
  removed ← lift (as_path removed) ;
  let removed_dir := abspath X removed in
  _ ← perform (MakeSurePathExists removed_dir 448) ;
  input ← lift (getitem cli "input") ;
  exclude ← lift (getitem cli "exclude") ;
  local_songs ←
    perform (MmwGetLocalSongs (LocalQuery input None None None None exclude None)) ;
  _ ← for_each (songs_to_move local_songs matched_google_songs filtered_google_songs)
        (λ filepath,
          input ← lift (getitem cli "input") ;
          base ← lift (first_item input) ;
          let rel_file_path := relpath X filepath base in
          let removed_filepath := path_join removed_dir rel_file_path in
          _ ← perform (MakeSurePathExists (dirname removed_filepath) 448) ;
          _ ← perform (Log INFO ("Removing " +:+ rel_file_path)) ;
          perform (Move filepath removed_filepath)) ;
  _ ← perform (Log INFO " ") ;
  input ← lift (getitem cli "input") ;
  base ← lift (first_item input) ;
  removeEmptyFolders recursion_depth base false.

(** Playlists and favorites (lines 282-366). *)
Definition sync_playlists (cli : gmap string value)
    (matched_google_songs filtered_google_songs : list song) : prog unit :=
  _ ← perform (Log INFO "Syncing playlists...") ;
  all_songs ← perform McwGetAllSongs ;
  songs_dict ← lift (reduce songs_to_dict all_songs ∅) ;
  tracks_dict ← lift (reduce songs_to_dict (matched_google_songs ++ filtered_google_songs) ∅) ;
  dir ← lift (getitem cli "playlists") ;
  dir ← lift (as_path dir) ;
  let playlists_dir := abspath X dir in
  _ ← perform (MakeSurePathExists playlists_dir 448) ;
  playlists ← perform McwGetAllUserPlaylistContents ;
  let playlist_tracks := concat (map pl_tracks playlists) in
  playlist_tracks ← lift (get_mmw_tracks tracks_dict playlist_tracks) ;
  _ ← perform (Log INFO (nl +:+ "Fetching Playlist songs...")) ;
  _ ← download_missing_google_songs cli playlist_tracks ;
  _ ← for_each playlists (λ pl,
        create_playlist_file cli songs_dict (pl_name pl) (pl_tracks pl) playlists_dir) ;
  name ← lift (favorites_playlist_name cli) ;
  thumbs ← lift (thumbs_up all_songs) ;
  thumbs_up_tracks ← lift (get_mmw_tracks tracks_dict thumbs) ;
  _ ← perform (Log INFO (nl +:+ "Fetching Favorited songs...")) ;
  _ ← download_missing_google_songs cli thumbs_up_tracks ;
  create_playlist_file cli songs_dict name thumbs playlists_dir.

(** The [down] branch (lines 220-366). *)
Definition sync_down (cli : gmap string value)
    (include_filters exclude_filters : list (list string)) : prog unit :=
  all_includes ← lift (getitem cli "all-includes") ;
  all_excludes ← lift (getitem cli "all-excludes") ;
  '(matched_google_songs, filtered_google_songs) ←
     perform (MmwGetGoogleSongs (Some include_filters) (Some exclude_filters)
                                (Some all_includes) (Some all_excludes)) ;
  output ← lift (getitem cli "output") ;
  base_path ← lift (template_to_base_path output matched_google_songs) ;
  let cli := <["input" := VStrs [base_path]]> cli in
  _ ← perform (Log INFO (nl +:+ "Fetching Library songs...")) ;
  _ ← download_missing_google_songs cli matched_google_songs ;
  removed ← lift (getitem cli "removed") ;
  _ ← (if truthy removed
       then move_removed_songs cli matched_google_songs filtered_google_songs
       else mret tt) ;
  playlists ← lift (getitem cli "playlists") ;
  if truthy playlists
  then sync_playlists cli matched_google_songs filtered_google_songs
  else mret tt.

(** [l.sort()] on a list of file names. *)
Definition sort_paths (l : list string) : result (list string) :=
  list_sort (λ a b : string, Ok (String.ltb a b)) Ok l.

Definition log_each (songs : list string) : prog unit :=
  for_each songs (λ s, perform (Log QUIET s)).

(** Reporting or uploading the sorted lists (lines 387-427). *)
Definition report_or_upload (cli : gmap string value)
    (songs_to_upload songs_to_filter songs_to_exclude matched_local_songs : list string)
    : prog unit :=
  dry ← lift (getitem cli "dry-run") ;
  if truthy dry then
    _ ← perform (Log INFO (nl +:+ "Found " +:+ pretty (length songs_to_upload)
                             +:+ " song(s) to upload")) ;
    _ ← match songs_to_upload with
        | _ :: _ => _ ← perform (Log INFO (nl +:+ "Songs to upload:" +:+ nl)) ;
                    log_each songs_to_upload
        | [] => perform (Log INFO (nl +:+ "No songs to upload"))
        end ;
    _ ← match songs_to_filter with
        | _ :: _ => _ ← perform (Log INFO (nl +:+ "Songs to filter:" +:+ nl)) ;
                    log_each songs_to_filter
        | [] => perform (Log INFO (nl +:+ "No songs to filter"))
        end ;
    match songs_to_exclude with
    | _ :: _ => _ ← perform (Log INFO (nl +:+ "Songs to exclude:" +:+ nl)) ;
                log_each songs_to_exclude
    | [] => perform (Log INFO (nl +:+ "No songs to exclude"))
    end
  else
    match songs_to_upload with
    | _ :: _ =>
        _ ← perform (Log INFO (nl +:+ "Uploading " +:+ pretty (length songs_to_upload)
                                 +:+ " song(s) to Google Music" +:+ nl)) ;
        enable_matching ← lift (getitem cli "match") ;
        delete_on_success ← lift (getitem cli "delete-on-success") ;
        perform (MmwUpload songs_to_upload enable_matching delete_on_success)
    | [] =>
        _ ← perform (Log INFO (nl +:+ "No songs to upload")) ;
        delete_on_success ← lift (getitem cli "delete-on-success") ;
        if truthy delete_on_success then
          for_each matched_local_songs (λ s,
            try_except (perform (Remove s))
              (λ _, perform (Log WARNING ("Failed to remove " +:+ s
                                            +:+ " after successful upload"))))
        else mret tt
    end.

(** The [up] branch (lines 369-427). *)
Definition sync_up (cli : gmap string value)
    (include_filters exclude_filters : list (list string)) : prog unit :=
  '(matched_google_songs, _) ← perform (MmwGetGoogleSongs None None None None) ;
  _ ← perform (Log INFO "") ;
  input ← lift (getitem cli "input") ;
  all_includes ← lift (getitem cli "all-includes") ;
  all_excludes ← lift (getitem cli "all-excludes") ;
  exclude ← lift (getitem cli "exclude") ;
  max_depth ← lift (getitem cli "max-depth") ;
  '(matched_local_songs, songs_to_filter, songs_to_exclude) ←
     perform (MmwGetLocalSongs
                (LocalQuery input (Some include_filters) (Some exclude_filters)
                   (Some all_includes) (Some all_excludes) exclude (Some max_depth))) ;
  _ ← perform (Log INFO (nl +:+ "Finding missing songs...")) ;
  let songs_to_upload :=
    compare_song_collections (local_key X) (remote_key X)
      matched_local_songs matched_google_songs in
  songs_to_upload ← lift (sort_paths songs_to_upload) ;
  songs_to_exclude ← lift (sort_paths songs_to_exclude) ;
  report_or_upload cli songs_to_upload songs_to_filter songs_to_exclude matched_local_songs.

(** Lines 186-203: defaults and filters. *)
Definition prepare (cli : gmap string value)
    : prog (gmap string value * list (list string) * list (list string)) :=
  no_recursion ← lift (getitem cli "no-recursion") ;
  cli ← (if truthy no_recursion then mret (<["max-depth" := VInt 0]> cli)
         else
           max_depth ← lift (getitem cli "max-depth") ;
           if truthy max_depth then
             n ← lift (int max_depth) ; mret (<["max-depth" := VInt n]> cli)
           else mret (<["max-depth" := VInf]> cli)) ;
  quiet ← lift (getitem cli "quiet") ;
  _ ← (if truthy quiet then perform (SetLevel QUIET) else perform (SetLevel INFO)) ;
  input ← lift (getitem cli "input") ;
  let cli := if truthy input then cli else <["input" := VStrs [getcwd X]]> cli in
  output ← lift (getitem cli "output") ;
  let cli := if truthy output then cli else <["output" := VStr (getcwd X)]> cli in
  include ← lift (getitem cli "include-filter") ;
  include ← lift (iter include) ;
  exclude ← lift (getitem cli "exclude-filter") ;
  exclude ← lift (iter exclude) ;
  mret (cli, map (split1 ":") include, map (split1 ":") exclude).

(** Lines 205-217: the two logins. *)
Definition authenticate (cli : gmap string value) : prog unit :=
  log ← lift (getitem cli "log") ;
  _ ← perform (MmwNew log) ;
  cred ← lift (getitem cli "cred") ;
  uploader_id ← lift (getitem cli "uploader-id") ;
  _ ← perform (MmwLogin cred uploader_id) ;
  authenticated ← perform MmwIsAuthenticated ;
  if negb authenticated then Raise (SystemExit None)
  else
    log ← lift (getitem cli "log") ;
    _ ← perform (McwNew log) ;
    playlists ← lift (getitem cli "playlists") ;
    if truthy playlists then
      cred ← lift (getitem cli "cred") ;
      _ ← login_mobile_client_from_cache cred ;
      authenticated ← perform McwIsAuthenticated ;
      if negb authenticated then Raise (SystemExit None) else mret tt
    else mret tt.

(** [main] from line 186 on. *)
Definition main_body (cli : gmap string value) : prog unit :=
  '(cli, include_filters, exclude_filters) ← prepare cli ;
  _ ← authenticate cli ;
  down ← lift (getitem cli "down") ;
  _ ← (if truthy down then sync_down cli include_filters exclude_filters
       else sync_up cli include_filters exclude_filters) ;
  _ ← perform MmwLogout ;
  _ ← perform McwLogout ;
  perform (Log INFO (nl +:+ "All done!")).
End Script.

(** *** [main] (lines 181-431) *)

(** Line 182: the keys of docopt's dictionary, stripped of their dashes
    and angle brackets; a later item replaces an earlier one of the same
    key. *)
Definition cli_of_docopt (items : list (string * value)) : gmap string value :=
  foldl (λ d kv, <[rstrip [">"%char] (lstrip ["-"%char; "<"%char] kv.1) := kv.2]> d) ∅ items.

(** The names the module binds before [main] runs: its imports,
    assignments and function definitions (lines 62-181, 434). *)
Definition module_globals : list string :=
  ["__name__"; "__doc__"; "__file__"; "__builtins__";
   "logging"; "os"; "sys"; "shutil"; "tempfile"; "json"; "docopt";
   "MusicManagerWrapper"; "MobileClientWrapper";
   "compare_song_collections"; "template_to_filepath";
   "utils"; "OAUTH_FILEPATH"; "reduce";
   "QUIET"; "logger"; "sh";
   "template_to_base_path"; "metadata_from_mobile_client_song";
   "login_mobile_client"; "login_mobile_client_from_cache";
   "removeEmptyFolders"; "main"].

(** The names of the [builtins] module. *)
Definition builtins : list string :=
  ["abs"; "aiter"; "all"; "anext"; "any"; "ascii"; "bin"; "bool"; "breakpoint";
   "bytearray"; "bytes"; "callable"; "chr"; "classmethod"; "compile"; "complex";
   "copyright"; "credits"; "delattr"; "dict"; "dir"; "divmod"; "enumerate"; "eval";
   "exec"; "exit"; "filter"; "float"; "format"; "frozenset"; "getattr"; "globals";
   "hasattr"; "hash"; "help"; "hex"; "id"; "input"; "int"; "isinstance";
   "issubclass"; "iter"; "len"; "license"; "list"; "locals"; "map"; "max";
   "memoryview"; "min"; "next"; "object"; "oct"; "open"; "ord"; "pow"; "print";
   "property"; "quit"; "range"; "repr"; "reversed"; "round"; "set"; "setattr";
   "slice"; "sorted"; "staticmethod"; "str"; "sum"; "super"; "tuple"; "type";
   "vars"; "zip"; "__import__"; "__build_class__"; "__debug__";
   "None"; "True"; "False"; "Ellipsis"; "NotImplemented";
   "BaseException"; "Exception"; "ArithmeticError"; "AssertionError";
   "AttributeError"; "BlockingIOError"; "BrokenPipeError"; "BufferError";
   "BytesWarning"; "ChildProcessError"; "ConnectionAbortedError"; "ConnectionError";
   "ConnectionRefusedError"; "ConnectionResetError"; "DeprecationWarning"; "EOFError";
   "EnvironmentError"; "FileExistsError"; "FileNotFoundError"; "FloatingPointError";
   "FutureWarning"; "GeneratorExit"; "IOError"; "ImportError"; "ImportWarning";
   "IndentationError"; "IndexError"; "InterruptedError"; "IsADirectoryError";
   "KeyError"; "KeyboardInterrupt"; "LookupError"; "MemoryError";
   "ModuleNotFoundError"; "NameError"; "NotADirectoryError"; "NotImplementedError";
   "OSError"; "OverflowError"; "PendingDeprecationWarning"; "PermissionError";
   "ProcessLookupError"; "RecursionError"; "ReferenceError"; "ResourceWarning";
   "RuntimeError"; "RuntimeWarning"; "StopAsyncIteration"; "StopIteration";
   "SyntaxError"; "SyntaxWarning"; "SystemError"; "SystemExit"; "TabError";
   "TimeoutError"; "TypeError"; "UnboundLocalError"; "UnicodeDecodeError";
   "UnicodeEncodeError"; "UnicodeError"; "UnicodeTranslateError"; "UnicodeWarning";
   "UserWarning"; "ValueError"; "Warning"; "ZeroDivisionError";
   "BaseExceptionGroup"; "ExceptionGroup"; "EncodingWarning"].

(** Evaluating a name inside [main] that is not one of its locals. *)
Definition load_global (name : string) : prog unit :=
  if bool_decide (name ∈ module_globals ++ builtins) then mret tt
  else Raise (NameError name).

Definition main (X : externals) : prog unit :=
  items ← perform Docopt ;
  let cli := cli_of_docopt items in
  _ ← load_global "pp" ;
  _ ← perform (PPrint cli) ;
  main_body X cli.


(** Data for the examples. *)
Definition entry (tid : string) : song := {[ "trackId" := VStr tid; "id" := VStr ("e-" +:+ tid) ]}.
Definition mm_track (i title : string) : song := {[ "id" := VStr i; "title" := VStr title ]}.

Definition example_tracks_dict : gmap value song :=
  {[ VStr "A" := mm_track "A" "a"; VStr "B" := mm_track "B" "b"; VStr "C" := mm_track "C" "c" ]}.

(** ** Properties of all runs

    [wp p Q]: whatever the environment answers, the outcome and the trace
    of [p] satisfy [Q]. *)
Fixpoint wp {A} (p : prog A) (Q : result A → list event → Prop) : Prop :=
  match p with
  | Ret a => Q (Ok a) []
  | Raise e => Q (Err e) []
  | Call c k => ∀ r, wp (k r) (λ out tr, Q out (Ev c r :: tr))
  end.

(** Programs in which no call satisfies [P]. *)
Definition never (P : call → bool) {A} (p : prog A) : Prop :=
  wp p (λ _ tr, Forall (λ e, P (event_call e) = false) tr).

(** The calls of a trace, and the files it moved, in order. *)
Definition calls (tr : list event) : list call := event_call <$> tr.

Definition moved (tr : list event) : list string :=
  omap (λ e, match e with
             | Ev c r =>
                 match c return result (resp c) → option string with
                 | Move src _ => λ r, match r with Ok _ => Some src | Err _ => None end
                 | _ => λ _, None
                 end r
             end) tr.

(** The answers of [get_local_songs] in a trace. *)
Definition local_songs_fetched (tr : list event)
    : list (list string * list string * list string) :=
  omap (λ e, match e with
             | Ev c r =>
                 match c return result (resp c)
                                → option (list string * list string * list string) with
                 | MmwGetLocalSongs _ => λ r, match r with Ok loc => Some loc | Err _ => None end
                 | _ => λ _, None
                 end r
             end) tr.

Definition is_move (c : call) : bool :=
  match c with Move _ _ => true | _ => false end.

Definition is_get_local_songs (c : call) : bool :=
  match c with MmwGetLocalSongs _ => true | _ => false end.

Definition is_mmw_auth_query (c : call) : bool :=
  match c with MmwIsAuthenticated => true | _ => false end.

Definition is_set_level (c : call) : bool :=
  match c with SetLevel _ => true | _ => false end.

(** Music-manager authentication failed in a run: [mmw.is_authenticated]
    was read and was false. *)
Definition authentication_failed (tr : list event) : bool :=
  existsb (λ e, match e with
                | Ev c r =>
                    match c return result (resp c) → bool with
                    | MmwIsAuthenticated =>
                        λ r, match r with Ok false => true | _ => false end
                    | _ => λ _, false
                    end r
                end) tr.

(** No call of the trace fetches a collection or acts on one. *)
Definition no_reconciliation (tr : list event) : Prop :=
  Forall (λ e, reconciliation_call (event_call e) = false) tr.

(** The lists handed to [mmw.upload] and to [mmw.download] in a trace. *)
Definition uploads (tr : list event) : list (list string) :=
  omap (λ e, match event_call e with MmwUpload l _ _ => Some l | _ => None end) tr.

Definition downloads (tr : list event) : list (list song) :=
  omap (λ e, match event_call e with MmwDownload l _ => Some l | _ => None end) tr.

(** The answers of [get_google_songs] in a trace. *)
Definition google_songs_fetched (tr : list event) : list (list song * list song) :=
  omap (λ e, match e with
             | Ev c r =>
                 match c return result (resp c) → option (list song * list song) with
                 | MmwGetGoogleSongs _ _ _ _ =>
                     λ r, match r with Ok g => Some g | Err _ => None end
                 | _ => λ _, None
                 end r
             end) tr.

(** The calls a caller makes between the comparison and the use of its
    result: fetching the collections and logging. *)
Definition fetch_or_log (c : call) : bool :=
  match c with
  | MmwGetGoogleSongs _ _ _ _ | MmwGetLocalSongs _ | Log _ _ => true
  | _ => false
  end.

(** The last call of a trace raised [e]. *)
Definition call_failed (tr : list event) (e : exn) : Prop :=
  ∃ c pre, tr = pre ++ [Ev c (Err e)].

(** [hands_over p k P E]: whatever the environment answers, [p] makes
    only calls that fetch or log and then either raises an exception [e],
    with [E] of the trace and [e], or comes to continue as [k l], for
    some [l] that satisfies [P] together with the trace up to that
    point. *)
Fixpoint hands_over {A L} (p : prog A) (k : L → prog A)
    (P : list event → L → Prop) (E : list event → exn → Prop) : Prop :=
  (∃ l, P [] l ∧ p = k l)
  ∨ match p with
    | Ret _ => False
    | Raise e => E [] e
    | Call c k' =>
        fetch_or_log c = true
        ∧ ∀ r, hands_over (k' r) k (λ tr l, P (Ev c r :: tr) l) (λ tr e, E (Ev c r :: tr) e)
    end.

(** Ascending order of file names, as [list.sort()] leaves them. *)
Definition paths_ascend (a b : string) : Prop := String.ltb b a = false.

(** Ascending order under the key [(artist, album, track_number)] of the
    claim, read from a song dictionary. *)
Definition by_artist_album_track (tags_a tags_b : song) : Prop :=
  tuple_lt [get tags_b "artist"; get tags_b "album"; get tags_b "track_number"]
           [get tags_a "artist"; get tags_a "album"; get tags_a "track_number"]
  = Ok false.

(** ** A concrete environment

    An environment without state whose answers are fixed in advance. *)
Record answers : Type := Answers {
  ans_docopt : list (string * value);
  ans_mmw_authenticated : bool;
  ans_mcw_authenticated : bool;
  ans_google_songs : list song * list song;
  ans_local_songs : list string * list string * list string;
  ans_all_songs : list song;
  ans_playlists : list playlist
}.

Definition respond_with (a : answers) (c : call) (w : unit) : result (resp c) * unit :=
  (match c return result (resp c) with
   | Docopt => Ok (ans_docopt a)
   | PPrint _ => Ok tt
   | SetLevel _ => Ok tt
   | Log _ _ => Ok tt
   | Print _ => Ok tt
   | Input _ => Ok "user@example.com"
   | MmwNew _ => Ok tt
   | MmwLogin _ _ => Ok tt
   | MmwIsAuthenticated => Ok (ans_mmw_authenticated a)
   | MmwGetGoogleSongs _ _ _ _ => Ok (ans_google_songs a)
   | MmwGetLocalSongs _ => Ok (ans_local_songs a)
   | MmwDownload _ _ => Ok tt
   | MmwUpload _ _ _ => Ok tt
   | MmwLogout => Ok tt
   | McwNew _ => Ok tt
   | McwLogin _ => Ok tt
   | McwIsAuthenticated => Ok (ans_mcw_authenticated a)
   | McwSetAttr _ _ => Ok tt
   | McwGetAttr _ => Ok (VStr "token")
   | McwGetRegisteredDevices => Ok tt
   | McwGetAllSongs => Ok (ans_all_songs a)
   | McwGetAllUserPlaylistContents => Ok (ans_playlists a)
   | McwLogout => Ok tt
   | JsonLoadFile _ =>
       Ok {[ "masterToken" := VStr "m"; "authToken" := VStr "a"; "androidId" := VStr "d" ]}
   | OpenWrite _ => Ok tt
   | JsonDump _ _ => Ok tt
   | MakeSurePathExists _ _ => Ok tt
   | Isdir _ => Ok false
   | Listdir _ => Ok []
   | Rmdir _ => Ok tt
   | Remove _ => Ok tt
   | Move _ _ => Ok tt
   | TempWrite _ _ => Ok "/tmp/tmpfile.m3u"
   end, w).

(** What docopt returns for the usage text of the script (lines 8-59):
    one item for every command, option and argument, given or not. *)
Definition docopt_items (up down : bool) (playlists removed favorites output : value)
    : list (string * value) :=
  [("--help", VBool false); ("up", VBool up); ("down", VBool down);
   ("--exclude", VStrs []); ("--include-filter", VStrs []); ("--exclude-filter", VStrs []);
   ("--cred", VStr "oauth"); ("--uploader-id", VNone); ("--log", VBool false);
   ("--match", VBool false); ("--dry-run", VBool false); ("--quiet", VBool false);
   ("--delete-on-success", VBool false); ("--no-recursion", VBool false);
   ("--max-depth", VNone); ("--all-includes", VBool false); ("--all-excludes", VBool false);
   ("--playlists", playlists); ("--removed", removed); ("--favorites", favorites);
   ("<input>", VStrs []); ("<output>", output)].

(** [gmsync down -p playlists]: no [--favorites] on the command line. *)
Definition cli_down_playlists : gmap string value :=
  cli_of_docopt (docopt_items false true (VStr "playlists") VNone VNone VNone).

(** [gmsync down -r gone], after line 225 has set [cli['input']]. *)
Definition cli_down_removed : gmap string value :=
  <["input" := VStrs ["/music"]]>
    (cli_of_docopt (docopt_items false true VNone (VStr "gone") VNone VNone)).

(** [gmsync up]. *)
Definition cli_up : gmap string value :=
  cli_of_docopt (docopt_items true false VNone VNone VNone VNone).

(** Library functions for the examples: paths are used as they are, a
    remote song is keyed by its title and a local file by its name. *)
Definition example_tags (path : string) : song :=
  if String.eqb path "a.mp3" then {[ "artist" := VStr "Zebra" ]}
  else {[ "artist" := VStr "Abba" ]}.

Definition example_externals : externals := {|
  getcwd := "/music";
  abspath := λ p, if starts_with_slash p then p else path_join "/music" p;
  relpath := λ p start, p;
  template_to_filepath := λ template s, path_join template (str (get s "title"));
  OAUTH_FILEPATH := "/home/user/.local/share/gmusicapi/oauth.cred";
  song_key := string;
  song_key_eq := _;
  local_key := λ p, p;
  remote_key := λ s, str (get s "title") +:+ ".mp3";
  local_metadata := example_tags
|}.

Definition example_answers (mmw_authenticated : bool)
    (local_songs : list string * list string * list string) : answers := {|
  ans_docopt := docopt_items true false VNone VNone VNone VNone;
  ans_mmw_authenticated := mmw_authenticated;
  ans_mcw_authenticated := true;
  ans_google_songs := ([], []);
  ans_local_songs := local_songs;
  ans_all_songs := [];
  ans_playlists := []
|}.

(** ** Favorites, in the spec's words *)

(** A song counts as a thumbs-up when its rating is above 3. *)
Definition rating_above_3 (t : song) : bool :=
  match getitem t "rating" ≫= int with Ok r => 3 <? r | Err _ => false end.

(** The time a song was last modified. *)
Definition last_modified (t : song) : Z :=
  match int (get t "lastModifiedTimestamp") with Ok z => z | Err _ => 0 end.

(** A mobile-client song with a rating and a modification time. *)
Definition rated_song (i rating timestamp : string) : song :=
  {[ "id" := VStr i; "rating" := VStr rating; "lastModifiedTimestamp" := VStr timestamp ]}.

(** ** Paths, in the spec's words *)

(** [a] is a prefix of [b]. *)
Definition str_prefix (a b : string) : Prop := ∃ r, b = a +:+ r.

(** [d] is an ancestor directory of the path [p]: a prefix of [p] that
    ends where a component of [p] ends. *)
Definition ancestor_dir (d p : string) : Prop :=
  ∃ rest, p = d +:+ rest
          ∧ (d = "" ∨ ends_with_slash d = true ∨ starts_with_slash rest = true).

(** Songs of the music-manager view for the examples. *)
Definition titled (title : string) : song := {[ "id" := VStr title; "title" := VStr title ]}.

(** A [template_to_filepath] for the examples that fills the patterns
    [%artist%], [%album%] and [%title%] of the template with the fields of
    the song; a pattern whose field the song lacks stays as it is. *)
Fixpoint replace_from (skip : nat) (pattern replacement s : string) : string :=
  match s with
  | EmptyString => EmptyString
  | String c s' =>
      match skip with
      | S k => replace_from k pattern replacement s'
      | O =>
          if String.prefix pattern s
          then replacement +:+ replace_from (String.length pattern - 1) pattern replacement s'
          else String c (replace_from 0 pattern replacement s')
      end
  end.

Definition fill_template (template : string) (s : song) : string :=
  foldl (λ t field,
           match s !! field with
           | Some (VStr v) => replace_from 0 ("%" +:+ field +:+ "%") v t
           | _ => t
           end)
        template ["artist"; "album"; "title"].

Definition pattern_externals : externals := {|
  getcwd := getcwd example_externals;
  abspath := abspath example_externals;
  relpath := relpath example_externals;
  template_to_filepath := fill_template;
  OAUTH_FILEPATH := OAUTH_FILEPATH example_externals;
  song_key := string;
  song_key_eq := _;
  local_key := λ p, p;
  remote_key := λ s, str (get s "title") +:+ ".mp3";
  local_metadata := example_tags
|}.

Definition tagged (artist album title : string) : song :=
  {[ "id" := VStr title; "artist" := VStr artist; "album" := VStr album;
     "title" := VStr title ]}.

(** Two songs for the download examples, and the run of the caller of
    the comparator for downloads when Google Music delivers them with
    the later artist first and none of them is on disk. *)
Definition song_by (artist title : string) : song :=
  {[ "id" := VStr title; "title" := VStr title; "artist" := VStr artist;
     "album" := VStr "Album"; "track_number" := VInt 1 ]}.

Definition unsorted_download_run : result unit * unit * list event :=
  run (respond_with (example_answers true ([], [], [])))
      (download_missing_google_songs example_externals cli_down_removed
         [song_by "Zebra" "z"; song_by "Abba" "a"]) tt.

(** Closed equations are decided by evaluating their left side. *)
Ltac by_evaluation :=
  lazymatch goal with |- _ = ?y => vm_cast_no_check (eq_refl y) end.

(** ** Fixtures and observations for the remaining functions *)

(** A song of the mobile-client view with every field of the metadata. *)
Definition example_mobile_song : song :=
  {[ "id" := VStr "s1"; "artist" := VStr "Muse"; "album" := VStr "";
     "title" := VStr "Psycho"; "year" := VInt 0; "albumArtist" := VStr "Muse";
     "trackNumber" := VInt 3; "totalTrackCount" := VInt 12;
     "discNumber" := VInt 1; "totalDiscCount" := VInt 1;
     "durationMillis" := VStr "316999" ]}.

(** The fields [metadata_from_mobile_client_song] reads. *)
Definition metadata_source_fields : list string :=
  ["artist"; "album"; "title"; "year"; "albumArtist";
   "trackNumber"; "totalTrackCount"; "discNumber"; "totalDiscCount"].

(** [gmsync up -R --max-depth 3 -f artist:Mu:se], as docopt returns it,
    and after lines 186-200. *)
Definition cli_no_recursion : gmap string value :=
  <["include-filter" := VStrs ["artist:Mu:se"]]>
    (<["max-depth" := VStr "3"]> (<["no-recursion" := VBool true]> cli_up)).

Definition cli_no_recursion_prepared : gmap string value :=
  <["output" := VStr "/music"]>
    (<["input" := VStrs ["/music"]]> (<["max-depth" := VInt 0]> cli_no_recursion)).

#[global] Instance result_eq_dec {A} `{EqDecision A} : EqDecision (result A).
Proof. solve_decision. Defined.

(** The last song of a list that has the identity key [k]. *)
Definition last_with_key (k : value) (songs : list song) : option song :=
  last (filter (λ s, identity_key s = Ok k) songs).

(** ** Observations on traces for the remaining functions *)

Definition is_rmdir (c : call) : bool :=
  match c with Rmdir _ => true | _ => false end.

Definition is_log (c : call) : bool :=
  match c with Log _ _ => true | _ => false end.

(** Every [os.rmdir] of a trace comes right after a listing of the same
    directory that was empty and the message that announces the removal. *)
Definition rmdir_after_empty_listing (tr : list event) : Prop :=
  ∀ pre p r post, tr = pre ++ Ev (Rmdir p) r :: post →
    ∃ pre', pre = pre' ++ [Ev (Listdir p) (Ok []);
                           Ev (Print ("Removing empty folder: " +:+ p)) (Ok tt)].

(** A file system for the examples: the directories, each with what it
    lists. Removing a directory takes it out of the listing of its
    parent. *)
Definition respond_fs (c : call) (fs : gmap string (list string))
    : result (resp c) * gmap string (list string) :=
  match c as c' return result (resp c') * gmap string (list string) with
  | Isdir p => (Ok (bool_decide (is_Some (fs !! p))), fs)
  | Listdir p =>
      (match fs !! p with Some l => Ok l | None => Err (External "FileNotFoundError") end, fs)
  | Rmdir p =>
      (Ok tt,
       map_imap (λ parent l, Some (filter (λ f, path_join parent f ≠ p) l)) (delete p fs))
  | c' => ((respond_with (example_answers true ([], [], [])) c' tt).1, fs)
  end.

Definition example_fs : gmap string (list string) :=
  {[ "/music" := ["a"; "b"]; "/music/a" := []; "/music/b" := ["x.mp3"] ]}.

(** The calls that transfer a song, delete a file or write a playlist
    file. *)
Definition transfers_or_writes (c : call) : bool :=
  match c with
  | MmwDownload _ _ | MmwUpload _ _ _ | Remove _ | TempWrite _ _ => true
  | _ => false
  end.

(** [gmsync up --dry-run]. *)
Definition cli_up_dry_run : gmap string value := <["dry-run" := VBool true]> cli_up.

(** The requests made to [mmw.download] in a trace: the songs and the
    template. *)
Definition download_requests (tr : list event) : list (list song * value) :=
  omap (λ e, match event_call e with MmwDownload l t => Some (l, t) | _ => None end) tr.

(** A mobile-client song, a lookup that holds it under its id, and a
    command line that writes playlists to [/music]. *)
Definition example_songs_dict : gmap value song := {[ VStr "s1" := example_mobile_song ]}.

Definition cli_playlists_output : gmap string value :=
  <["output" := VStr "/music"]> cli_down_playlists.

(** The files a trace tried to delete with [os.remove], in order. *)
Definition removal_attempts (tr : list event) : list string :=
  omap (λ e, match event_call e with Remove p => Some p | _ => None end) tr.

(** [gmsync up --delete-on-success]. *)
Definition cli_up_delete : gmap string value := <["delete-on-success" := VBool true]> cli_up.

(** An environment in which every [os.remove] fails. *)
Definition respond_read_only (c : call) (w : unit) : result (resp c) * unit :=
  match c as c' return result (resp c') * unit with
  | Remove _ => (Err (External "PermissionError"), w)
  | c' => respond_with (example_answers true ([], [], [])) c' w
  end.

(** The stored credentials read in a trace, the user names typed in, the
    credentials written and the files opened for writing. *)
Definition credentials_loaded (tr : list event) : list (gmap string value) :=
  omap (λ e, match e with
             | Ev c r =>
                 match c return result (resp c) → option (gmap string value) with
                 | JsonLoadFile _ => λ r, match r with Ok d => Some d | Err _ => None end
                 | _ => λ _, None
                 end r
             end) tr.

Definition usernames_entered (tr : list event) : list string :=
  omap (λ e, match e with
             | Ev c r =>
                 match c return result (resp c) → option string with
                 | Input _ => λ r, match r with Ok u => Some u | Err _ => None end
                 | _ => λ _, None
                 end r
             end) tr.

Definition credentials_dumped (tr : list event) : list (string * gmap string value) :=
  omap (λ e, match event_call e with JsonDump p d => Some (p, d) | _ => None end) tr.

Definition opened_for_writing (tr : list event) : list string :=
  omap (λ e, match e with
             | Ev c r =>
                 match c return result (resp c) → option string with
                 | OpenWrite p => λ r, match r with Ok _ => Some p | Err _ => None end
                 | _ => λ _, None
                 end r
             end) tr.

(** The file of the mobile-client credentials for an oauth file name. *)
Definition creds_filepath (X : externals) (oauth_filename : string) : string :=
  path_join (dirname (OAUTH_FILEPATH X)) ("mc" +:+ oauth_filename +:+ ".cred").

(** An environment without a stored credentials file, in which the
    mobile client answers the device query all the same. *)
Definition respond_no_credentials (c : call) (w : unit) : result (resp c) * unit :=
  match c as c' return result (resp c') * unit with
  | JsonLoadFile _ => (Err (External "FileNotFoundError"), w)
  | c' => respond_with (example_answers true ([], [], [])) c' w
  end.

(** What the example environment has stored as credentials. *)
Definition example_credentials : gmap string value :=
  {[ "masterToken" := VStr "m"; "authToken" := VStr "a"; "androidId" := VStr "d" ]}.

(** The key line 182 makes of a name of docopt's dictionary:
    [key.lstrip("-<").rstrip(">")]. *)
Definition docopt_key (name : string) : string :=
  rstrip [">"%char] (lstrip ["-"%char; "<"%char] name).

(** ** The mobile client *)

Definition is_mcw_auth_query (c : call) : bool :=
  match c with McwIsAuthenticated => true | _ => false end.

(** Mobile-client authentication failed in a run: [mcw.is_authenticated]
    was read and was false. *)
Definition mobile_authentication_failed (tr : list event) : bool :=
  existsb (λ e, match e with
                | Ev c r =>
                    match c return result (resp c) → bool with
                    | McwIsAuthenticated =>
                        λ r, match r with Ok false => true | _ => false end
                    | _ => λ _, false
                    end r
                end) tr.

(** The calls that log the mobile client in or use it: its session and
    its library, the prompt for the user name and the credentials file. *)
Definition mobile_client_use (c : call) : bool :=
  match c with
  | McwLogin _ | McwIsAuthenticated | McwSetAttr _ _ | McwGetAttr _
  | McwGetRegisteredDevices | McwGetAllSongs | McwGetAllUserPlaylistContents
  | Input _ | JsonLoadFile _ | OpenWrite _ | JsonDump _ _ => true
  | _ => false
  end.

(** An environment in which the mobile client does not authenticate. *)
Definition answers_mobile_refused : answers := {|
  ans_docopt := docopt_items false true (VStr "playlists") VNone VNone VNone;
  ans_mmw_authenticated := true;
  ans_mcw_authenticated := false;
  ans_google_songs := ([], []);
  ans_local_songs := ([], [], []);
  ans_all_songs := [];
  ans_playlists := []
|}.

(** The file of an [os.remove] that raised. *)
Definition failed_removal (e : event) : option string :=
  match e with
  | Ev c r =>
      match c return result (resp c) → option string with
      | Remove p => λ r, match r with Err _ => Some p | Ok _ => None end
      | _ => λ _, None
      end r
  end.

(** Every [os.remove] of a trace that raised is followed at once by the
    warning of line 427 for the same file. *)
Fixpoint failed_removals_logged (tr : list event) : Prop :=
  match tr with
  | [] => True
  | e :: tr' =>
      match failed_removal e with
      | Some p =>
          ∃ next, head tr' = Some next
                  ∧ event_call next
                    = Log WARNING ("Failed to remove " +:+ p +:+ " after successful upload")
      | None => True
      end
      ∧ failed_removals_logged tr'
  end.

(** A trace that ends with a call to the logger that raised [e]. *)
Definition logging_failed (tr : list event) (e : exn) : Prop :=
  ∃ pre level msg, tr = pre ++ [Ev (Log level msg) (Err e)].

(** The requests made to [mmw.upload] in a trace: the files,
    [enable_matching] and [delete_on_success]. *)
Definition upload_requests (tr : list event) : list (list string * value * value) :=
  omap (λ e, match event_call e with MmwUpload l mt d => Some (l, mt, d) | _ => None end) tr.

(** The run of the reporting and uploading part under
    [--delete-on-success] with nothing to upload and two matched local
    songs, in an environment in which every [os.remove] fails. *)
Definition read_only_removal_run : result unit * unit * list event :=
  run respond_read_only (report_or_upload cli_up_delete [] [] [] ["a.mp3"; "b.mp3"]) tt.

(** The steps of a login in a trace: the prompt for the user name,
    [mcw.login] and the reads of the session's attributes. *)
Definition login_step (c : call) : bool :=
  match c with
  | Input _ | McwLogin _ | McwGetAttr _ => true
  | _ => false
  end.

Definition login_steps (tr : list event) : list event :=
  List.filter (λ e, login_step (event_call e)) tr.

(** An environment with stored credentials that the mobile client does
    not accept: the device query fails, and after a login each attribute
    of the session reads as a value of its own. *)
Definition respond_stale_credentials (c : call) (w : unit) : result (resp c) * unit :=
  match c as c' return result (resp c') * unit with
  | McwGetRegisteredDevices => (Err (External "NotLoggedIn"), w)
  | McwGetAttr attr => (Ok (VStr ("new " +:+ attr)), w)
  | c' => respond_with (example_answers true ([], [], [])) c' w
  end.

Definition fresh_credentials : gmap string value :=
  {[ "masterToken" := VStr "new api.session._master_token";
     "authToken" := VStr "new api.session._authtoken";
     "email" := VStr "user@example.com";
     "androidId" := VStr "new api.android_id" ]}.

(** ** Resolution of playlist entries *)

Section Resolution.
Context {K : Type} `{EqDecision K}.

Lemma first_occurrences_filter (P : K → Prop) `{∀ x, Decision (P x)} (l : list K) :
  first_occurrences (filter P l) = filter P (first_occurrences l).
Proof.
  induction l as [|x l IH]; [done|].
  rewrite filter_cons. destruct (decide (P x)) as [Hx|Hx]; simpl.
  - rewrite filter_cons, decide_True by done. f_equal.
    rewrite IH, !list_filter_filter. apply list_filter_iff. tauto.
  - rewrite filter_cons, decide_False by done. rewrite IH.
    rewrite list_filter_filter.
    apply list_filter_iff. intros y. split; [|tauto].
    intros Hy. split; [done|]. by intros ->.
Qed.

Lemma first_occurrences_elem (l : list K) (x : K) :
  x ∈ first_occurrences l ↔ x ∈ l.
Proof.
  induction l as [|y l IH]; [done|]. simpl.
  rewrite !elem_of_cons, list_elem_of_filter, IH.
  destruct (decide (x = y)); tauto.
Qed.

Lemma first_occurrences_NoDup (l : list K) : NoDup (first_occurrences l).
Proof.
  induction l as [|y l IH]; simpl; constructor.
  - rewrite list_elem_of_filter. tauto.
  - by apply NoDup_filter.
Qed.
End Resolution.

Lemma bind_Ok {A B} (r : result A) (f : A → result B) (b : B) :
  r ≫= f = Ok b ↔ ∃ a, r = Ok a ∧ f a = Ok b.
Proof.
  destruct r as [a|e]; simpl; split.
  - intros Hf. by exists a.
  - by intros (? & [= <-] & ?).
  - done.
  - by intros (? & ? & ?).
Qed.

Lemma mapM_cons_Ok {A B} (f : A → result B) x l bs :
  mapM f (x :: l) = Ok bs ↔ ∃ b bs', f x = Ok b ∧ mapM f l = Ok bs' ∧ bs = b :: bs'.
Proof.
  change (mapM f (x :: l)) with (f x ≫= λ y, mapM f l ≫= λ k, mret (y :: k)).
  rewrite bind_Ok. split.
  - intros (b & Hb & Hl). apply bind_Ok in Hl as (bs' & Hl & [= <-]). by exists b, bs'.
  - intros (b & bs' & Hb & Hl & ->). exists b. split; [done|].
    apply bind_Ok. by exists bs'.
Qed.

Lemma identity_key_cons_inv s songs keys :
  mapM identity_key (s :: songs) = Ok keys →
  ∃ id k keys', songid s = Ok id ∧ hashkey id = Ok k ∧
                mapM identity_key songs = Ok keys' ∧ keys = k :: keys'.
Proof.
  rewrite mapM_cons_Ok. intros (k & keys' & Hk & Hl & ->).
  apply bind_Ok in Hk as (id & Hid & Hh). by exists id, k, keys'.
Qed.

(** With every key in the lookup the loop appends, in order, the lookup's
    value at the first occurrence of each key not seen before. *)
Lemma get_mmw_tracks_loop_resolved d songs : ∀ keys tracks seen,
  mapM identity_key songs = Ok keys →
  Forall (λ k, is_Some (d !! k)) keys →
  ∃ ts, get_mmw_tracks_loop d songs tracks seen = Ok (tracks ++ ts) ∧
        Forall2 (λ k t, d !! k = Some t)
                (first_occurrences (filter (λ k, seen !! k = None) keys)) ts.
Proof.
  induction songs as [|s songs IH]; intros keys tracks seen Hk Hd.
  - injection Hk as <-. exists []. by rewrite app_nil_r.
  - apply identity_key_cons_inv in Hk as (id & k & keys' & Hid & Hh & Hk & ->).
    apply Forall_cons in Hd as [[t Ht] Hd]. simpl. rewrite Hid. simpl. rewrite Hh. simpl.
    rewrite filter_cons. destruct (decide (is_Some (seen !! k))) as [Hs|Hs].
    + rewrite decide_False by (intros Hn; rewrite Hn in Hs; by destruct Hs).
      by apply IH.
    + rewrite decide_True by by apply eq_None_not_Some.
      rewrite Ht. destruct (IH keys' (tracks ++ [t]) (<[k:=true]> seen) Hk Hd) as (ts & -> & Hts).
      exists (t :: ts). split; [by rewrite <- app_assoc|].
      simpl. constructor; [done|]. rewrite <- first_occurrences_filter, list_filter_filter.
      erewrite list_filter_iff; [exact Hts|]. intros y. simpl.
      rewrite lookup_insert. case_decide; [subst|]; intuition congruence.
Qed.

(** A key missing from the lookup stops the loop with [KeyError]. *)
Lemma get_mmw_tracks_loop_unresolved d songs : ∀ keys tracks seen k,
  mapM identity_key songs = Ok keys →
  k ∈ keys → seen !! k = None → d !! k = None →
  ∃ id k', get_mmw_tracks_loop d songs tracks seen = Err (KeyError id) ∧
           hashkey id = Ok k' ∧ k' ∈ keys ∧ d !! k' = None.
Proof.
  induction songs as [|s songs IH]; intros keys tracks seen k Hk Hin Hs Hd.
  - injection Hk as <-. by apply elem_of_nil in Hin.
  - apply identity_key_cons_inv in Hk as (id & k0 & keys' & Hid & Hh & Hk & ->).
    simpl. rewrite Hid. simpl. rewrite Hh. simpl.
    destruct (decide (is_Some (seen !! k0))) as [Hs0|Hs0].
    + assert (k ≠ k0) by (intros ->; rewrite Hs in Hs0; by destruct Hs0).
      apply elem_of_cons in Hin as [?|Hin]; [done|].
      destruct (IH keys' tracks seen k Hk Hin Hs Hd) as (id' & k' & -> & ? & ? & ?).
      exists id', k'. repeat split; try done. by right.
    + destruct (d !! k0) as [t|] eqn:Hd0.
      * assert (k ≠ k0) by (intros ->; congruence).
        apply elem_of_cons in Hin as [?|Hin]; [done|].
        destruct (IH keys' (tracks ++ [t]) (<[k0:=true]> seen) k Hk Hin) as (id' & k' & -> & ? & ? & ?);
          [by rewrite lookup_insert_ne|done|].
        exists id', k'. repeat split; try done. by right.
      * exists id, k0. repeat split; try done. by left.
Qed.

(** The lookup built by [reduce(songs_to_dict, ..., {})] stores each track
    under its own identity key. *)
Lemma songs_to_dict_keys mm : ∀ d0 d,
  reduce songs_to_dict mm d0 = Ok d →
  (∀ k t, d0 !! k = Some t → identity_key t = Ok k) →
  ∀ k t, d !! k = Some t → identity_key t = Ok k.
Proof.
  induction mm as [|m mm IH]; intros d0 d Hr H0 k t Hl.
  - injection Hr as <-. by apply H0.
  - simpl in Hr. apply bind_Ok in Hr as (d1 & Hs & Hr).
    apply bind_Ok in Hs as (id & Hid & Hs). apply bind_Ok in Hs as (k0 & Hh & [= <-]).
    apply (IH _ _ Hr); [|done]. intros k' t'. rewrite lookup_insert.
    case_decide as Hk.
    + intros [= <-]. subst k'. unfold identity_key. rewrite Hid. simpl. by rewrite Hh.
    + apply H0.
Qed.

Lemma identity_key_resolved (d : gmap value song) keys ts :
  (∀ k t, d !! k = Some t → identity_key t = Ok k) →
  Forall2 (λ k t, d !! k = Some t) keys ts →
  mapM identity_key ts = Ok keys.
Proof.
  intros Hd. induction 1 as [|k t keys ts Hkt _ IH]; [done|].
  simpl. rewrite (Hd _ _ Hkt). simpl. by rewrite IH.
Qed.

Lemma filter_unseen_empty (keys : list value) :
  filter (λ k : value, (∅ : gmap value bool) !! k = None) keys = keys.
Proof.
  induction keys as [|k keys IH]; [done|].
  rewrite filter_cons_True by apply lookup_empty. by rewrite IH.
Qed.

(** ** Claims about resolution and the identity key *)

(** C1, as the specification states it, fails: an entry whose key is
    not in the lookup is not skipped; the resolution raises [KeyError]. *)
Lemma get_mmw_tracks_unresolved_raises :
  get_mmw_tracks example_tracks_dict [entry "A"; entry "Z"; entry "C"]
    = Err (KeyError (VStr "Z"))
  ∧ ¬ ∃ tracks, get_mmw_tracks example_tracks_dict [entry "A"; entry "Z"; entry "C"]
                  = Ok tracks.
Proof.
  assert (get_mmw_tracks example_tracks_dict [entry "A"; entry "Z"; entry "C"]
            = Err (KeyError (VStr "Z"))) as H by (vm_compute; reflexivity).
  split; [exact H|]. intros [tracks Ht]. rewrite H in Ht. discriminate.
Qed.

(** C1 (amended): the resolution of a track list completes without error
    when every entry's identity key is in the lookup, and then returns one
    track per distinct key; when the key of some entry is not in the
    lookup it raises [KeyError] for an entry whose key is missing, and
    returns no list. *)
Theorem get_mmw_tracks_resolution (d : gmap value song) songs keys :
  mapM identity_key songs = Ok keys →
  (Forall (λ k, is_Some (d !! k)) keys →
     ∃ tracks, get_mmw_tracks d songs = Ok tracks
               ∧ length tracks = length (first_occurrences keys))
  ∧ (Exists (λ k, d !! k = None) keys →
     ∃ id k, get_mmw_tracks d songs = Err (KeyError id)
             ∧ hashkey id = Ok k ∧ k ∈ keys ∧ d !! k = None).
Proof.
  intros Hk. split.
  - intros Hd.
    destruct (get_mmw_tracks_loop_resolved d songs keys [] ∅ Hk Hd) as (ts & Hts & Hf).
    exists ts. split; [exact Hts|].
    apply Forall2_length in Hf. by rewrite <- Hf, filter_unseen_empty.
  - intros (k & Hin & Hnone)%Exists_exists.
    apply (get_mmw_tracks_loop_unresolved d songs keys [] ∅ k Hk Hin);
      [apply lookup_empty|exact Hnone].
Qed.

Lemma get_mmw_tracks_resolution_witness :
  (∃ tracks, get_mmw_tracks example_tracks_dict [entry "A"; entry "B"; entry "A"; entry "C"]
               = Ok tracks ∧ length tracks = 3%nat)
  ∧ (∃ id k, get_mmw_tracks example_tracks_dict [entry "A"; entry "Z"; entry "C"]
               = Err (KeyError id)
             ∧ hashkey id = Ok k ∧ k ∈ [VStr "A"; VStr "Z"; VStr "C"]
             ∧ example_tracks_dict !! k = None).
Proof.
  split.
  - apply (get_mmw_tracks_resolution example_tracks_dict
             [entry "A"; entry "B"; entry "A"; entry "C"]
             [VStr "A"; VStr "B"; VStr "A"; VStr "C"]); [reflexivity|].
    repeat constructor; vm_compute; eauto.
  - apply (get_mmw_tracks_resolution example_tracks_dict
             [entry "A"; entry "Z"; entry "C"] [VStr "A"; VStr "Z"; VStr "C"]);
      [reflexivity|].
    apply Exists_cons_tl, Exists_cons_hd. vm_compute. reflexivity.
Defined.

(** C5, as the specification states it, fails: not every ordered track
    list gives a list of tracks. For entries keyed [A, Z, A, C], where [Z]
    is not in the lookup, the resolution raises [KeyError] at the second
    entry and returns nothing at all, the tracks of [A] and [C]
    included. *)
Lemma get_mmw_tracks_duplicates_unresolved_raises :
  get_mmw_tracks example_tracks_dict [entry "A"; entry "Z"; entry "A"; entry "C"]
    = Err (KeyError (VStr "Z"))
  ∧ ¬ ∃ tracks,
        get_mmw_tracks example_tracks_dict [entry "A"; entry "Z"; entry "A"; entry "C"]
          = Ok tracks.
Proof.
  assert (get_mmw_tracks example_tracks_dict [entry "A"; entry "Z"; entry "A"; entry "C"]
            = Err (KeyError (VStr "Z"))) as H by (vm_compute; reflexivity).
  split; [exact H|]. intros [tracks Ht]. rewrite H in Ht. discriminate.
Qed.

(** C5 (amended): for a track list whose entries all have an identity
    key that is in the lookup, [get_mmw_tracks] returns the lookup's
    track for the first occurrence of each identity key, in input order,
    later occurrences of a key being dropped; with the lookup built by
    [songs_to_dict] the returned tracks carry exactly those keys. Entries
    keyed [A, B, A, C] give tracks keyed [A, B, C]. *)
Theorem get_mmw_tracks_first_occurrences (d : gmap value song) songs keys :
  mapM identity_key songs = Ok keys →
  Forall (λ k, is_Some (d !! k)) keys →
  ∃ tracks,
    get_mmw_tracks d songs = Ok tracks
    ∧ Forall2 (λ k t, d !! k = Some t) (first_occurrences keys) tracks
    ∧ (∀ mm, reduce songs_to_dict mm ∅ = Ok d →
             mapM identity_key tracks = Ok (first_occurrences keys)).
Proof.
  intros Hk Hd.
  destruct (get_mmw_tracks_loop_resolved d songs keys [] ∅ Hk Hd) as (ts & Hts & Hf).
  rewrite filter_unseen_empty in Hf. exists ts. split; [exact Hts|]. split; [exact Hf|].
  intros mm Hmm. apply (identity_key_resolved d); [|exact Hf].
  apply (songs_to_dict_keys mm ∅ d Hmm). intros k t. by rewrite lookup_empty.
Qed.

Lemma get_mmw_tracks_first_occurrences_witness :
  ∃ tracks,
    get_mmw_tracks example_tracks_dict [entry "A"; entry "B"; entry "A"; entry "C"]
      = Ok tracks
    ∧ Forall2 (λ k t, example_tracks_dict !! k = Some t)
              (first_occurrences [VStr "A"; VStr "B"; VStr "A"; VStr "C"]) tracks
    ∧ (∀ mm, reduce songs_to_dict mm ∅ = Ok example_tracks_dict →
             mapM identity_key tracks
               = Ok (first_occurrences [VStr "A"; VStr "B"; VStr "A"; VStr "C"])).
Proof.
  apply (get_mmw_tracks_first_occurrences example_tracks_dict
           [entry "A"; entry "B"; entry "A"; entry "C"]
           [VStr "A"; VStr "B"; VStr "A"; VStr "C"]); [reflexivity|].
  repeat constructor; vm_compute; eauto.
Defined.

Example first_occurrences_ABAC :
  first_occurrences [VStr "A"; VStr "B"; VStr "A"; VStr "C"] = [VStr "A"; VStr "B"; VStr "C"].
Proof. reflexivity. Qed.

Example get_mmw_tracks_ABAC :
  get_mmw_tracks example_tracks_dict [entry "A"; entry "B"; entry "A"; entry "C"]
    = Ok [mm_track "A" "a"; mm_track "B" "b"; mm_track "C" "c"].
Proof. vm_compute. reflexivity. Qed.

(** ** Sorting *)

Section SortFacts.
Context {A K : Type} (less : K → K → result bool).

Lemma insert_keyed_perm (x : K * A) l : insert_keyed less x l ≡ₚ x :: l.
Proof.
  induction l as [|y l IH]; simpl; [done|].
  destruct (lessb less y.1 x.1); [|done].
  rewrite IH. apply Permutation_swap.
Qed.

Lemma sort_keyed_perm (l : list (K * A)) : sort_keyed less l ≡ₚ l.
Proof.
  induction l as [|x l IH]; simpl; [done|].
  unfold sort_keyed in IH. by rewrite insert_keyed_perm, IH.
Qed.

Hypothesis less_asym : ∀ a b, lessb less a b = true → lessb less b a = false.

Lemma insert_keyed_hd (x y : K * A) l :
  lessb less y.1 x.1 = true → HdRel (keys_ascend less) y l →
  HdRel (keys_ascend less) y (insert_keyed less x l).
Proof.
  intros Hyx Hl. destruct l as [|z l]; simpl.
  - constructor. by apply less_asym.
  - destruct (lessb less z.1 x.1).
    + constructor. by inversion Hl.
    + constructor. by apply less_asym.
Qed.

Lemma insert_keyed_sorted (x : K * A) l :
  Sorted (keys_ascend less) l → Sorted (keys_ascend less) (insert_keyed less x l).
Proof.
  induction 1 as [|y l Hl IH Hy]; simpl.
  - by repeat constructor.
  - destruct (lessb less y.1 x.1) eqn:Hyx.
    + constructor; [exact IH|]. by apply insert_keyed_hd.
    + constructor; [by constructor|]. by constructor.
Qed.

Lemma sort_keyed_sorted (l : list (K * A)) : Sorted (keys_ascend less) (sort_keyed less l).
Proof.
  induction l as [|x l IH]; simpl; [constructor|]. by apply insert_keyed_sorted.
Qed.

Lemma mapM_zip_keys (key : A → result K) l : ∀ ks,
  mapM key l = Ok ks →
  length ks = length l ∧ Forall (λ x : K * A, key x.2 = Ok x.1) (zip ks l).
Proof.
  induction l as [|a l IH]; intros ks Hks.
  - injection Hks as <-. by split.
  - apply mapM_cons_Ok in Hks as (k & ks' & Hk & Hl & ->).
    destruct (IH _ Hl) as [Hlen Hall]. split; [simpl; by rewrite Hlen|].
    by constructor.
Qed.

Lemma list_sort_inv (key : A → result K) l l' :
  list_sort less key l = Ok l' →
  ∃ ks, mapM key l = Ok ks ∧ pairwise_comparable less ks = true
        ∧ l' = (sort_keyed less (zip ks l)).*2.
Proof.
  unfold list_sort. intros (ks & Hks & Hs)%bind_Ok. exists ks.
  destruct (pairwise_comparable less ks); [|done]. by injection Hs as <-.
Qed.

Lemma list_sort_perm (key : A → result K) l l' :
  list_sort less key l = Ok l' → l' ≡ₚ l.
Proof.
  intros (ks & Hks & _ & ->)%list_sort_inv.
  rewrite sort_keyed_perm. apply mapM_zip_keys in Hks as [Hlen _].
  rewrite snd_zip; [done|]. by rewrite Hlen.
Qed.

Lemma list_sort_sorted (key : A → result K) l l' :
  list_sort less key l = Ok l' → Sorted (ascending_by less key) l'.
Proof.
  intros (ks & Hks & _ & ->)%list_sort_inv.
  apply mapM_zip_keys in Hks as [_ Hall].
  assert (Forall (λ x : K * A, key x.2 = Ok x.1) (sort_keyed less (zip ks l))) as Hs
    by by rewrite sort_keyed_perm.
  pose proof (sort_keyed_sorted (zip ks l)) as Hsorted.
  induction Hsorted as [|x s Hsorted IH Hhd]; [constructor|].
  apply Forall_cons in Hs as [Hx Hs]. simpl. constructor; [by apply IH|].
  destruct Hhd as [|y s Hxy]; simpl; constructor.
  apply Forall_cons in Hs as [Hy _]. by exists x.1, y.1.
Qed.

Lemma list_sort_Ok (key : A → result K) l ks :
  mapM key l = Ok ks → pairwise_comparable less ks = true →
  list_sort less key l = Ok (sort_keyed less (zip ks l)).*2.
Proof. intros Hks Hc. unfold list_sort. rewrite Hks. simpl. by rewrite Hc. Qed.
End SortFacts.

(** ** Runs and their traces *)

Lemma wp_mono {A} (p : prog A) (Q Q' : result A → list event → Prop) :
  (∀ out tr, Q out tr → Q' out tr) → wp p Q → wp p Q'.
Proof.
  revert Q Q'. induction p as [a|e|c k IH]; intros Q Q' HQ; simpl; [by auto..|].
  intros Hk r. apply (IH r _ _ (λ out tr, HQ out (Ev c r :: tr))), Hk.
Qed.

Lemma wp_bind {A B} (p : prog A) (f : A → prog B) (Q : result B → list event → Prop) :
  wp p (λ out tr,
        match out with
        | Ok a => wp (f a) (λ out' tr', Q out' (tr ++ tr'))
        | Err e => Q (Err e) tr
        end) →
  wp (p ≫= f) Q.
Proof.
  revert Q. induction p as [a|e|c k IH]; intros Q; simpl.
  - intros H. eapply wp_mono; [|exact H]. done.
  - done.
  - intros Hk r. apply (IH r), Hk.
Qed.

Lemma wp_lift {A} (r : result A) (Q : result A → list event → Prop) :
  Q r [] → wp (lift r) Q.
Proof. by destruct r. Qed.

Lemma wp_perform (c : call) (Q : result (resp c) → list event → Prop) :
  (∀ r, Q r [Ev c r]) → wp (perform c) Q.
Proof. intros H r. apply wp_lift, H. Qed.

(** A postcondition of the whole program follows from one of each call:
    first the expression or call, then the rest. *)
Lemma wp_lift_bind {A B} (r : result A) (f : A → prog B) Q :
  match r with Ok a => wp (f a) Q | Err e => Q (Err e) [] end →
  wp (lift r ≫= f) Q.
Proof. by destruct r. Qed.

Lemma wp_perform_bind {B} (c : call) (f : resp c → prog B) Q :
  (∀ r, match r with
        | Ok a => wp (f a) (λ out tr, Q out (Ev c r :: tr))
        | Err e => Q (Err e) [Ev c r]
        end) →
  wp (perform c ≫= f) Q.
Proof. intros H r. specialize (H r). by destruct r. Qed.

Lemma wp_for_each {A} (l : list A) (body : A → prog unit)
    (I : list A → list event → Prop) (Q : result unit → list event → Prop) :
  I [] [] →
  (∀ done x rest tr, l = done ++ x :: rest → I done tr →
     wp (body x) (λ out tr',
                  match out with
                  | Ok _ => I (done ++ [x]) (tr ++ tr')
                  | Err e => Q (Err e) (tr ++ tr')
                  end)) →
  (∀ tr, I l tr → Q (Ok tt) tr) →
  wp (for_each l body) Q.
Proof.
  intros H0 Hstep Hend.
  enough (∀ rest done tr, I done tr → l = done ++ rest →
            wp (for_each rest body) (λ out tr', Q out (tr ++ tr'))) as H
    by exact (H l [] [] H0 eq_refl).
  induction rest as [|x rest IH]; intros done tr HI Hl; simpl.
  - rewrite app_nil_r in *. subst. by apply Hend.
  - apply wp_bind. eapply wp_mono; [|apply (Hstep done x rest tr Hl HI)].
    intros [[]|e] tr' H; simpl; [|done].
    eapply wp_mono; [|apply (IH (done ++ [x]) (tr ++ tr') H)].
    + intros out tr''. by rewrite app_assoc.
    + by rewrite <- app_assoc.
Qed.

Lemma wp_try_except {A} (p : prog A) (h : exn → prog A) Q :
  wp p (λ out tr,
        match out with
        | Ok a => Q (Ok a) tr
        | Err e => wp (h e) (λ out' tr', Q out' (tr ++ tr'))
        end) →
  wp (try_except p h) Q.
Proof.
  revert Q. induction p as [a|e|c k IH]; intros Q; simpl.
  - done.
  - intros H. eapply wp_mono; [|exact H]. done.
  - intros Hk r. apply (IH r), Hk.
Qed.

(** [wp] speaks about every run in every environment. *)
Lemma wp_run {A} (p : prog A) Q {W} (respond : ∀ c : call, W → result (resp c) * W) w :
  wp p Q → Q (run respond p w).1.1 (run respond p w).2.
Proof.
  revert Q w. induction p as [a|e|c k IH]; intros Q w; simpl; [done..|].
  intros Hk. destruct (respond c w) as [r w'].
  specialize (IH r _ w' (Hk r)).
  by destruct (run respond (k r) w') as [[out w''] tr].
Qed.

Lemma never_intro (P : call → bool) {A} (p : prog A) Q :
  wp p Q → (∀ out tr, Q out tr → Forall (λ e, P (event_call e) = false) tr) → never P p.
Proof. intros Hp HQ. eapply wp_mono; [exact HQ|exact Hp]. Qed.

Lemma never_bind (P : call → bool) {A B} (p : prog A) (f : A → prog B) :
  never P p → (∀ a, never P (f a)) → never P (p ≫= f).
Proof.
  intros Hp Hf. apply wp_bind. eapply wp_mono; [|exact Hp].
  intros [a|e] tr Htr; simpl; [|done].
  eapply wp_mono; [|apply Hf]. intros out tr' Htr'. by apply Forall_app.
Qed.

Lemma never_lift (P : call → bool) {A} (r : result A) : never P (lift r).
Proof. by apply wp_lift. Qed.

Lemma never_ret (P : call → bool) {A} (a : A) : never P (mret a : prog A).
Proof. by constructor. Qed.

Lemma never_raise (P : call → bool) {A} (e : exn) : never P (Raise e : prog A).
Proof. by constructor. Qed.

Lemma never_perform (P : call → bool) (c : call) : P c = false → never P (perform c).
Proof. intros Hc. apply wp_perform. intros r. by repeat constructor. Qed.

Lemma never_for_each (P : call → bool) {A} (l : list A) (body : A → prog unit) :
  (∀ x, never P (body x)) → never P (for_each l body).
Proof.
  intros Hb. induction l as [|x l IH]; simpl; [by constructor|].
  apply never_bind; [apply Hb|]. by intros [].
Qed.

Lemma never_try_except (P : call → bool) {A} (p : prog A) (h : exn → prog A) :
  never P p → (∀ e, never P (h e)) → never P (try_except p h).
Proof.
  intros Hp Hh. apply wp_try_except. eapply wp_mono; [|exact Hp].
  intros [a|e] tr Htr; simpl; [done|].
  eapply wp_mono; [|apply Hh]. intros out tr' Htr'. by apply Forall_app.
Qed.

Lemma never_fmap (P : call → bool) {A B} (g : A → B) (p : prog A) :
  never P p → never P (g <$> p).
Proof. intros Hp. apply never_bind; [done|]. intros a. by constructor. Qed.

(** Goals [never P p] for the programs of the script. *)
Ltac never_step :=
  first
    [ apply never_ret | apply never_raise | apply never_lift
    | lazymatch goal with
      | |- never ?P (perform ?c) => exact (never_perform P c eq_refl)
      end
    | apply never_bind; [|intros ?]
    | apply never_for_each; intros ?
    | apply never_try_except; [|intros ?]
    | apply never_fmap
    | match goal with
      | |- never _ (if ?b then _ else _) => destruct b
      | |- never _ (match ?x with _ => _ end) => destruct x
      | |- never _ (let '_ := ?x in _) => destruct x
      end ].

Ltac never_solve := repeat never_step.

(** ** The blocks of [main] and the authentication query *)

Lemma never_removeEmptyFolders (P : call → bool) depth : ∀ path removeRoot,
  (∀ p, P (Isdir p) = false) → (∀ p, P (Listdir p) = false) →
  (∀ p, P (Rmdir p) = false) → (∀ m, P (Print m) = false) →
  never P (removeEmptyFolders depth path removeRoot).
Proof.
  induction depth as [|depth IH]; intros path removeRoot H1 H2 H3 H4;
    cbn [removeEmptyFolders].
  - apply never_raise.
  - apply never_bind; [by apply never_perform|]. intros d.
    destruct d; cbn [negb]; [|apply never_ret].
    apply never_bind; [by apply never_perform|]. intros files.
    apply never_bind.
    { apply never_for_each. intros f. apply never_bind; [by apply never_perform|].
      intros []; [by apply IH|apply never_ret]. }
    intros _. apply never_bind; [by apply never_perform|]. intros files'.
    destruct (_ && _); [|apply never_ret].
    apply never_bind; [by apply never_perform|]. intros _. by apply never_perform.
Qed.

Section Blocks.
Context (X : externals).

Lemma never_auth_login_mobile_client_from_cache v :
  never is_mmw_auth_query (login_mobile_client_from_cache X v).
Proof.
  unfold login_mobile_client_from_cache, use_stored_credentials, login_mobile_client.
  never_solve.
Qed.

Lemma never_auth_download_missing_google_songs cli songs :
  never is_mmw_auth_query (download_missing_google_songs X cli songs).
Proof. unfold download_missing_google_songs, download_songs. never_solve. Qed.

Lemma never_auth_create_playlist_file cli sd name songs outpath :
  never is_mmw_auth_query (create_playlist_file X cli sd name songs outpath).
Proof. unfold create_playlist_file. never_solve. Qed.

Lemma never_auth_sync_down cli inc exc : never is_mmw_auth_query (sync_down X cli inc exc).
Proof.
  unfold sync_down, move_removed_songs, sync_playlists.
  repeat first
    [ apply never_auth_download_missing_google_songs
    | apply never_auth_create_playlist_file
    | by apply never_removeEmptyFolders
    | never_step ].
Qed.

Lemma never_auth_sync_up cli inc exc : never is_mmw_auth_query (sync_up X cli inc exc).
Proof. unfold sync_up, report_or_upload, log_each. never_solve. Qed.

Lemma only_set_level_prepare cli : never (λ c, negb (is_set_level c)) (prepare X cli).
Proof. unfold prepare. never_solve. Qed.
End Blocks.

(** ** Claims about [main] *)

Lemma load_global_pp : load_global "pp" = Raise (NameError "pp").
Proof. vm_compute. reflexivity. Qed.

(** C4: for every invocation whose arguments docopt accepts, [main]
    raises [NameError] for the name [pp] right after the command line is
    parsed: the call to docopt is the only call of the run, so nothing is
    authenticated, fetched or reconciled. *)
Theorem main_raises_NameError (X : externals) {W : Type}
    (respond : ∀ c : call, W → result (resp c) * W) (w w' : W) items :
  respond Docopt w = (Ok items, w') →
  run respond (main X) w = (Err (NameError "pp"), w', [Ev Docopt (Ok items)]).
Proof.
  intros Hd.
  change (run respond (main X) w) with
    (let '(r, w1) := respond Docopt w in
     let '(out, w2, tr) :=
       run respond
         (lift r ≫= λ items,
            load_global "pp" ≫= λ _,
              perform (PPrint (cli_of_docopt items)) ≫= λ _,
                main_body X (cli_of_docopt items)) w1 in
     (out, w2, Ev Docopt r :: tr)).
  rewrite Hd. cbn [lift mbind prog_bind pbind]. rewrite load_global_pp. reflexivity.
Qed.

Lemma main_raises_NameError_witness :
  run (respond_with (example_answers true (["b.mp3"; "a.mp3"], [], [])))
      (main example_externals) tt
  = (Err (NameError "pp"), tt, [Ev Docopt (Ok (docopt_items true false VNone VNone VNone VNone))]).
Proof.
  apply (main_raises_NameError example_externals
           (respond_with (example_answers true (["b.mp3"; "a.mp3"], [], []))) tt tt
           (docopt_items true false VNone VNone VNone VNone)).
  reflexivity.
Defined.

Lemma authentication_failed_app tr1 tr2 :
  authentication_failed (tr1 ++ tr2)
  = authentication_failed tr1 || authentication_failed tr2.
Proof. apply existsb_app. Qed.

Lemma authentication_failed_never tr :
  Forall (λ e, is_mmw_auth_query (event_call e) = false) tr →
  authentication_failed tr = false.
Proof.
  induction 1 as [|[c r] tr Hc _ IH]; [done|].
  simpl in *. rewrite IH. by destruct c.
Qed.

Lemma authentication_failed_only_set_level tr :
  Forall (λ e, negb (is_set_level (event_call e)) = false) tr →
  authentication_failed tr = false ∧ no_reconciliation tr.
Proof.
  induction 1 as [|[c r] tr Hc _ [IH1 IH2]]; [by split; [|constructor]|].
  split.
  - simpl in *. rewrite IH1. by destruct c.
  - constructor; [|done]. by destruct c.
Qed.

(** Once authentication can no longer fail, nothing is claimed. *)
Lemma wp_after_authentication {A} (p : prog A) pre (Q : result A → list event → Prop) :
  authentication_failed pre = false →
  never is_mmw_auth_query p →
  wp p (λ out tr, authentication_failed (pre ++ tr) = true → Q out tr).
Proof.
  intros Hpre Hp. eapply wp_mono; [|exact Hp].
  intros out tr Htr%authentication_failed_never.
  by rewrite authentication_failed_app, Hpre, Htr.
Qed.

Section Authentication.
Context (X : externals).

Lemma wp_authenticate cli :
  wp (authenticate X cli) (λ out tr,
    authentication_failed tr = true →
    out = Err (SystemExit None) ∧ no_reconciliation tr).
Proof.
  unfold authenticate.
  apply wp_lift_bind. destruct (getitem cli "log") as [log|]; [|done].
  apply wp_perform_bind. intros [[]|]; [|done].
  apply wp_lift_bind. destruct (getitem cli "cred") as [cred|]; [|done].
  apply wp_lift_bind. destruct (getitem cli "uploader-id") as [uploader_id|]; [|done].
  apply wp_perform_bind. intros [[]|]; [|done].
  apply wp_perform_bind. intros [[|]|]; [| |done].
  - (* authenticated *)
    cbn [negb].
    eapply wp_mono;
      [|apply (wp_after_authentication _
                 [Ev (MmwNew log) (Ok tt); Ev (MmwLogin cred uploader_id) (Ok tt);
                  Ev MmwIsAuthenticated (Ok true)]
                 (λ _ _, False)); [done|]].
    + intros out tr H Hf. destruct (H Hf).
    + repeat first [apply never_auth_login_mobile_client_from_cache | never_step].
  - (* not authenticated *)
    cbn [negb]. intros _. split; [done|]. by repeat constructor.
Qed.

Lemma wp_main_body_authentication cli :
  wp (main_body X cli) (λ out tr,
    authentication_failed tr = true →
    out = Err (SystemExit None) ∧ no_reconciliation tr).
Proof.
  unfold main_body. apply wp_bind.
  eapply wp_mono; [|apply only_set_level_prepare].
  intros [[[cli' inc] exc]|e] tr [Hna Hnr]%authentication_failed_only_set_level.
  2: { by rewrite Hna. }
  apply wp_bind. eapply wp_mono; [|apply wp_authenticate].
  intros [[]|e] tr' Hauth.
  - assert (authentication_failed (tr ++ tr') = false) as Hpre.
    { rewrite authentication_failed_app, Hna. simpl.
      destruct (authentication_failed tr'); [by destruct (Hauth eq_refl)|done]. }
    eapply wp_mono;
      [|apply (wp_after_authentication _ (tr ++ tr') (λ _ _, False) Hpre)].
    + intros out tr'' H Hf. simpl in H. rewrite <- app_assoc in H. destruct (H Hf).
    + repeat first [apply never_auth_sync_down | apply never_auth_sync_up | never_step].
  - rewrite authentication_failed_app, Hna. simpl. intros Hf.
    destruct (Hauth Hf) as [-> Hnr']. split; [done|]. by apply Forall_app.
Qed.
End Authentication.

(** C2, as the specification states it, fails: when music-manager
    authentication fails the script leaves through [sys.exit()] without
    an argument, and the exit status is zero. *)
Lemma authentication_failure_exit_status_zero :
  let r := run (respond_with (example_answers false ([], [], [])))
               (main_body example_externals cli_up) tt in
  authentication_failed r.2 = true ∧ ¬ (exit_status r.1.1 ≠ 0).
Proof. vm_compute. split; [reflexivity|]. intros H. by apply H. Qed.

(** C2 (amended): in every run of [main] from line 186 on in which
    music-manager authentication fails, the script terminates by
    [sys.exit()] before any collection is fetched or acted on, and the
    exit status of the process is zero. *)
Theorem authentication_failure_exits (X : externals) cli {W : Type}
    (respond : ∀ c : call, W → result (resp c) * W) (w w' : W) out tr :
  run respond (main_body X cli) w = (out, w', tr) →
  authentication_failed tr = true →
  out = Err (SystemExit None) ∧ exit_status out = 0 ∧ no_reconciliation tr.
Proof.
  intros Hrun Hf.
  pose proof (wp_run _ _ respond w (wp_main_body_authentication X cli)) as H.
  rewrite Hrun in H. simpl in H. destruct (H Hf) as [-> Hnr]. by repeat split.
Qed.

Lemma authentication_failure_exits_witness :
  Err (SystemExit None) = Err (SystemExit None) :> result unit
  ∧ exit_status (Err (SystemExit None) : result unit) = 0
  ∧ no_reconciliation
      [Ev (SetLevel 20) (Ok tt); Ev (MmwNew (VBool false)) (Ok tt);
       Ev (MmwLogin (VStr "oauth") VNone) (Ok tt); Ev MmwIsAuthenticated (Ok false)].
Proof.
  apply (authentication_failure_exits example_externals cli_up
           (respond_with (example_answers false ([], [], []))) tt tt).
  - vm_compute. reflexivity.
  - reflexivity.
Defined.

(** ** Favorites *)

Lemma rated_above_3_filter all_songs :
  Forall (λ t, ∃ r, getitem t "rating" ≫= int = Ok r) all_songs →
  rated_above_3 all_songs = Ok (List.filter rating_above_3 all_songs).
Proof.
  induction 1 as [|t rest [r Hr] _ IH]; [done|].
  cbn [rated_above_3 List.filter]. unfold rating_above_3 at 1. rewrite Hr.
  apply bind_Ok in Hr as (rating & -> & Hr). cbn. rewrite Hr. cbn.
  rewrite IH. cbn. by destruct (3 <? r).
Qed.

Lemma favorites_keys selected :
  Forall (λ t, ∃ ts, int (get t "lastModifiedTimestamp") = Ok ts) selected →
  mapM favorites_key selected = Ok ((λ t, last_modified t * -1) <$> selected).
Proof.
  induction 1 as [|t rest [ts Hts] _ IH]; [done|].
  apply mapM_cons_Ok. eexists _, _. split; [|split; [exact IH|reflexivity]].
  unfold favorites_key, last_modified. by rewrite Hts.
Qed.

Lemma pairwise_comparable_total {K} (less : K → K → result bool) (leb : K → K → bool) ks :
  (∀ a b, less a b = Ok (leb a b)) → pairwise_comparable less ks = true.
Proof.
  intros Hless. induction ks as [|k ks IH]; [done|].
  simpl. rewrite IH, andb_true_r. apply forallb_forall. intros k' _.
  unfold comparable. by rewrite !Hless.
Qed.

Lemma Sorted_weaken {A} (R R' : A → A → Prop) l :
  (∀ a b, R a b → R' a b) → Sorted R l → Sorted R' l.
Proof.
  intros HR. induction 1 as [|a l _ IH Hhd]; constructor; [done|].
  destruct Hhd; constructor; auto.
Qed.

(** C6: the favorites are exactly the mobile-client songs whose rating
    is above 3, ordered by [lastModifiedTimestamp], most recent first. *)
Theorem thumbs_up_selects_and_orders all_songs :
  Forall (λ t, ∃ r, getitem t "rating" ≫= int = Ok r) all_songs →
  Forall (λ t, rating_above_3 t = true →
               ∃ ts, int (get t "lastModifiedTimestamp") = Ok ts) all_songs →
  ∃ favorites,
    thumbs_up all_songs = Ok favorites
    ∧ favorites ≡ₚ List.filter rating_above_3 all_songs
    ∧ StronglySorted (λ a b, last_modified b ≤ last_modified a) favorites.
Proof.
  intros Hr Hts. unfold thumbs_up. rewrite (rated_above_3_filter _ Hr). cbn.
  set (selected := List.filter rating_above_3 all_songs).
  assert (Forall (λ t, ∃ ts, int (get t "lastModifiedTimestamp") = Ok ts) selected) as Hsel.
  { apply List.Forall_forall. intros t [Hin Hab]%List.filter_In.
    rewrite List.Forall_forall in Hts. by apply Hts. }
  pose proof (favorites_keys selected Hsel) as Hkeys.
  pose proof (list_sort_Ok (λ a b : Z, Ok (a <? b)) favorites_key selected _ Hkeys
                (pairwise_comparable_total _ Z.ltb _ (λ _ _, eq_refl))) as Hsort.
  eexists. split; [exact Hsort|]. split; [by eapply list_sort_perm|].
  apply Sorted_StronglySorted.
  { intros a b c. lia. }
  eapply Sorted_weaken; [|eapply list_sort_sorted; [|exact Hsort]].
  - intros a b (ka & kb & Ha & Hb & Hlt). unfold favorites_key, last_modified in *.
    destruct (int (get a "lastModifiedTimestamp")) as [ta|]; [|done].
    destruct (int (get b "lastModifiedTimestamp")) as [tb|]; [|done].
    cbn in Ha, Hb. injection Ha as <-. injection Hb as <-.
    unfold lessb in Hlt. lia.
  - intros a b. unfold lessb. lia.
Qed.

Lemma thumbs_up_selects_and_orders_witness :
  ∃ favorites,
    thumbs_up [rated_song "x" "5" "100"; rated_song "y" "4" "300";
               rated_song "z" "2" "400"; rated_song "w" "5" "200"] = Ok favorites
    ∧ favorites ≡ₚ List.filter rating_above_3
                     [rated_song "x" "5" "100"; rated_song "y" "4" "300";
                      rated_song "z" "2" "400"; rated_song "w" "5" "200"]
    ∧ StronglySorted (λ a b, last_modified b ≤ last_modified a) favorites.
Proof.
  apply thumbs_up_selects_and_orders.
  - repeat constructor; eexists; vm_compute; reflexivity.
  - repeat constructor; intros _; eexists; vm_compute; reflexivity.
Defined.

Example thumbs_up_100_300_200 :
  thumbs_up [rated_song "x" "5" "100"; rated_song "y" "4" "300"; rated_song "w" "5" "200"]
  = Ok [rated_song "y" "4" "300"; rated_song "w" "5" "200"; rated_song "x" "5" "100"].
Proof. vm_compute. reflexivity. Qed.

(** ** The base path *)

Lemma append_cons c (a b : string) : String c a +:+ b = String c (a +:+ b).
Proof. reflexivity. Qed.

Lemma append_assoc (a b c : string) : (a +:+ b) +:+ c = a +:+ b +:+ c.
Proof. induction a as [|x a IH]; [done|]. rewrite !append_cons. f_equal. exact IH. Qed.

Lemma append_empty_r (a : string) : a +:+ "" = a.
Proof. induction a as [|x a IH]; [done|]. rewrite append_cons. f_equal. exact IH. Qed.

Lemma str_prefix_trans a b c : str_prefix a b → str_prefix b c → str_prefix a c.
Proof. intros [r ->] [r' ->]. exists (r +:+ r'). apply append_assoc. Qed.

Lemma common_prefix2_l a b : str_prefix (common_prefix2 a b) a.
Proof.
  revert b. induction a as [|x a IH]; intros [|y b]; simpl; try by eexists.
  destruct (Ascii.eqb x y); [|by eexists].
  destruct (IH b) as [r Hr]. exists r. rewrite append_cons. by rewrite <- Hr.
Qed.

Lemma common_prefix2_r a b : str_prefix (common_prefix2 a b) b.
Proof.
  revert b. induction a as [|x a IH]; intros [|y b]; simpl; try by eexists.
  destruct (Ascii.eqb x y) eqn:Hxy; [|by eexists].
  apply Ascii.eqb_eq in Hxy as ->.
  destruct (IH b) as [r Hr]. exists r. rewrite append_cons. by rewrite <- Hr.
Qed.

Lemma foldl_common_prefix2_acc ps : ∀ p, str_prefix (foldl common_prefix2 p ps) p.
Proof.
  induction ps as [|q ps IH]; intros p; simpl.
  - exists "". by rewrite append_empty_r.
  - eapply str_prefix_trans; [apply IH|apply common_prefix2_l].
Qed.

Lemma commonprefix_prefix (m : list string) p : p ∈ m → str_prefix (commonprefix m) p.
Proof.
  destruct m as [|p0 ps]; [by intros ?%elem_of_nil|]. simpl.
  intros [->|Hin]%elem_of_cons; [apply foldl_common_prefix2_acc|].
  revert p0. induction ps as [|q ps IH]; intros p0; [by apply elem_of_nil in Hin|].
  simpl. apply elem_of_cons in Hin as [->|Hin]; [|by apply IH].
  eapply str_prefix_trans; [apply foldl_common_prefix2_acc|apply common_prefix2_r].
Qed.

Lemma take_str_prefix n : ∀ s, str_prefix (take_str n s) s.
Proof.
  induction n as [|n IH]; intros [|c s]; simpl; try by eexists.
  destruct (IH s) as [r Hr]. exists r. rewrite append_cons. by rewrite <- Hr.
Qed.

Lemma ends_with_slash_cons c s :
  ends_with_slash s = true → ends_with_slash (String c s) = true.
Proof. by destruct s. Qed.

Lemma rfind_slash_head s :
  0 ≤ rfind_slash s →
  ends_with_slash (take_str (Z.to_nat (rfind_slash s + 1)) s) = true.
Proof.
  induction s as [|c s IH]; simpl; [lia|].
  destruct (0 <=? rfind_slash s) eqn:Hr.
  - intros _. apply Z.leb_le in Hr.
    replace (Z.to_nat (rfind_slash s + 1 + 1)) with (S (Z.to_nat (rfind_slash s + 1))) by lia.
    simpl. by apply ends_with_slash_cons, IH.
  - destruct (Ascii.eqb c slash) eqn:Hc; [|lia]. intros _. simpl. by rewrite Hc.
Qed.

Lemma rfind_slash_lower s : -1 ≤ rfind_slash s.
Proof.
  induction s as [|c s IH]; simpl; [lia|].
  destruct (0 <=? rfind_slash s) eqn:Hr; [apply Z.leb_le in Hr; lia|].
  destruct (Ascii.eqb c slash); lia.
Qed.

Lemma rstrip_split chars s :
  ∃ suffix, s = rstrip chars s +:+ suffix
            ∧ (suffix = "" ∨ ∃ c suffix', suffix = String c suffix' ∧ c ∈ chars).
Proof.
  induction s as [|c s (suffix & Hs & Hsuf)]; [by exists ""; split; [|left]|].
  simpl. destruct (rstrip chars s) as [|c' r] eqn:Hr.
  - change ("" +:+ suffix) with suffix in Hs. subst suffix.
    destruct (bool_decide (c ∈ chars)) eqn:Hc.
    + apply bool_decide_eq_true in Hc. exists (String c s). split; [done|].
      right. by exists c, s.
    + by exists s.
  - exists suffix. split; [|done]. rewrite append_cons. by rewrite <- Hs.
Qed.

Lemma dirname_ancestor p : ancestor_dir (dirname p) p.
Proof.
  unfold dirname. set (head := take_str (Z.to_nat (rfind_slash p + 1)) p).
  destruct (take_str_prefix (Z.to_nat (rfind_slash p + 1)) p) as [tail Htail].
  fold head in Htail.
  assert (head = "" ∨ ends_with_slash head = true) as Hhead.
  { destruct (decide (0 ≤ rfind_slash p)) as [Hr|Hr]; [right; by apply rfind_slash_head|].
    left. pose proof (rfind_slash_lower p). unfold head.
    by replace (rfind_slash p) with (-1) by lia. }
  destruct (negb (head =? "")%string && negb (all_slashes head)).
  - destruct (rstrip_split [slash] head) as (suffix & Hs & [->|(c & s' & -> & Hc)]).
    + rewrite append_empty_r in Hs. rewrite <- Hs. exists tail. split; [done|tauto].
    + exists (String c s' +:+ tail). split.
      * rewrite <- append_assoc. by rewrite <- Hs.
      * right; right. apply list_elem_of_singleton in Hc as ->. reflexivity.
  - exists tail. split; [done|tauto].
Qed.

Lemma starts_with_slash_append a b :
  starts_with_slash a = true → starts_with_slash (a +:+ b) = true.
Proof. by destruct a. Qed.

Lemma ancestor_dir_prefix d c p : ancestor_dir d c → str_prefix c p → ancestor_dir d p.
Proof.
  intros (rest & -> & Hd) [more ->]. exists (rest +:+ more). split.
  - apply append_assoc.
  - destruct Hd as [?|[?|?]]; [tauto..|]. right; right. by apply starts_with_slash_append.
Qed.

Lemma common_prefix2_greatest q : ∀ a b,
  str_prefix q a → str_prefix q b → str_prefix q (common_prefix2 a b).
Proof.
  induction q as [|c q IH]; intros a b [ra ->] [rb ->]; [by eexists|].
  rewrite !append_cons. cbn [common_prefix2]. rewrite Ascii.eqb_refl.
  destruct (IH (q +:+ ra) (q +:+ rb)) as [r Hr]; [by eexists..|].
  exists r. rewrite append_cons. by rewrite <- Hr.
Qed.

Lemma commonprefix_greatest q (m : list string) :
  m ≠ [] → (∀ p, p ∈ m → str_prefix q p) → str_prefix q (commonprefix m).
Proof.
  destruct m as [|p0 ps]; [done|]. intros _ Hq. cbn [commonprefix].
  assert (str_prefix q p0) as H0 by (apply Hq; by left).
  assert (∀ p, p ∈ ps → str_prefix q p) as Hps by (intros p Hp; apply Hq; by right).
  clear Hq. revert p0 H0. induction ps as [|p ps IH]; intros p0 H0; [done|].
  cbn [foldl]. apply IH.
  - intros p' Hp'. apply Hps. by right.
  - apply common_prefix2_greatest; [done|]. apply Hps. by left.
Qed.

Lemma take_str_nonempty n s c r : take_str n s = String c r → (0 < n)%nat.
Proof. destruct n; [done|lia]. Qed.

(** The part of a path up to its last slash contains every prefix of the
    path that ends with a slash. *)
Lemma head_contains q : ∀ c,
  str_prefix q c → ends_with_slash q = true →
  str_prefix q (take_str (Z.to_nat (rfind_slash c + 1)) c).
Proof.
  induction q as [|x q IH]; intros c [r ->] Hq; [done|].
  rewrite append_cons. cbn [rfind_slash]. pose proof (rfind_slash_lower (q +:+ r)) as Hlow.
  destruct q as [|y q].
  - cbn in Hq. rewrite Hq.
    destruct (0 <=? rfind_slash ("" +:+ r)) eqn:Hr.
    + apply Z.leb_le in Hr.
      replace (Z.to_nat (rfind_slash ("" +:+ r) + 1 + 1))
        with (S (Z.to_nat (rfind_slash ("" +:+ r) + 1))) by lia.
      cbn [take_str]. by eexists.
    + cbn [take_str Z.to_nat Z.add Pos.to_nat Pos.iter_op Init.Nat.add]. by eexists.
  - assert (ends_with_slash (String y q) = true) as Hq' by exact Hq.
    destruct (IH (String y q +:+ r) ltac:(by eexists) Hq') as [t Ht].
    assert (0 ≤ rfind_slash (String y q +:+ r)) as Hr.
    { destruct (decide (0 ≤ rfind_slash (String y q +:+ r))) as [?|Hn]; [done|].
      replace (rfind_slash (String y q +:+ r)) with (-1) in Ht by lia.
      cbn in Ht. discriminate. }
    rewrite (proj2 (Z.leb_le _ _) Hr).
    replace (Z.to_nat (rfind_slash (String y q +:+ r) + 1 + 1))
      with (S (Z.to_nat (rfind_slash (String y q +:+ r) + 1))) by lia.
    cbn [take_str]. exists t. rewrite Ht. reflexivity.
Qed.

Lemma rstrip_prefix chars s : str_prefix (rstrip chars s) s.
Proof. destruct (rstrip_split chars s) as (suffix & Hs & _). by exists suffix. Qed.

Lemma rstrip_app_prefix chars a b : str_prefix (rstrip chars a) (rstrip chars (a +:+ b)).
Proof.
  induction a as [|x a [t Ht]]; [by eexists|].
  rewrite append_cons. cbn [rstrip]. rewrite Ht.
  destruct (rstrip chars a) as [|y r].
  - change ("" +:+ t) with t. destruct t as [|z t].
    + exists "". by rewrite append_empty_r.
    + case_bool_decide; [by eexists|]. exists (String z t). reflexivity.
  - rewrite append_cons. exists t. by rewrite !append_cons.
Qed.

Lemma rstrip_snoc chars a c :
  c ∈ chars → rstrip chars (a +:+ String c "") = rstrip chars a.
Proof.
  intros Hc. induction a as [|x a IH].
  - change (rstrip chars ("" +:+ String c ""))
      with (if bool_decide (c ∈ chars) then "" else String c "").
    by rewrite bool_decide_eq_true_2.
  - rewrite append_cons. cbn [rstrip]. by rewrite IH.
Qed.

Lemma rstrip_empty_all_slashes s : rstrip [slash] s = "" → all_slashes s = true.
Proof.
  induction s as [|x s IH]; [done|]. cbn [rstrip all_slashes].
  destruct (rstrip [slash] s); [|done]. case_bool_decide as Hx; [|done].
  intros _. apply list_elem_of_singleton in Hx as ->. by rewrite IH.
Qed.

Lemma ends_with_slash_snoc s :
  ends_with_slash s = true → ∃ t, s = t +:+ String slash "".
Proof.
  induction s as [|x s IH]; [done|]. destruct s as [|y s].
  - cbn. intros ->%Ascii.eqb_eq. by exists "".
  - intros H. destruct (IH H) as [t Ht]. exists (String x t). rewrite append_cons. by rewrite <- Ht.
Qed.

Lemma rstrip_last chars s t c : rstrip chars s = t +:+ String c "" → c ∉ chars.
Proof.
  revert t. induction s as [|c0 s IH]; intros t.
  - by destruct t.
  - cbn [rstrip]. destruct (rstrip chars s) as [|c1 r] eqn:Hr.
    + case_bool_decide as Hc0; [by destruct t|].
      destruct t as [|c2 t]; [by intros [= <-]|]. intros [= _ Ht]. by destruct t.
    + destruct t as [|c2 t]; [done|]. intros [= _ Ht]. by apply (IH t).
Qed.

Lemma rstrip_head chars s c r : rstrip chars s = String c r → ∃ s', s = String c s'.
Proof.
  destruct s as [|c0 s]; [done|]. cbn [rstrip].
  destruct (rstrip chars s); [case_bool_decide; [done|]|]; intros [= <- _]; by eexists.
Qed.

(** [dirname] of a path that a directory prefix [q] leads to lies at or
    below [q]. *)
Lemma dirname_below q c :
  str_prefix q c → ends_with_slash q = true →
  str_prefix (rstrip [slash] q) (dirname c).
Proof.
  intros Hq Hs. destruct (head_contains q c Hq Hs) as [t Ht]. unfold dirname.
  cbv zeta. rewrite Ht.
  destruct (negb ((q +:+ t) =? "")%string && negb (all_slashes (q +:+ t))).
  - apply rstrip_app_prefix.
  - eapply str_prefix_trans; [apply rstrip_prefix|]. by exists t.
Qed.

Lemma dirname_greatest d' (m : list string) :
  m ≠ [] → (∀ p, p ∈ m → ancestor_dir d' p) →
  str_prefix (rstrip [slash] d') (dirname (commonprefix m)).
Proof.
  intros Hm Hd.
  destruct (decide (d' = "")) as [->|Hne]; [by eexists|].
  destruct (ends_with_slash d') eqn:Hs.
  - apply dirname_below; [|done]. apply commonprefix_greatest; [done|].
    intros p Hp. destruct (Hd p Hp) as (rest & -> & _). by exists rest.
  - rewrite <- (rstrip_snoc [slash] d' slash) by by left.
    apply dirname_below.
    + apply commonprefix_greatest; [done|]. intros p Hp.
      destruct (Hd p Hp) as (rest & -> & [?|[?|Hrest]]); [done|congruence|].
      destruct rest as [|x rest]; [done|]. cbn in Hrest. apply Ascii.eqb_eq in Hrest as ->.
      exists rest. rewrite append_assoc. reflexivity.
    + clear. induction d' as [|x [|y d'] IH]; [done| |exact IH]. cbn. apply Ascii.eqb_refl.
Qed.

Lemma dirname_no_trailing_slash c :
  ends_with_slash (dirname c) = true → all_slashes (dirname c) = true.
Proof.
  unfold dirname. cbv zeta.
  set (head := take_str (Z.to_nat (rfind_slash c + 1)) c).
  destruct (negb (head =? "")%string) eqn:He; cbn [andb].
  - destruct (all_slashes head) eqn:Ha; cbn [negb]; [done|].
    intros [t Ht]%ends_with_slash_snoc. apply rstrip_last in Ht.
    exfalso. apply Ht. by left.
  - apply negb_false_iff, String.eqb_eq in He. by rewrite He.
Qed.

Lemma dirname_absolute (m : list string) :
  m ≠ [] → (∀ p, p ∈ m → starts_with_slash p = true) →
  starts_with_slash (dirname (commonprefix m)) = true.
Proof.
  intros Hm Habs.
  assert (str_prefix "/" (commonprefix m)) as Hc.
  { apply commonprefix_greatest; [done|]. intros p Hp. specialize (Habs p Hp).
    destruct p as [|x p]; [done|]. cbn in Habs. apply Ascii.eqb_eq in Habs as ->.
    by exists p. }
  destruct (head_contains "/" _ Hc eq_refl) as [t Ht]. unfold dirname. cbv zeta.
  rewrite Ht. change ("/" +:+ t) with (String slash t).
  destruct (negb (String slash t =? "")%string && negb (all_slashes (String slash t))) eqn:Hcond;
    [|reflexivity].
  destruct (rstrip [slash] (String slash t)) as [|y r] eqn:Hr.
  - apply rstrip_empty_all_slashes in Hr. rewrite Hr in Hcond.
    by rewrite andb_false_r in Hcond.
  - apply rstrip_head in Hr as [s' [= <- _]]. reflexivity.
Qed.

(** C9: [template_to_base_path] returns the current working directory
    when the template is the current working directory or [%suggested%].
    For any other template it returns the common ancestor directory of
    the paths the template resolves to for the songs: a directory that is
    an ancestor of every one of those paths and, when there is a song,
    the deepest such directory (every common ancestor directory, its
    trailing slashes apart, is a prefix of it), written without a
    trailing slash unless it consists of slashes only, and absolute when
    the paths are. *)
Theorem template_to_base_path_spec (X : externals) (template : string) songs :
  (template = getcwd X ∨ template = "%suggested%" →
     template_to_base_path X (VStr template) songs = Ok (getcwd X))
  ∧ (template ≠ getcwd X → template ≠ "%suggested%" →
     let song_paths := map (template_to_filepath X (abspath X template)) songs in
     ∃ base,
       template_to_base_path X (VStr template) songs = Ok base
       ∧ (∀ p, p ∈ song_paths → ancestor_dir base p)
       ∧ (songs ≠ [] →
          ∀ d, (∀ p, p ∈ song_paths → ancestor_dir d p) →
               str_prefix (rstrip [slash] d) base)
       ∧ (ends_with_slash base = true → all_slashes base = true)
       ∧ (songs ≠ [] → (∀ p, p ∈ song_paths → starts_with_slash p = true) →
          starts_with_slash base = true)
       ∧ (songs = [] → base = "")).
Proof.
  unfold template_to_base_path, Py.eqb. cbn [numeric]. split.
  - intros [->| ->].
    + by rewrite bool_decide_eq_true_2.
    + rewrite (bool_decide_eq_true_2 (VStr "%suggested%" = VStr "%suggested%")) by done.
      by rewrite orb_true_r.
  - intros H1 H2.
    rewrite !bool_decide_eq_false_2 by congruence. cbn [orb as_path mbind result_bind rbind].
    cbv zeta.
    set (song_paths := map (template_to_filepath X (abspath X template)) songs).
    assert (songs ≠ [] → song_paths ≠ []) as Hne by (by destruct songs).
    exists (dirname (commonprefix song_paths)). split; [done|]. split; [|split; [|split; [|split]]].
    + intros p Hp. eapply ancestor_dir_prefix; [apply dirname_ancestor|].
      by apply commonprefix_prefix.
    + intros Hs d Hd. by apply dirname_greatest; [apply Hne|].
    + apply dirname_no_trailing_slash.
    + intros Hs Habs. by apply dirname_absolute; [apply Hne|].
    + intros ->. reflexivity.
Qed.

Lemma template_to_base_path_spec_witness :
  template_to_base_path pattern_externals (VStr "/music")
    [tagged "Muse" "Drones" "Psycho"; tagged "Muse" "Drones" "Mercy"] = Ok "/music"
  ∧ template_to_base_path pattern_externals (VStr "/out/%artist%/%album%/%title%")
      [tagged "Muse" "Drones" "Psycho"; tagged "Muse" "Drones" "Mercy"]
    = Ok "/out/Muse/Drones"
  ∧ ancestor_dir "/out/Muse/Drones" "/out/Muse/Drones/Psycho"
  ∧ str_prefix (rstrip [slash] "/out/Muse/") "/out/Muse/Drones".
Proof.
  split.
  - apply (proj1 (template_to_base_path_spec pattern_externals "/music" _)). by left.
  - destruct (template_to_base_path_spec pattern_externals "/out/%artist%/%album%/%title%"
                [tagged "Muse" "Drones" "Psycho"; tagged "Muse" "Drones" "Mercy"]) as [_ H].
    destruct H as (base & Heq & Hanc & Hmax & _); [discriminate..|].
    assert (base = "/out/Muse/Drones") as ->.
    { assert (template_to_base_path pattern_externals (VStr "/out/%artist%/%album%/%title%")
                [tagged "Muse" "Drones" "Psycho"; tagged "Muse" "Drones" "Mercy"]
              = Ok "/out/Muse/Drones") as Hc by by_evaluation.
      rewrite Hc in Heq. by injection Heq as <-. }
    split; [exact Heq|]. split.
    + apply (Hanc "/out/Muse/Drones/Psycho").
      assert (map (template_to_filepath pattern_externals
                     (abspath pattern_externals "/out/%artist%/%album%/%title%"))
                [tagged "Muse" "Drones" "Psycho"; tagged "Muse" "Drones" "Mercy"]
              = ["/out/Muse/Drones/Psycho"; "/out/Muse/Drones/Mercy"]) as -> by by_evaluation.
      by left.
    + apply (Hmax ltac:(discriminate) "/out/Muse/").
      assert (map (template_to_filepath pattern_externals
                     (abspath pattern_externals "/out/%artist%/%album%/%title%"))
                [tagged "Muse" "Drones" "Psycho"; tagged "Muse" "Drones" "Mercy"]
              = ["/out/Muse/Drones/Psycho"; "/out/Muse/Drones/Mercy"]) as -> by by_evaluation.
      intros p [->|[->|[]%elem_of_nil]%elem_of_cons]%elem_of_cons.
      * exists "Drones/Psycho". split; [reflexivity|]. right; left. reflexivity.
      * exists "Drones/Mercy". split; [reflexivity|]. right; left. reflexivity.
Defined.

(** A pattern whose field the songs lack stays in the paths, and the
    base path is the directory above it. *)
Example template_to_base_path_unfilled :
  template_to_base_path pattern_externals (VStr "/out/%artist%") [titled "ab"; titled "ac"]
  = Ok "/out".
Proof. by_evaluation. Qed.

(** ** Removed-file detection *)

Lemma moved_app tr1 tr2 : moved (tr1 ++ tr2) = moved tr1 ++ moved tr2.
Proof. apply omap_app. Qed.

Lemma local_songs_fetched_app tr1 tr2 :
  local_songs_fetched (tr1 ++ tr2) = local_songs_fetched tr1 ++ local_songs_fetched tr2.
Proof. apply omap_app. Qed.

Lemma nothing_moved_or_fetched tr :
  Forall (λ e, is_move (event_call e) || is_get_local_songs (event_call e) = false) tr →
  moved tr = [] ∧ local_songs_fetched tr = [].
Proof.
  induction 1 as [|[c r] tr Hc _ [IH1 IH2]]; [done|].
  unfold moved, local_songs_fetched in *. cbn [omap list_omap] in *.
  rewrite IH1, IH2. by destruct c.
Qed.

Lemma moved_cons_other c r tr : is_move c = false → moved (Ev c r :: tr) = moved tr.
Proof. by destruct c. Qed.

Lemma local_songs_fetched_cons_other c r tr :
  is_get_local_songs c = false →
  local_songs_fetched (Ev c r :: tr) = local_songs_fetched tr.
Proof. by destruct c. Qed.

Lemma local_songs_fetched_cons q loc tr :
  local_songs_fetched (Ev (MmwGetLocalSongs q) (Ok loc) :: tr)
  = loc :: local_songs_fetched tr.
Proof. reflexivity. Qed.

Ltac trace_norm :=
  repeat first
    [ rewrite moved_app | rewrite local_songs_fetched_app
    | rewrite moved_cons_other by reflexivity
    | rewrite local_songs_fetched_cons
    | rewrite local_songs_fetched_cons_other by reflexivity ].

Section Removed.
Context (X : externals).

Lemma songs_to_move_elem m f e gm gf s :
  s ∈ songs_to_move X (m, f, e) gm gf
  ↔ (s ∈ m ∨ s ∈ f ∨ s ∈ e) ∧ ∀ g, g ∈ gm ∨ g ∈ gf → local_key X s ≠ remote_key X g.
Proof.
  unfold songs_to_move, compare_song_collections.
  rewrite list_elem_of_filter, !elem_of_app, list_elem_of_fmap. split.
  - intros [Hk Hs]. split; [done|]. intros g Hg Heq. apply Hk. exists g.
    by rewrite elem_of_app.
  - intros [Hs Hk]. split; [|done]. intros (g & Heq & Hg%elem_of_app). by apply (Hk g).
Qed.

(** The loop of lines 271-276 moves the songs it is given, in order. *)
Lemma wp_move_loop (cli_input : result value) removed_dir (l : list string) :
  wp (for_each l (λ filepath,
        input ← lift cli_input ;
        base ← lift (first_item input) ;
        let rel_file_path := relpath X filepath base in
        let removed_filepath := path_join removed_dir rel_file_path in
        _ ← perform (MakeSurePathExists (dirname removed_filepath) 448) ;
        _ ← perform (Log INFO ("Removing " +:+ rel_file_path)) ;
        perform (Move filepath removed_filepath)))
     (λ out tr,
        local_songs_fetched tr = []
        ∧ moved tr `prefix_of` l
        ∧ (out = Ok tt → moved tr = l)).
Proof.
  apply (wp_for_each l _ (λ done tr, local_songs_fetched tr = [] ∧ moved tr = done)).
  - done.
  - intros done x rest tr -> [Hf Hm].
    assert (∀ e : exn,
              local_songs_fetched (tr ++ []) = []
              ∧ moved (tr ++ []) `prefix_of` done ++ x :: rest
              ∧ (Err e = Ok tt → moved (tr ++ []) = done ++ x :: rest)) as Hfail.
    { intros e. rewrite app_nil_r, Hm. split; [done|]. split; [by eexists|done]. }
    apply wp_lift_bind. destruct cli_input as [input|]; [|apply Hfail].
    apply wp_lift_bind. destruct (first_item input) as [base|]; [|apply Hfail].
    apply wp_perform_bind. intros [[]|e].
    2: { rewrite local_songs_fetched_app, moved_app, Hf, Hm. cbn. rewrite app_nil_r.
         split; [done|]. split; [by eexists|done]. }
    apply wp_perform_bind. intros [[]|e].
    2: { rewrite local_songs_fetched_app, moved_app, Hf, Hm. cbn. rewrite app_nil_r.
         split; [done|]. split; [by eexists|done]. }
    apply wp_perform. intros [[]|e];
      rewrite local_songs_fetched_app, moved_app, Hf, Hm; cbn.
    + done.
    + rewrite app_nil_r. split; [done|]. split; [by eexists|done].
  - intros tr [Hf Hm]. rewrite Hm. split; [done|]. by split.
Qed.

Lemma wp_move_removed_songs cli gm gf :
  wp (move_removed_songs X cli gm gf) (λ out tr,
    ∀ loc, local_songs_fetched tr = [loc] →
      moved tr `prefix_of` songs_to_move X loc gm gf
      ∧ (out = Ok tt → moved tr = songs_to_move X loc gm gf)).
Proof.
  unfold move_removed_songs.
  apply wp_perform_bind. intros [[]|e]; [|done].
  apply wp_lift_bind. destruct (getitem cli "removed") as [removed|]; [|done].
  apply wp_lift_bind. destruct (as_path removed) as [removed_path|]; [|done].
  apply wp_perform_bind. intros [[]|e]; [|done].
  apply wp_lift_bind. destruct (getitem cli "input") as [input|]; [|done].
  apply wp_lift_bind. destruct (getitem cli "exclude") as [exclude|]; [|done].
  apply wp_perform_bind. intros [loc0|e]; [|done].
  apply wp_bind. eapply wp_mono; [|apply wp_move_loop].
  intros [[]|e] tr (Hf & Hpre & Hall).
  2: { trace_norm. rewrite Hf. intros loc [= <-]. by split. }
  specialize (Hall eq_refl).
  assert (never (λ c, is_move c || is_get_local_songs c)
            (_ ← perform (Log INFO " ") ;
             input ← lift (Ok input) ;
             base ← lift (first_item input) ;
             removeEmptyFolders recursion_depth base false)) as Hrest.
  { repeat first [by apply never_removeEmptyFolders | never_step]. }
  eapply wp_mono; [|exact Hrest].
  intros out tr' [Hm' Hf']%nothing_moved_or_fetched. trace_norm.
  rewrite Hf, Hf', Hm', Hall, !app_nil_r.
  intros loc [= <-]. split; [reflexivity|done].
Qed.
End Removed.

(** C7: the songs that removed-file detection moves are
    [missing(source, target)] for the source made of the matched, filtered
    and excluded local songs and the target made of the matched and
    filtered google songs: a local song of any bucket is in the result
    exactly when its identity key is the key of no song of the combined
    remote set, and the songs moved in a run are these, in order (all of
    them when the block runs to its end). *)
Theorem songs_to_move_are_missing (X : externals) cli gm gf {W : Type}
    (respond : ∀ c : call, W → result (resp c) * W) (w w' : W) out tr m f e :
  run respond (move_removed_songs X cli gm gf) w = (out, w', tr) →
  local_songs_fetched tr = [(m, f, e)] →
  songs_to_move X (m, f, e) gm gf
    = compare_song_collections (local_key X) (remote_key X) (m ++ f ++ e) (gm ++ gf)
  ∧ (∀ s, s ∈ songs_to_move X (m, f, e) gm gf
          ↔ (s ∈ m ∨ s ∈ f ∨ s ∈ e)
            ∧ ∀ g, g ∈ gm ∨ g ∈ gf → local_key X s ≠ remote_key X g)
  ∧ moved tr `prefix_of` songs_to_move X (m, f, e) gm gf
  ∧ (out = Ok tt → moved tr = songs_to_move X (m, f, e) gm gf).
Proof.
  intros Hrun Hf. split; [done|]. split; [apply songs_to_move_elem|].
  pose proof (wp_run _ _ respond w (wp_move_removed_songs X cli gm gf)) as H.
  rewrite Hrun in H. by apply H.
Qed.

Lemma songs_to_move_are_missing_witness :
  let r := run (respond_with (example_answers true (["x.mp3"; "old.mp3"], ["y.mp3"], ["skip.mp3"])))
               (move_removed_songs example_externals cli_down_removed [titled "x"] [titled "y"])
               tt in
  songs_to_move example_externals (["x.mp3"; "old.mp3"], ["y.mp3"], ["skip.mp3"])
      [titled "x"] [titled "y"]
    = compare_song_collections (local_key example_externals) (remote_key example_externals)
        (["x.mp3"; "old.mp3"] ++ ["y.mp3"] ++ ["skip.mp3"]) ([titled "x"] ++ [titled "y"])
  ∧ (∀ s, s ∈ songs_to_move example_externals
                (["x.mp3"; "old.mp3"], ["y.mp3"], ["skip.mp3"]) [titled "x"] [titled "y"]
          ↔ (s ∈ ["x.mp3"; "old.mp3"] ∨ s ∈ ["y.mp3"] ∨ s ∈ ["skip.mp3"])
            ∧ ∀ g, g ∈ [titled "x"] ∨ g ∈ [titled "y"] →
                   local_key example_externals s ≠ remote_key example_externals g)
  ∧ moved r.2 `prefix_of`
      songs_to_move example_externals
        (["x.mp3"; "old.mp3"], ["y.mp3"], ["skip.mp3"]) [titled "x"] [titled "y"]
  ∧ (r.1.1 = Ok tt →
     moved r.2 = songs_to_move example_externals
                   (["x.mp3"; "old.mp3"], ["y.mp3"], ["skip.mp3"]) [titled "x"] [titled "y"]).
Proof.
  intros r.
  apply (songs_to_move_are_missing example_externals cli_down_removed
           [titled "x"] [titled "y"]
           (respond_with (example_answers true (["x.mp3"; "old.mp3"], ["y.mp3"], ["skip.mp3"])))
           tt r.1.2 r.1.1 r.2).
  - vm_compute. reflexivity.
  - vm_compute. reflexivity.
Defined.

Example songs_moved_example :
  moved (run (respond_with (example_answers true (["x.mp3"; "old.mp3"], ["y.mp3"], ["skip.mp3"])))
             (move_removed_songs example_externals cli_down_removed [titled "x"] [titled "y"])
             tt).2
  = ["old.mp3"; "skip.mp3"].
Proof. vm_compute. reflexivity. Qed.

(** ** Sorting before use *)

Lemma string_ltb_asym a b : String.ltb a b = true → String.ltb b a = false.
Proof.
  unfold String.ltb. rewrite (String.compare_antisym b a).
  by destruct (String.compare a b).
Qed.

Lemma strs_ltb_asym a : ∀ b, strs_ltb a b = true → strs_ltb b a = false.
Proof.
  induction a as [|x a IH]; intros [|y b]; simpl; try done.
  destruct (String.eqb x y) eqn:Hxy.
  - apply String.eqb_eq in Hxy as ->. rewrite String.eqb_refl. apply IH.
  - rewrite String.eqb_sym, Hxy. apply string_ltb_asym.
Qed.

Lemma eqb_sym (a b : value) : Py.eqb a b = Py.eqb b a.
Proof.
  unfold Py.eqb. destruct (numeric a), (numeric b); try done;
    apply bool_decide_ext; split; congruence.
Qed.

Lemma lt_asym (a b : value) : lessb lt a b = true → lessb lt b a = false.
Proof.
  unfold lessb, lt.
  destruct a, b; cbn; try done; try lia;
    try apply string_ltb_asym; try apply strs_ltb_asym;
    repeat match goal with b : bool |- _ => destruct b end; cbn; lia.
Qed.

Lemma tuple_lt_asym a : ∀ b, lessb tuple_lt a b = true → lessb tuple_lt b a = false.
Proof.
  unfold lessb. induction a as [|x a IH]; intros [|y b]; cbn; try done.
  rewrite (eqb_sym y x). destruct (Py.eqb x y); [apply IH|apply lt_asym].
Qed.

Lemma hands_over_now {A L} (k : L → prog A) (P : list event → L → Prop) E l :
  P [] l → hands_over (k l) k P E.
Proof.
  intros HP. enough (∀ p, p = k l → hands_over p k P E) as H by by apply H.
  intros p Hp. destruct p; left; by exists l.
Qed.

Lemma hands_over_lift_bind {A B L} (r : result B) (f : B → prog A) (k : L → prog A) P E :
  match r with Ok b => hands_over (f b) k P E | Err e => E [] e end →
  hands_over (lift r ≫= f) k P E.
Proof. destruct r; [done|]. by right. Qed.

Lemma hands_over_perform_bind {A L} (c : call) (f : resp c → prog A) (k : L → prog A) P E :
  fetch_or_log c = true →
  (∀ r, match r with
        | Ok b => hands_over (f b) k (λ tr l, P (Ev c r :: tr) l)
                    (λ tr e, E (Ev c r :: tr) e)
        | Err e => E [Ev c r] e
        end) →
  hands_over (perform c ≫= f) k P E.
Proof.
  intros Hc H. right. split; [exact Hc|]. intros r. specialize (H r).
  destruct r; [done|]. by right.
Qed.

(** What [hands_over] means for a run: it ends with an exception after
    calls that fetch or log only, or it splits into such calls that
    satisfy [P] and a run of [k l]. *)
Lemma hands_over_run {A L} (p : prog A) (k : L → prog A) P E {W}
    (respond : ∀ c : call, W → result (resp c) * W) w :
  hands_over p k P E →
  (∃ e, (run respond p w).1.1 = Err e
        ∧ Forall (λ ev, fetch_or_log (event_call ev) = true) (run respond p w).2
        ∧ E (run respond p w).2 e)
  ∨ ∃ l pre w1,
      Forall (λ ev, fetch_or_log (event_call ev) = true) pre
      ∧ P pre l
      ∧ run respond p w
        = ((run respond (k l) w1).1.1, (run respond (k l) w1).1.2,
           pre ++ (run respond (k l) w1).2).
Proof.
  assert (∀ (q : prog A) w, run respond q w
            = ((run respond q w).1.1, (run respond q w).1.2, [] ++ (run respond q w).2))
    as Hnow by (intros q w'; by destruct (run respond q w') as [[? ?] ?]).
  revert P E w. induction p as [a|e|c k' IH]; intros P E w [(l & HP & Hp)|H].
  - right. exists l, [], w. rewrite <- Hp. by split; [constructor|].
  - done.
  - right. exists l, [], w. rewrite <- Hp. by split; [constructor|].
  - left. exists e. by split; [|split; [constructor|]].
  - right. exists l, [], w. rewrite <- Hp. by split; [constructor|split; [|apply Hnow]].
  - destruct H as [Hc H]. cbn [run]. destruct (respond c w) as [r w1] eqn:Hr.
    destruct (IH r _ _ w1 (H r)) as [(e & He & Hall & HE)|(l & pre & w2 & Hall & HP & Hrun)].
    + left. exists e. destruct (run respond (k' r) w1) as [[? ?] ?]. cbn in *.
      by split; [|split; [constructor|]].
    + right. exists l, (Ev c r :: pre), w2. split; [by constructor|]. split; [exact HP|].
      rewrite Hrun. reflexivity.
Qed.

Lemma sort_paths_sorted l :
  ∃ l', sort_paths l = Ok l' ∧ l' ≡ₚ l ∧ Sorted paths_ascend l'.
Proof.
  assert (∃ l', sort_paths l = Ok l') as [l' Hl].
  { eexists. unfold sort_paths.
    apply (list_sort_Ok (λ a b : string, Ok (String.ltb a b)) Ok l l).
    - induction l as [|x l IH]; [done|]. cbn. by rewrite IH.
    - by apply (pairwise_comparable_total _ String.ltb). }
  exists l'. split; [exact Hl|]. split; [by eapply list_sort_perm|].
  eapply Sorted_weaken; [|eapply list_sort_sorted; [|exact Hl]].
  - by intros a b (ka & kb & [= <-] & [= <-] & Hlt).
  - intros a b. apply string_ltb_asym.
Qed.

Section SortedBeforeUse.
Context (X : externals).

Lemma hands_over_download cli songs :
  hands_over (download_missing_google_songs X cli songs) (download_songs cli)
    (λ tr l, ∃ loc, local_songs_fetched tr = [loc]
       ∧ l ≡ₚ compare_song_collections (remote_key X) (local_key X) songs loc.1.1
       ∧ Sorted (ascending_by tuple_lt download_key) l)
    (λ tr e, getitem cli "input" = Err e ∨ getitem cli "exclude" = Err e
             ∨ call_failed tr e
             ∨ ∃ loc, local_songs_fetched tr = [loc]
                 ∧ list_sort tuple_lt download_key
                     (compare_song_collections (remote_key X) (local_key X) songs loc.1.1)
                   = Err e).
Proof.
  unfold download_missing_google_songs.
  apply hands_over_lift_bind. destruct (getitem cli "input") as [input|]; [|by left].
  apply hands_over_lift_bind. destruct (getitem cli "exclude") as [exclude|]; [|by right; left].
  apply hands_over_perform_bind; [done|]. intros [[[m f] e]|];
    [|right; right; left; by eexists _, []].
  apply hands_over_perform_bind; [done|]. intros [[]|];
    [|right; right; left; by eexists _, [_]].
  apply hands_over_lift_bind.
  destruct (list_sort tuple_lt download_key _) as [l|] eqn:Hsort.
  - apply hands_over_now. exists (m, f, e). split; [done|]. split.
    + by eapply list_sort_perm.
    + eapply list_sort_sorted; [apply tuple_lt_asym|exact Hsort].
  - right; right; right. by exists (m, f, e).
Qed.

Lemma hands_over_upload cli inc exc :
  hands_over (sync_up X cli inc exc)
    (λ '(songs_to_upload, songs_to_filter, songs_to_exclude, matched_local_songs),
       report_or_upload cli songs_to_upload songs_to_filter songs_to_exclude
         matched_local_songs)
    (λ tr '(songs_to_upload, songs_to_filter, songs_to_exclude, matched_local_songs),
       ∃ google loc, google_songs_fetched tr = [google] ∧ local_songs_fetched tr = [loc]
         ∧ matched_local_songs = loc.1.1 ∧ songs_to_filter = loc.1.2
         ∧ songs_to_upload
             ≡ₚ compare_song_collections (local_key X) (remote_key X) loc.1.1 google.1
         ∧ Sorted paths_ascend songs_to_upload
         ∧ songs_to_exclude ≡ₚ loc.2
         ∧ Sorted paths_ascend songs_to_exclude)
    (λ tr e, call_failed tr e
             ∨ ∃ key, key ∈ ["input"; "all-includes"; "all-excludes"; "exclude"; "max-depth"]
                      ∧ getitem cli key = Err e).
Proof.
  unfold sync_up.
  apply hands_over_perform_bind; [done|]. intros [[gm gf]|]; [|left; by eexists _, []].
  apply hands_over_perform_bind; [done|]. intros [[]|]; [|left; by eexists _, [_]].
  apply hands_over_lift_bind. destruct (getitem cli "input") as [input|] eqn:H1;
    [|right; exists "input"; split; [set_solver|done]].
  apply hands_over_lift_bind. destruct (getitem cli "all-includes") as [ai|] eqn:H2;
    [|right; exists "all-includes"; split; [set_solver|done]].
  apply hands_over_lift_bind. destruct (getitem cli "all-excludes") as [ae|] eqn:H3;
    [|right; exists "all-excludes"; split; [set_solver|done]].
  apply hands_over_lift_bind. destruct (getitem cli "exclude") as [exclude|] eqn:H4;
    [|right; exists "exclude"; split; [set_solver|done]].
  apply hands_over_lift_bind. destruct (getitem cli "max-depth") as [md|] eqn:H5;
    [|right; exists "max-depth"; split; [set_solver|done]].
  apply hands_over_perform_bind; [done|]. intros [[[m f] e]|];
    [|left; by eexists _, [_; _]].
  apply hands_over_perform_bind; [done|]. intros [[]|];
    [|left; by eexists _, [_; _; _]].
  destruct (sort_paths_sorted (compare_song_collections (local_key X) (remote_key X) m gm))
    as (up & -> & Hup & Hups).
  destruct (sort_paths_sorted e) as (ex & -> & Hex & Hexs).
  apply hands_over_lift_bind, hands_over_lift_bind.
  apply (hands_over_now
           (λ '(songs_to_upload, songs_to_filter, songs_to_exclude, matched_local_songs),
              report_or_upload cli songs_to_upload songs_to_filter songs_to_exclude
                matched_local_songs) _ _ (up, f, ex, m)).
  exists (gm, gf), (m, f, e). by repeat split.
Qed.
End SortedBeforeUse.

(** C8, as the specification states it, fails for uploads: the list
    handed to [mmw.upload] is in the order of the file names, whatever
    the artists of the files are. *)
Lemma upload_not_sorted_by_artist :
  uploads (run (respond_with (example_answers true (["b.mp3"; "a.mp3"], [], [])))
               (main_body example_externals cli_up) tt).2
    = [["a.mp3"; "b.mp3"]]
  ∧ ¬ Sorted (λ a b, by_artist_album_track (local_metadata example_externals a)
                                           (local_metadata example_externals b))
        ["a.mp3"; "b.mp3"].
Proof.
  split; [vm_compute; reflexivity|].
  intros H. apply Sorted_inv in H as [_ H]. apply HdRel_inv in H.
  vm_compute in H. discriminate.
Qed.

(** C8 (amended): after the comparator returns, the caller sorts the
    songs-to-download list by the key (artist, album, track_number) and
    the songs-to-upload list in the plain order of its elements, the file
    names, before it reports them or acts on them. In every run, up to
    the point where [download_songs], or the reporting and uploading part
    of the [up] branch, takes over, the caller has only fetched the
    collections and logged; what it then hands over is a sorted
    permutation of the comparator's result for the collections fetched,
    and the rest of the run is the run of that part on the sorted list.
    The caller stops before that point only when a call raises, a key
    is missing from the command line or the sort keys cannot be
    compared. *)
Theorem callers_sort_before_use (X : externals) cli {W : Type}
    (respond : ∀ c : call, W → result (resp c) * W) (w : W) :
  (∀ songs,
     let r := run respond (download_missing_google_songs X cli songs) w in
     (∃ e, r.1.1 = Err e
           ∧ Forall (λ ev, fetch_or_log (event_call ev) = true) r.2
           ∧ (getitem cli "input" = Err e ∨ getitem cli "exclude" = Err e
              ∨ call_failed r.2 e
              ∨ ∃ loc, local_songs_fetched r.2 = [loc]
                  ∧ list_sort tuple_lt download_key
                      (compare_song_collections (remote_key X) (local_key X) songs loc.1.1)
                    = Err e))
     ∨ ∃ songs_to_download before w1,
         Forall (λ ev, fetch_or_log (event_call ev) = true) before
         ∧ (∃ loc, local_songs_fetched before = [loc]
              ∧ songs_to_download
                  ≡ₚ compare_song_collections (remote_key X) (local_key X) songs loc.1.1
              ∧ Sorted (ascending_by tuple_lt download_key) songs_to_download)
         ∧ r = ((run respond (download_songs cli songs_to_download) w1).1.1,
                (run respond (download_songs cli songs_to_download) w1).1.2,
                before ++ (run respond (download_songs cli songs_to_download) w1).2))
  ∧ (∀ inc exc,
     let r := run respond (sync_up X cli inc exc) w in
     (∃ e, r.1.1 = Err e
           ∧ Forall (λ ev, fetch_or_log (event_call ev) = true) r.2
           ∧ (call_failed r.2 e
              ∨ ∃ key, key ∈ ["input"; "all-includes"; "all-excludes"; "exclude"; "max-depth"]
                       ∧ getitem cli key = Err e))
     ∨ ∃ songs_to_upload songs_to_filter songs_to_exclude matched_local_songs before w1,
         Forall (λ ev, fetch_or_log (event_call ev) = true) before
         ∧ (∃ google loc,
              google_songs_fetched before = [google] ∧ local_songs_fetched before = [loc]
              ∧ matched_local_songs = loc.1.1 ∧ songs_to_filter = loc.1.2
              ∧ songs_to_upload
                  ≡ₚ compare_song_collections (local_key X) (remote_key X) loc.1.1 google.1
              ∧ Sorted paths_ascend songs_to_upload
              ∧ songs_to_exclude ≡ₚ loc.2
              ∧ Sorted paths_ascend songs_to_exclude)
         ∧ r = ((run respond (report_or_upload cli songs_to_upload songs_to_filter
                                songs_to_exclude matched_local_songs) w1).1.1,
                (run respond (report_or_upload cli songs_to_upload songs_to_filter
                                songs_to_exclude matched_local_songs) w1).1.2,
                before ++ (run respond (report_or_upload cli songs_to_upload songs_to_filter
                                          songs_to_exclude matched_local_songs) w1).2)).
Proof.
  split.
  - intros songs r.
    destruct (hands_over_run _ _ _ _ respond w (hands_over_download X cli songs))
      as [H|(l & pre & w1 & Hall & HP & Hrun)]; [by left|].
    right. by exists l, pre, w1.
  - intros inc exc r.
    destruct (hands_over_run _ _ _ _ respond w (hands_over_upload X cli inc exc))
      as [H|([[[up f] ex] m] & pre & w1 & Hall & HP & Hrun)]; [by left|].
    right. by exists up, f, ex, m, pre, w1.
Qed.

(** A run in which the hand-over takes place: two songs that are not on
    disk come from Google Music with the later artist first, and
    [mmw.download] receives them with the earlier artist first. *)
Lemma callers_sort_before_use_witness :
  unsorted_download_run.1.1 = Ok tt
  ∧ downloads unsorted_download_run.2 = [[song_by "Abba" "a"; song_by "Zebra" "z"]]
  ∧ ∃ songs_to_download before w1,
      Forall (λ ev, fetch_or_log (event_call ev) = true) before
      ∧ (∃ loc, local_songs_fetched before = [loc]
           ∧ songs_to_download
               ≡ₚ compare_song_collections (remote_key example_externals)
                    (local_key example_externals)
                    [song_by "Zebra" "z"; song_by "Abba" "a"] loc.1.1
           ∧ Sorted (ascending_by tuple_lt download_key) songs_to_download)
      ∧ unsorted_download_run
        = ((run (respond_with (example_answers true ([], [], [])))
                (download_songs cli_down_removed songs_to_download) w1).1.1,
           (run (respond_with (example_answers true ([], [], [])))
                (download_songs cli_down_removed songs_to_download) w1).1.2,
           before ++ (run (respond_with (example_answers true ([], [], [])))
                          (download_songs cli_down_removed songs_to_download) w1).2).
Proof.
  assert (unsorted_download_run.1.1 = Ok tt) as Hout by by_evaluation.
  split; [exact Hout|]. split; [by_evaluation|].
  destruct (proj1 (callers_sort_before_use example_externals cli_down_removed
                     (respond_with (example_answers true ([], [], []))) tt)
              [song_by "Zebra" "z"; song_by "Abba" "a"]) as [(e & He & _)|H].
  - change (unsorted_download_run.1.1 = Err e) in He. rewrite Hout in He. discriminate.
  - exact H.
Defined.

Example download_order_example :
  list_sort tuple_lt download_key
    [{[ "artist" := VStr "Muse"; "album" := VStr "Drones"; "track_number" := VInt 2 ]};
     {[ "artist" := VStr "Abba"; "album" := VStr "Arrival"; "track_number" := VInt 1 ]};
     {[ "artist" := VStr "Muse"; "album" := VStr "Drones"; "track_number" := VInt 1 ]}]
  = Ok [{[ "artist" := VStr "Abba"; "album" := VStr "Arrival"; "track_number" := VInt 1 ]};
        {[ "artist" := VStr "Muse"; "album" := VStr "Drones"; "track_number" := VInt 1 ]};
        {[ "artist" := VStr "Muse"; "album" := VStr "Drones"; "track_number" := VInt 2 ]}].
Proof. vm_compute. reflexivity. Qed.

(** ** The name of the favorites playlist *)

Lemma favorites_playlist_name_supplied (cli : gmap string value) v :
  cli !! "favorites" = Some v → favorites_playlist_name cli = Ok v.
Proof.
  intros Hv. unfold favorites_playlist_name, getitem. rewrite Hv.
  by rewrite decide_True by eauto.
Qed.

Lemma favorites_playlist_name_absent (cli : gmap string value) :
  cli !! "favorites" = None →
  favorites_playlist_name cli = Ok (VStr "___auto_favorites___").
Proof.
  intros Hv. unfold favorites_playlist_name. rewrite Hv.
  by rewrite decide_False by by intros [? ?].
Qed.

(** Docopt's dictionary has the key [favorites] whether the option is
    given or not. *)
Lemma docopt_favorites_present up down playlists removed favorites output :
  cli_of_docopt (docopt_items up down playlists removed favorites output) !! "favorites"
  = Some favorites.
Proof. vm_compute. reflexivity. Qed.

(** C3: at [gmsync down -p playlists], with no [--favorites] on the
    command line, the name of the favorites playlist is [None], not
    [___auto_favorites___]: line 355 tests whether the key is in the
    dictionary, and docopt always puts it there. Building the file name
    from [None] then raises [TypeError], after the playlists and the
    favorited songs have been synced. *)
Theorem favorites_name_without_option :
  cli_down_playlists !! "favorites" = Some VNone
  ∧ favorites_playlist_name cli_down_playlists = Ok VNone
  ∧ favorites_playlist_name cli_down_playlists ≠ Ok (VStr "___auto_favorites___")
  ∧ (∀ songs_dict songs outpath,
       create_playlist_file example_externals cli_down_playlists songs_dict VNone songs outpath
       = Raise TypeError)
  ∧ (run (respond_with (example_answers true ([], [], [])))
         (main_body example_externals cli_down_playlists) tt).1.1
    = Err TypeError.
Proof.
  split; [vm_compute; reflexivity|].
  split; [vm_compute; reflexivity|].
  split; [vm_compute; discriminate|].
  split; [reflexivity|].
  vm_compute. reflexivity.
Qed.


(** ** Further properties: the metadata of a mobile-client song *)

Lemma lookup_if_insert_eq (b : bool) (target : string) (v : value) (m : song) :
  (if b then <[target := v]> m else m) !! target = if b then Some v else m !! target.
Proof. destruct b; [apply lookup_insert_eq|done]. Qed.

Lemma lookup_if_insert_ne (b : bool) (target k : string) (v : value) (m : song) :
  target ≠ k → (if b then <[target := v]> m else m) !! k = m !! k.
Proof. intros Hk. destruct b; [by apply lookup_insert_ne|done]. Qed.

Ltac metadata_lookup :=
  repeat first
    [ rewrite lookup_insert_eq
    | rewrite lookup_if_insert_eq
    | rewrite lookup_insert_ne by discriminate
    | rewrite lookup_if_insert_ne by discriminate
    | rewrite lookup_empty ].

Lemma copy_if_set_Ok (s : song) field target metadata v :
  s !! field = Some v →
  copy_if_set s field target metadata
  = Ok (if truthy v then <[target := v]> metadata else metadata).
Proof. intros Hv. unfold copy_if_set, getitem. by rewrite Hv. Qed.

Lemma copy_if_set_inv (s : song) field target metadata m :
  copy_if_set s field target metadata = Ok m → is_Some (s !! field).
Proof.
  unfold copy_if_set, getitem. destruct (s !! field); [by eexists|done].
Qed.

Lemma getitem_inv (s : song) field v : getitem s field = Ok v → is_Some (s !! field).
Proof. unfold getitem. destruct (s !! field); [by eexists|done]. Qed.

Lemma metadata_from_mobile_client_song_Ok (s : song)
    artist album title year albumArtist tn ttc dn tdc :
  s !! "artist" = Some artist → s !! "album" = Some album →
  s !! "title" = Some title → s !! "year" = Some year →
  s !! "albumArtist" = Some albumArtist →
  s !! "trackNumber" = Some tn → s !! "totalTrackCount" = Some ttc →
  s !! "discNumber" = Some dn → s !! "totalDiscCount" = Some tdc →
  metadata_from_mobile_client_song s
  = Ok (let m := if truthy artist then <["artist" := artist]> ∅ else ∅ in
        let m := if truthy album then <["album" := album]> m else m in
        let m := if truthy title then <["title" := title]> m else m in
        let m := if truthy year then <["date" := year]> m else m in
        let m := if truthy albumArtist then <["albumartist" := albumArtist]> m else m in
        <["discnumber" := VStr (str dn +:+ "/" +:+ str tdc)]>
          (<["tracknumber" := VStr (str tn +:+ "/" +:+ str ttc)]> m)).
Proof.
  intros H1 H2 H3 H4 H5 H6 H7 H8 H9. unfold metadata_from_mobile_client_song.
  rewrite (copy_if_set_Ok _ _ _ _ _ H1). cbn [mbind result_bind rbind].
  rewrite (copy_if_set_Ok _ _ _ _ _ H2). cbn [mbind result_bind rbind].
  rewrite (copy_if_set_Ok _ _ _ _ _ H3). cbn [mbind result_bind rbind].
  rewrite (copy_if_set_Ok _ _ _ _ _ H4). cbn [mbind result_bind rbind].
  rewrite (copy_if_set_Ok _ _ _ _ _ H5). cbn [mbind result_bind rbind].
  unfold getitem. rewrite H6, H7, H8, H9. reflexivity.
Qed.

(** X1: for a record with all nine fields the metadata holds artist,
    album, title, date and albumartist exactly for the source fields that
    are set (not empty, not zero, not [None]), always holds tracknumber
    and discnumber as ["n/total"], and holds nothing else. *)
Theorem metadata_from_mobile_client_song_fields (s : song)
    artist album title year albumArtist tn ttc dn tdc :
  s !! "artist" = Some artist → s !! "album" = Some album →
  s !! "title" = Some title → s !! "year" = Some year →
  s !! "albumArtist" = Some albumArtist →
  s !! "trackNumber" = Some tn → s !! "totalTrackCount" = Some ttc →
  s !! "discNumber" = Some dn → s !! "totalDiscCount" = Some tdc →
  ∃ m, metadata_from_mobile_client_song s = Ok m
    ∧ m !! "artist" = (if truthy artist then Some artist else None)
    ∧ m !! "album" = (if truthy album then Some album else None)
    ∧ m !! "title" = (if truthy title then Some title else None)
    ∧ m !! "date" = (if truthy year then Some year else None)
    ∧ m !! "albumartist" = (if truthy albumArtist then Some albumArtist else None)
    ∧ m !! "tracknumber" = Some (VStr (str tn +:+ "/" +:+ str ttc))
    ∧ m !! "discnumber" = Some (VStr (str dn +:+ "/" +:+ str tdc))
    ∧ (∀ k, is_Some (m !! k) →
            k ∈ ["artist"; "album"; "title"; "date"; "albumartist";
                 "tracknumber"; "discnumber"]).
Proof.
  intros H1 H2 H3 H4 H5 H6 H7 H8 H9.
  eexists. split; [by apply metadata_from_mobile_client_song_Ok|]. cbv zeta.
  repeat split; try by metadata_lookup.
  intros k [v Hk].
  repeat match type of Hk with
         | <[?t := _]> _ !! _ = _ =>
             destruct (decide (t = k)) as [<-|?];
             [apply list_elem_of_In; simpl; tauto|rewrite lookup_insert_ne in Hk by done]
         | (if _ then <[?t := _]> _ else _) !! _ = _ =>
             destruct (decide (t = k)) as [<-|?];
             [apply list_elem_of_In; simpl; tauto|rewrite lookup_if_insert_ne in Hk by done]
         end.
  by rewrite lookup_empty in Hk.
Qed.

Lemma metadata_from_mobile_client_song_fields_witness :
  ∃ m, metadata_from_mobile_client_song example_mobile_song = Ok m
    ∧ m !! "artist" = Some (VStr "Muse")
    ∧ m !! "album" = None
    ∧ m !! "title" = Some (VStr "Psycho")
    ∧ m !! "date" = None
    ∧ m !! "albumartist" = Some (VStr "Muse")
    ∧ m !! "tracknumber" = Some (VStr "3/12")
    ∧ m !! "discnumber" = Some (VStr "1/1")
    ∧ (∀ k, is_Some (m !! k) →
            k ∈ ["artist"; "album"; "title"; "date"; "albumartist";
                 "tracknumber"; "discnumber"]).
Proof.
  apply (metadata_from_mobile_client_song_fields example_mobile_song
           (VStr "Muse") (VStr "") (VStr "Psycho") (VInt 0) (VStr "Muse")
           (VInt 3) (VInt 12) (VInt 1) (VInt 1)); reflexivity.
Defined.

Lemma metadata_from_mobile_client_song_first_missing (s : song) :
  match List.find (λ f, match s !! f with None => true | Some _ => false end)
                  metadata_source_fields with
  | Some f => metadata_from_mobile_client_song s = Err (KeyError (VStr f))
  | None => ∃ m, metadata_from_mobile_client_song s = Ok m
  end.
Proof.
  unfold metadata_from_mobile_client_song, copy_if_set, getitem, metadata_source_fields.
  cbn [List.find].
  destruct (s !! "artist"); [|done]. destruct (s !! "album"); [|done].
  destruct (s !! "title"); [|done]. destruct (s !! "year"); [|done].
  destruct (s !! "albumArtist"); [|done]. destruct (s !! "trackNumber"); [|done].
  destruct (s !! "totalTrackCount"); [|done]. destruct (s !! "discNumber"); [|done].
  destruct (s !! "totalDiscCount"); [|done]. by eexists.
Qed.

Lemma find_first {A} (p : A → bool) before x after :
  Forall (λ y, p y = false) before → p x = true →
  List.find p (before ++ x :: after) = Some x.
Proof.
  intros Hb Hx. induction Hb as [|y before Hy _ IH]; cbn; [by rewrite Hx|by rewrite Hy].
Qed.

(** X2: the conversion succeeds exactly for the records that have all
    nine source fields. A record that lacks one of them (the field being
    absent, not merely empty) raises [KeyError] and nothing else, and the
    error names the first of the fields, in the order in which the
    function reads them, that the record lacks. *)
Theorem metadata_from_mobile_client_song_defined (s : song) :
  ((∃ m, metadata_from_mobile_client_song s = Ok m)
   ↔ Forall (λ f, is_Some (s !! f)) metadata_source_fields)
  ∧ (∀ e, metadata_from_mobile_client_song s = Err e →
          ∃ f, f ∈ metadata_source_fields ∧ s !! f = None ∧ e = KeyError (VStr f))
  ∧ (∀ before f after,
       metadata_source_fields = before ++ f :: after →
       Forall (λ f', is_Some (s !! f')) before → s !! f = None →
       metadata_from_mobile_client_song s = Err (KeyError (VStr f))).
Proof.
  pose proof (metadata_from_mobile_client_song_first_missing s) as Hfirst.
  split; [|split].
  - split.
    + intros [m Hm]. unfold metadata_from_mobile_client_song in Hm.
      apply bind_Ok in Hm as (m1 & ?%copy_if_set_inv & Hm).
      apply bind_Ok in Hm as (m2 & ?%copy_if_set_inv & Hm).
      apply bind_Ok in Hm as (m3 & ?%copy_if_set_inv & Hm).
      apply bind_Ok in Hm as (m4 & ?%copy_if_set_inv & Hm).
      apply bind_Ok in Hm as (m5 & ?%copy_if_set_inv & Hm).
      apply bind_Ok in Hm as (tn & ?%getitem_inv & Hm).
      apply bind_Ok in Hm as (ttc & ?%getitem_inv & Hm).
      apply bind_Ok in Hm as (dn & ?%getitem_inv & Hm).
      apply bind_Ok in Hm as (tdc & ?%getitem_inv & Hm).
      by repeat constructor.
    + intros H. unfold metadata_source_fields in H.
      rewrite !Forall_cons in H.
      destruct H as ([? ?] & [? ?] & [? ?] & [? ?] & [? ?] & [? ?] & [? ?] & [? ?] & [? ?] & _).
      eexists. eapply metadata_from_mobile_client_song_Ok; eassumption.
  - intros e He.
    destruct (List.find _ metadata_source_fields) as [f|] eqn:Hf.
    + apply List.find_some in Hf as [Hin Hnone]. exists f.
      split; [by apply list_elem_of_In|].
      split; [by destruct (s !! f)|congruence].
    + destruct Hfirst as [m Hm]. congruence.
  - intros before f after Hsplit Hbefore Hnone. rewrite Hsplit in Hfirst.
    rewrite find_first in Hfirst; [done| |by rewrite Hnone].
    eapply Forall_impl; [exact Hbefore|]. by intros f' [v ->].
Qed.

(** A song without a year: the artist, the album and the title are read,
    then [song['year']] raises. *)
Lemma metadata_from_mobile_client_song_defined_witness :
  metadata_from_mobile_client_song (delete "year" example_mobile_song)
  = Err (KeyError (VStr "year")).
Proof.
  apply (proj2 (proj2 (metadata_from_mobile_client_song_defined
                         (delete "year" example_mobile_song)))
           ["artist"; "album"; "title"] "year"
           ["albumArtist"; "trackNumber"; "totalTrackCount"; "discNumber"; "totalDiscCount"]).
  - reflexivity.
  - repeat constructor; by eexists.
  - reflexivity.
Defined.

(** ** Further properties: defaults and filters (lines 186-203) *)

Lemma lookup_if_insert_ne' (b : bool) (target k : string) (v : value) (m : song) :
  target ≠ k → (if b then m else <[target := v]> m) !! k = m !! k.
Proof. intros Hk. destruct b; [done|by apply lookup_insert_ne]. Qed.

(** What [prepare] computes when it returns: the value stored under
    [max-depth], the dictionary with its defaults, the single call. *)
Lemma wp_prepare (X : externals) cli :
  wp (prepare X cli) (λ out tr,
    ∀ cli' fi fe, out = Ok (cli', fi, fe) →
    ∃ no_recursion depth quiet input output include exclude,
      cli !! "no-recursion" = Some no_recursion
      ∧ (if truthy no_recursion then depth = VInt 0
         else ∃ max_depth, cli !! "max-depth" = Some max_depth
              ∧ if truthy max_depth then ∃ n, int max_depth = Ok n ∧ depth = VInt n
                else depth = VInf)
      ∧ cli !! "quiet" = Some quiet
      ∧ tr = [Ev (SetLevel (if truthy quiet then QUIET else INFO)) (Ok tt)]
      ∧ <["max-depth" := depth]> cli !! "input" = Some input
      ∧ <["max-depth" := depth]> cli !! "output" = Some output
      ∧ cli' = (let c := <["max-depth" := depth]> cli in
                let c := if truthy input then c else <["input" := VStrs [getcwd X]]> c in
                if truthy output then c else <["output" := VStr (getcwd X)]> c)
      ∧ (getitem cli' "include-filter" ≫= iter) = Ok include
      ∧ (getitem cli' "exclude-filter" ≫= iter) = Ok exclude
      ∧ fi = map (split1 ":") include ∧ fe = map (split1 ":") exclude).
Proof.
  unfold prepare.
  apply wp_lift_bind. unfold getitem at 1.
  destruct (cli !! "no-recursion") as [no_recursion|] eqn:Hnr; [|done].
  apply wp_bind.
  set (Q := λ (out : result (gmap string value)) (tr : list event),
         tr = [] ∧ match out with
                   | Err _ => True
                   | Ok c => ∃ depth, c = <["max-depth" := depth]> cli
           ∧ (if truthy no_recursion then depth = VInt 0
              else ∃ max_depth, cli !! "max-depth" = Some max_depth
                   ∧ if truthy max_depth then ∃ n, int max_depth = Ok n ∧ depth = VInt n
                     else depth = VInf)
                   end).
  assert (wp (if truthy no_recursion then mret (<["max-depth" := VInt 0]> cli)
              else max_depth ← lift (getitem cli "max-depth") ;
                   if truthy max_depth then
                     n ← lift (int max_depth) ; mret (<["max-depth" := VInt n]> cli)
                   else mret (<["max-depth" := VInf]> cli)) Q) as Hdepth.
  { subst Q. destruct (truthy no_recursion) eqn:Htnr.
    - split; [done|]. by exists (VInt 0).
    - apply wp_lift_bind. unfold getitem.
      destruct (cli !! "max-depth") as [max_depth|] eqn:Hmd; [|done].
      destruct (truthy max_depth) eqn:Htmd.
      + apply wp_lift_bind. destruct (int max_depth) as [n|] eqn:Hn; [|done].
        split; [done|]. exists (VInt n). split; [done|].
        exists max_depth. split; [done|]. rewrite Htmd. by exists n.
      + split; [done|]. exists VInf. split; [done|].
        exists max_depth. split; [done|]. by rewrite Htmd. }
  eapply wp_mono; [|exact Hdepth]. subst Q. cbv beta.
  intros [c|e] tr [-> Hc]; [|done]. destruct Hc as (depth & -> & Hdepth').
  apply wp_lift_bind. unfold getitem at 1. rewrite lookup_insert_ne by done.
  destruct (cli !! "quiet") as [quiet|] eqn:Hq; [|done].
  apply wp_bind.
  assert (wp (A := unit)
             (if truthy quiet then perform (SetLevel QUIET) else perform (SetLevel INFO))
             (λ out tr, ∀ u, out = Ok u →
                tr = [Ev (SetLevel (if truthy quiet then QUIET else INFO)) (Ok tt)])) as Hlevel.
  { destruct (truthy quiet).
    - apply (wp_perform (SetLevel QUIET)). by intros [[]|] u Hu.
    - apply (wp_perform (SetLevel INFO)). by intros [[]|] u Hu. }
  eapply wp_mono; [|exact Hlevel]. cbv beta.
  intros [[]|e] tr Htr; [|done]. rewrite (Htr tt eq_refl).
  apply wp_lift_bind. unfold getitem at 1.
  destruct (<["max-depth" := depth]> cli !! "input") as [input|] eqn:Hin; [|done].
  apply wp_lift_bind.
  destruct (getitem _ "output") as [output|] eqn:Hout; [|done].
  apply wp_lift_bind.
  destruct (getitem _ "include-filter") as [include|] eqn:Hinc; [|done].
  apply wp_lift_bind. destruct (iter include) as [incl|] eqn:Hincl; [|done].
  apply wp_lift_bind.
  destruct (getitem _ "exclude-filter") as [exclude|] eqn:Hexc; [|done].
  apply wp_lift_bind. destruct (iter exclude) as [excl|] eqn:Hexcl; [|done].
  intros cli' fi fe [= <- <- <-].
  exists no_recursion, depth, quiet, input, output, incl, excl.
  repeat split; try done.
  - unfold getitem in Hout. rewrite lookup_if_insert_ne' in Hout by done.
    destruct (<["max-depth" := depth]> cli !! "output"); [|done]. by injection Hout as ->.
  - cbv zeta. rewrite Hinc. cbn. exact Hincl.
  - cbv zeta. rewrite Hexc. cbn. exact Hexcl.
Qed.

Lemma run_wp {A} (p : prog A) Q {W} (respond : ∀ c : call, W → result (resp c) * W)
    w out w' tr :
  wp p Q → run respond p w = (out, w', tr) → Q out tr.
Proof. intros Hp Hrun. pose proof (wp_run p Q respond w Hp) as H. by rewrite Hrun in H. Qed.

(** X3: with [--no-recursion] the depth handed on is 0, whatever
    [--max-depth] says; without it the depth is the integer value of
    [--max-depth], or infinity when that option is not given. *)
Theorem prepare_max_depth (X : externals) cli {W : Type}
    (respond : ∀ c : call, W → result (resp c) * W) (w w' : W) cli' fi fe tr
    no_recursion :
  cli !! "no-recursion" = Some no_recursion →
  run respond (prepare X cli) w = (Ok (cli', fi, fe), w', tr) →
  if truthy no_recursion then cli' !! "max-depth" = Some (VInt 0)
  else ∃ max_depth, cli !! "max-depth" = Some max_depth
       ∧ if truthy max_depth
         then ∃ n, int max_depth = Ok n ∧ cli' !! "max-depth" = Some (VInt n)
         else cli' !! "max-depth" = Some VInf.
Proof.
  intros Hnr Hrun.
  destruct (run_wp _ _ respond w _ w' tr (wp_prepare X cli) Hrun cli' fi fe eq_refl)
    as (nr & depth & quiet & input & output & include & exclude
        & Hnr' & Hdepth & _ & _ & _ & _ & -> & _).
  rewrite Hnr in Hnr'. injection Hnr' as <-.
  assert ((let c := <["max-depth" := depth]> cli in
           let c := if truthy input then c else <["input" := VStrs [getcwd X]]> c in
           if truthy output then c else <["output" := VStr (getcwd X)]> c) !! "max-depth"
          = Some depth) as Hlookup.
  { cbv zeta. rewrite !lookup_if_insert_ne' by done. apply lookup_insert_eq. }
  rewrite Hlookup. destruct (truthy no_recursion); [by subst|].
  destruct Hdepth as (max_depth & Hmd & Hd). exists max_depth. split; [done|].
  destruct (truthy max_depth); [|by subst].
  destruct Hd as (n & Hn & ->). by exists n.
Qed.

Lemma prepare_max_depth_witness :
  cli_no_recursion_prepared !! "max-depth" = Some (VInt 0).
Proof.
  apply (prepare_max_depth example_externals cli_no_recursion
           (respond_with (example_answers true ([], [], []))) tt tt
           cli_no_recursion_prepared [["artist"; "Mu:se"]] []
           [Ev (SetLevel 20) (Ok tt)] (VBool true)).
  - reflexivity.
  - lazymatch goal with |- _ = ?y => vm_cast_no_check (eq_refl y) end.
Defined.

(** X4: a [--max-depth] that is not an integer stops the script with the
    exception of [int] before it has made any call, unless
    [--no-recursion] is given. *)
Theorem prepare_invalid_max_depth (X : externals) cli {W : Type}
    (respond : ∀ c : call, W → result (resp c) * W) (w : W) no_recursion max_depth e :
  cli !! "no-recursion" = Some no_recursion → truthy no_recursion = false →
  cli !! "max-depth" = Some max_depth → truthy max_depth = true →
  int max_depth = Err e →
  run respond (prepare X cli) w = (Err e, w, []).
Proof.
  intros Hnr Htnr Hmd Htmd He. unfold prepare, getitem.
  rewrite Hnr. cbn [lift mbind prog_bind pbind]. rewrite Htnr.
  rewrite Hmd. cbn [lift mbind prog_bind pbind]. rewrite Htmd, He. reflexivity.
Qed.

Lemma prepare_invalid_max_depth_witness :
  run (respond_with (example_answers true ([], [], [])))
      (prepare example_externals (<["max-depth" := VStr "deep"]> cli_up)) tt
  = (Err ValueError, tt, []).
Proof.
  apply (prepare_invalid_max_depth example_externals _ _ tt (VBool false) (VStr "deep"));
    reflexivity.
Defined.

(** X5: the defaults. After [prepare], [input] is the list given on the
    command line or, when that is empty, the list with the current
    directory; [output] is the given name or the current directory; every
    key other than [max-depth], [input] and [output] is as docopt left
    it. *)
Theorem prepare_defaults (X : externals) cli {W : Type}
    (respond : ∀ c : call, W → result (resp c) * W) (w w' : W) cli' fi fe tr
    input output :
  cli !! "input" = Some input → cli !! "output" = Some output →
  run respond (prepare X cli) w = (Ok (cli', fi, fe), w', tr) →
  cli' !! "input" = Some (if truthy input then input else VStrs [getcwd X])
  ∧ cli' !! "output" = Some (if truthy output then output else VStr (getcwd X))
  ∧ ∀ k, k ≠ "max-depth" → k ≠ "input" → k ≠ "output" → cli' !! k = cli !! k.
Proof.
  intros Hin Hout Hrun.
  destruct (run_wp _ _ respond w _ w' tr (wp_prepare X cli) Hrun cli' fi fe eq_refl)
    as (nr & depth & quiet & input' & output' & include & exclude
        & _ & _ & _ & _ & Hin' & Hout' & -> & _).
  rewrite lookup_insert_ne in Hin', Hout' by done.
  rewrite Hin in Hin'. rewrite Hout in Hout'. injection Hin' as <-. injection Hout' as <-.
  cbv zeta. repeat split.
  - rewrite lookup_if_insert_ne' by done.
    destruct (truthy input); [by rewrite lookup_insert_ne|by rewrite lookup_insert_eq].
  - destruct (truthy output); [|by rewrite lookup_insert_eq].
    by rewrite lookup_if_insert_ne', lookup_insert_ne.
  - intros k H1 H2 H3. by rewrite !lookup_if_insert_ne', lookup_insert_ne.
Qed.

Lemma prepare_defaults_witness :
  cli_no_recursion_prepared !! "input" = Some (VStrs ["/music"])
  ∧ cli_no_recursion_prepared !! "output" = Some (VStr "/music")
  ∧ ∀ k, k ≠ "max-depth" → k ≠ "input" → k ≠ "output" →
         cli_no_recursion_prepared !! k = cli_no_recursion !! k.
Proof.
  apply (prepare_defaults example_externals cli_no_recursion
           (respond_with (example_answers true ([], [], []))) tt tt
           cli_no_recursion_prepared [["artist"; "Mu:se"]] []
           [Ev (SetLevel 20) (Ok tt)] (VStrs []) VNone).
  - reflexivity.
  - reflexivity.
  - by_evaluation.
Defined.

Lemma split_once_spec (sep : ascii) (s : string) :
  (match (split_once sep s).2 with
   | None => s = (split_once sep s).1
   | Some rest => s = (split_once sep s).1 +:+ String sep rest
   end)
  ∧ ∀ x y, (split_once sep s).1 ≠ x +:+ String sep y.
Proof.
  induction s as [|c s [IH1 IH2]]; cbn [split_once].
  - split; [done|]. by intros [|] y.
  - destruct (Ascii.eqb c sep) eqn:Hc.
    + apply Ascii.eqb_eq in Hc as ->. split; [done|]. by intros [|] y.
    + destruct (split_once sep s) as [a b]. cbn in *. split.
      * destruct b; [by rewrite append_cons, <- IH1|by rewrite <- IH1].
      * intros [|c' x] y; rewrite ?append_cons.
        -- intros [= -> _]. by rewrite Ascii.eqb_refl in Hc.
        -- intros [= _ Ha]. by apply (IH2 x y).
Qed.

(** X6: every include and exclude filter is cut at its first colon only:
    the pieces, joined with a colon, are the filter as it was typed; there
    are one or two of them, and the first holds no colon. *)
Theorem prepare_filters (X : externals) cli {W : Type}
    (respond : ∀ c : call, W → result (resp c) * W) (w w' : W) cli' fi fe tr
    include exclude :
  cli !! "include-filter" = Some (VStrs include) →
  cli !! "exclude-filter" = Some (VStrs exclude) →
  run respond (prepare X cli) w = (Ok (cli', fi, fe), w', tr) →
  let cut_once (typed : string) (pieces : list string) :=
    String.concat ":" pieces = typed
    ∧ (length pieces = 1 ∨ length pieces = 2)%nat
    ∧ ∀ first, head pieces = Some first → ∀ x y, first ≠ x +:+ String ":" y in
  Forall2 cut_once include fi ∧ Forall2 cut_once exclude fe.
Proof.
  intros Hinc Hexc Hrun cut_once.
  assert (∀ l, Forall2 cut_once l (map (split1 ":") l)) as Hcut.
  { induction l as [|f l IH]; constructor; [|done].
    unfold cut_once, split1. destruct (split_once_spec ":" f) as [H1 H2].
    destruct (split_once ":" f) as [a [b|]]; cbn in *.
    - split; [by rewrite H1|]. split; [by right|]. by intros ? [= <-].
    - split; [done|]. split; [by left|]. by intros ? [= <-]. }
  destruct (run_wp _ _ respond w _ w' tr (wp_prepare X cli) Hrun cli' fi fe eq_refl)
    as (nr & depth & quiet & input' & output' & incl & excl
        & _ & _ & _ & _ & _ & _ & -> & Hi & He & -> & ->).
  cbv zeta in Hi, He. unfold getitem in Hi, He.
  rewrite !lookup_if_insert_ne', lookup_insert_ne in Hi, He by done.
  rewrite Hinc in Hi. rewrite Hexc in He. cbn in Hi, He.
  injection Hi as <-. injection He as <-. by split.
Qed.

Lemma prepare_filters_witness :
  Forall2 (λ typed pieces,
             String.concat ":" pieces = typed
             ∧ (length pieces = 1 ∨ length pieces = 2)%nat
             ∧ ∀ first, head pieces = Some first → ∀ x y, first ≠ x +:+ String ":" y)
          ["artist:Mu:se"] [["artist"; "Mu:se"]]
  ∧ Forall2 (λ typed pieces,
             String.concat ":" pieces = typed
             ∧ (length pieces = 1 ∨ length pieces = 2)%nat
             ∧ ∀ first, head pieces = Some first → ∀ x y, first ≠ x +:+ String ":" y)
          [] [].
Proof.
  apply (prepare_filters example_externals cli_no_recursion
           (respond_with (example_answers true ([], [], []))) tt tt
           cli_no_recursion_prepared [["artist"; "Mu:se"]] []
           [Ev (SetLevel 20) (Ok tt)] ["artist:Mu:se"] []).
  - reflexivity.
  - reflexivity.
  - by_evaluation.
Defined.

(** ** Further properties: the lookup dictionaries and the resolution *)

Lemma songs_to_dict_Ok (d : gmap value song) s k :
  identity_key s = Ok k → songs_to_dict d s = Ok (<[k := s]> d).
Proof.
  unfold identity_key, songs_to_dict. intros (id & -> & Hk)%bind_Ok. cbn. by rewrite Hk.
Qed.

Lemma songs_to_dict_inv (d d' : gmap value song) s :
  songs_to_dict d s = Ok d' → ∃ k, identity_key s = Ok k ∧ d' = <[k := s]> d.
Proof.
  unfold identity_key, songs_to_dict.
  intros (id & Hid & (k & Hk & [= <-])%bind_Ok)%bind_Ok. exists k. split; [|done].
  rewrite Hid. cbn. exact Hk.
Qed.

Lemma reduce_songs_to_dict_lookup songs : ∀ d0 d k,
  reduce songs_to_dict songs d0 = Ok d →
  d !! k = match last_with_key k songs with Some s => Some s | None => d0 !! k end.
Proof.
  unfold last_with_key.
  induction songs as [|s songs IH]; intros d0 d k Hr.
  - by injection Hr as <-.
  - cbn [reduce] in Hr. apply bind_Ok in Hr as (d1 & (k0 & Hk0 & ->)%songs_to_dict_inv & Hr).
    rewrite (IH _ _ k Hr). rewrite filter_cons.
    destruct (decide (identity_key s = Ok k)) as [Hs|Hs].
    + assert (k0 = k) as -> by congruence. rewrite lookup_insert_eq.
      rewrite last_cons. by destruct (last _).
    + rewrite lookup_insert_ne by congruence. done.
Qed.

Lemma reduce_songs_to_dict_Ok songs : ∀ d0 keys,
  mapM identity_key songs = Ok keys → ∃ d, reduce songs_to_dict songs d0 = Ok d.
Proof.
  induction songs as [|s songs IH]; intros d0 keys Hk; [by eexists|].
  apply mapM_cons_Ok in Hk as (k & keys' & Hs & Hl & ->).
  cbn [reduce]. rewrite (songs_to_dict_Ok _ _ _ Hs). cbn. by eapply IH.
Qed.

Lemma reduce_songs_to_dict_keys songs : ∀ d0 d,
  reduce songs_to_dict songs d0 = Ok d → ∃ keys, mapM identity_key songs = Ok keys.
Proof.
  induction songs as [|s songs IH]; intros d0 d Hr; [by eexists|].
  cbn [reduce] in Hr. apply bind_Ok in Hr as (d1 & (k0 & Hk0 & ->)%songs_to_dict_inv & Hr).
  destruct (IH _ _ Hr) as [keys Hkeys]. exists (k0 :: keys).
  apply mapM_cons_Ok. by exists k0, keys.
Qed.

Lemma last_with_key_Some k songs s :
  last_with_key k songs = Some s → s ∈ songs ∧ identity_key s = Ok k.
Proof.
  unfold last_with_key. intros Hl. apply last_Some in Hl as [l Hl].
  assert (s ∈ filter (λ s, identity_key s = Ok k) songs) as Hin
    by (rewrite Hl; apply elem_of_app; right; by left).
  apply list_elem_of_filter in Hin. tauto.
Qed.

(** X7: the lookup built by [reduce(songs_to_dict, songs, {})] exists
    exactly when every song has a hashable identity key; it then holds
    the keys of the songs and nothing else, and under a key that several
    songs share it holds the last of them. *)
Theorem songs_to_dict_last_wins (songs : list song) :
  ((∃ d, reduce songs_to_dict songs ∅ = Ok d)
   ↔ ∃ keys, mapM identity_key songs = Ok keys)
  ∧ ∀ d, reduce songs_to_dict songs ∅ = Ok d →
      (∀ k, d !! k = last_with_key k songs)
      ∧ (∀ k, is_Some (d !! k) ↔ ∃ s, s ∈ songs ∧ identity_key s = Ok k)
      ∧ (∀ before s after k,
           songs = before ++ s :: after → identity_key s = Ok k →
           Forall (λ s', identity_key s' ≠ Ok k) after → d !! k = Some s).
Proof.
  split.
  - split; [intros [d Hd]; by eapply reduce_songs_to_dict_keys
           |intros [keys Hk]; by eapply reduce_songs_to_dict_Ok].
  - intros d Hd.
    assert (∀ k, d !! k = last_with_key k songs) as Hlookup.
    { intros k. rewrite (reduce_songs_to_dict_lookup _ _ _ k Hd), lookup_empty.
      by destruct (last_with_key k songs). }
    split; [exact Hlookup|]. split.
    + intros k. rewrite Hlookup. split.
      * intros [s Hs]. exists s. by apply last_with_key_Some.
      * intros (s & Hin & Hs). unfold last_with_key.
        destruct (last _) eqn:Hl; [by eexists|]. apply last_None in Hl.
        assert (s ∈ filter (λ s, identity_key s = Ok k) songs) as Hf
          by by apply list_elem_of_filter.
        rewrite Hl in Hf. by apply elem_of_nil in Hf.
    + intros before s after k -> Hs Hafter. rewrite Hlookup. unfold last_with_key.
      rewrite filter_app, filter_cons_True by done.
      assert (filter (λ s, identity_key s = Ok k) after = []) as ->.
      { clear -Hafter. induction Hafter as [|x l Hx _ IH]; [done|].
        by rewrite filter_cons_False. }
      by rewrite last_snoc.
Qed.

Lemma get_mmw_tracks_loop_inv d songs : ∀ tracks seen res,
  (∀ k, is_Some (seen !! k) → is_Some (d !! k)) →
  get_mmw_tracks_loop d songs tracks seen = Ok res →
  ∃ keys, mapM identity_key songs = Ok keys ∧ Forall (λ k, is_Some (d !! k)) keys.
Proof.
  induction songs as [|s songs IH]; intros tracks seen res Hseen Hres.
  - by exists [].
  - cbn [get_mmw_tracks_loop] in Hres.
    apply bind_Ok in Hres as (id & Hid & Hres). apply bind_Ok in Hres as (k & Hk & Hres).
    assert (identity_key s = Ok k) as Hs by (unfold identity_key; rewrite Hid; exact Hk).
    destruct (decide (is_Some (seen !! k))) as [Hsk|Hsk].
    + destruct (IH _ _ _ Hseen Hres) as (keys & Hkeys & Hall). exists (k :: keys).
      split; [apply mapM_cons_Ok; by exists k, keys|]. constructor; [by apply Hseen|done].
    + destruct (d !! k) as [t|] eqn:Hd; [|done].
      assert (∀ k', is_Some (<[k := true]> seen !! k') → is_Some (d !! k')) as Hseen'.
      { intros k'. rewrite lookup_insert. case_decide; [subst; by eexists|apply Hseen]. }
      destruct (IH _ _ _ Hseen' Hres) as (keys & Hkeys & Hall). exists (k :: keys).
      split; [apply mapM_cons_Ok; by exists k, keys|]. constructor; [by eexists|done].
Qed.

Lemma first_occurrences_NoDup_id {K} `{EqDecision K} (l : list K) :
  NoDup l → first_occurrences l = l.
Proof.
  induction 1 as [|x l Hx _ IH]; [done|]. cbn. rewrite IH. f_equal.
  clear IH. induction l as [|y l IH]; [done|].
  apply not_elem_of_cons in Hx as [Hxy Hx].
  rewrite filter_cons_True by done. by rewrite IH.
Qed.

Lemma Forall2_lookup_functional (d : gmap value song) keys ts ts' :
  Forall2 (λ k t, d !! k = Some t) keys ts →
  Forall2 (λ k t, d !! k = Some t) keys ts' → ts = ts'.
Proof.
  intros H. revert ts'. induction H as [|k t keys ts Hk _ IH]; intros ts' H'.
  - by apply Forall2_nil_inv_l in H'.
  - apply Forall2_cons_inv_l in H' as (t' & ts'' & Hk' & H' & ->).
    f_equal; [congruence|by apply IH].
Qed.

(** X8: resolution against the lookup of the google songs returns google
    songs only, never more tracks than entries, and is idempotent:
    resolving its own result gives that result again. *)
Theorem get_mmw_tracks_closed (google_songs entries tracks : list song)
    (tracks_dict : gmap value song) :
  reduce songs_to_dict google_songs ∅ = Ok tracks_dict →
  get_mmw_tracks tracks_dict entries = Ok tracks →
  (∀ t, t ∈ tracks → t ∈ google_songs)
  ∧ (length tracks ≤ length entries)%nat
  ∧ get_mmw_tracks tracks_dict tracks = Ok tracks.
Proof.
  intros Hd Hres.
  destruct (get_mmw_tracks_loop_inv tracks_dict entries [] ∅ tracks) as (keys & Hkeys & Hall);
    [intros k; rewrite lookup_empty; by intros [? ?]|exact Hres|].
  destruct (get_mmw_tracks_loop_resolved tracks_dict entries keys [] ∅ Hkeys Hall)
    as (ts & Hts & Hf).
  unfold get_mmw_tracks in Hres. rewrite Hts in Hres. injection Hres as <-.
  rewrite filter_unseen_empty in Hf. cbn [app] in *.
  assert (∀ k t, tracks_dict !! k = Some t → identity_key t = Ok k ∧ t ∈ google_songs) as Hval.
  { intros k t Hk.
    rewrite (reduce_songs_to_dict_lookup _ _ _ k Hd), lookup_empty in Hk.
    destruct (last_with_key k google_songs) as [s|] eqn:Hl; [|done].
    injection Hk as ->. apply last_with_key_Some in Hl. tauto. }
  split; [|split].
  - intros t Ht.
    clear -Hf Hval Ht. induction Hf as [|k t' ks ts' Hk _ IH]; [by apply elem_of_nil in Ht|].
    apply elem_of_cons in Ht as [->|Ht]; [by apply (Hval k)|by apply IH].
  - apply Forall2_length in Hf. rewrite <- Hf.
    assert (length keys = length entries) as <-.
    { clear -Hkeys. revert keys Hkeys. induction entries as [|e entries IH]; intros keys Hk.
      - by injection Hk as <-.
      - apply mapM_cons_Ok in Hk as (k & keys' & _ & Hl & ->). cbn. f_equal. by apply IH. }
    clear. induction keys as [|k keys IH]; [done|]. cbn.
    pose proof (length_filter (λ y, y ≠ k) (first_occurrences keys)). lia.
  - assert (mapM identity_key ts = Ok (first_occurrences keys)) as Hkeys'.
    { apply (identity_key_resolved tracks_dict); [|exact Hf]. intros k t Hk.
      by apply Hval. }
    assert (Forall (λ k, is_Some (tracks_dict !! k)) (first_occurrences keys)) as Hall'.
    { apply Forall_forall. intros k Hk. apply (proj1 (first_occurrences_elem _ _)) in Hk.
      rewrite Forall_forall in Hall. by apply Hall. }
    destruct (get_mmw_tracks_loop_resolved tracks_dict ts _ [] ∅ Hkeys' Hall')
      as (ts' & Hts' & Hf').
    rewrite filter_unseen_empty in Hf'.
    rewrite (first_occurrences_NoDup_id (first_occurrences keys)) in Hf'
      by apply first_occurrences_NoDup.
    unfold get_mmw_tracks. rewrite Hts'. cbn [app].
    by rewrite (Forall2_lookup_functional _ _ _ _ Hf Hf').
Qed.

Lemma get_mmw_tracks_closed_witness :
  (∀ t, t ∈ [mm_track "A" "a"; mm_track "B" "b"] →
        t ∈ [mm_track "A" "a"; mm_track "B" "b"; mm_track "C" "c"])
  ∧ (length [mm_track "A" "a"; mm_track "B" "b"] ≤ length [entry "A"; entry "B"; entry "A"])%nat
  ∧ get_mmw_tracks example_tracks_dict [mm_track "A" "a"; mm_track "B" "b"]
    = Ok [mm_track "A" "a"; mm_track "B" "b"].
Proof.
  apply (get_mmw_tracks_closed [mm_track "A" "a"; mm_track "B" "b"; mm_track "C" "c"]
           [entry "A"; entry "B"; entry "A"]).
  - by_evaluation.
  - by_evaluation.
Defined.

(** ** The identity key in the lookups *)

Lemma songid_fields (record : song) :
  songid record = match trackId_else_id record with
                  | Some v => Ok v
                  | None => Err (KeyError (VStr "id"))
                  end.
Proof.
  unfold songid, trackId_else_id, getitem.
  destruct (record !! "trackId") as [v|] eqn:Ht.
  - by rewrite decide_True by eauto.
  - rewrite decide_False by (by intros [? ?]). by destruct (record !! "id").
Qed.

Lemma identity_key_fields (record : song) k :
  identity_key record = Ok k ↔ lookup_key record = Some k.
Proof.
  unfold identity_key, lookup_key. rewrite songid_fields.
  destruct (trackId_else_id record) as [v|]; cbn; [|done].
  destruct (hashkey v); cbn; split; congruence.
Qed.

Lemma mapM_identity_key_fields songs keys :
  Forall2 (λ s k, lookup_key s = Some k) songs keys → mapM identity_key songs = Ok keys.
Proof.
  induction 1 as [|s k songs keys Hs _ IH]; [done|].
  apply mapM_cons_Ok. exists k, keys. by split; [apply identity_key_fields|].
Qed.

(** C10: the identity key of a remote song record is its [trackId] field
    when the record has one and its [id] field otherwise, and that is the
    key of every lookup. [songid] returns it; the dictionaries built with
    [songs_to_dict] hold, under a key, the last record of which it is the
    [trackId]-else-[id]; [get_mmw_tracks] looks each entry up under the
    [trackId]-else-[id] of the entry, raising [KeyError] with it when the
    dictionary has nothing there and returning what it has there at the
    first occurrence of each key otherwise; a playlist line is built from
    the artist, the title and the metadata of the song the dictionary
    holds under the [trackId]-else-[id] of the entry. *)
Theorem songid_precedence :
  (∀ record : song,
     songid record = match trackId_else_id record with
                     | Some v => Ok v
                     | None => Err (KeyError (VStr "id"))
                     end)
  ∧ (∀ (songs : list song) d, reduce songs_to_dict songs ∅ = Ok d →
       ∀ k, d !! k = last (filter (λ s, lookup_key s = Some k) songs))
  ∧ (∀ (d : gmap value song) (record : song) v k,
       trackId_else_id record = Some v → hashkey v = Ok k →
       get_mmw_tracks d [record]
       = match d !! k with Some t => Ok [t] | None => Err (KeyError v) end)
  ∧ (∀ (d : gmap value song) songs keys,
       Forall2 (λ s k, lookup_key s = Some k) songs keys →
       Forall (λ k, is_Some (d !! k)) keys →
       ∃ tracks, get_mmw_tracks d songs = Ok tracks
                 ∧ Forall2 (λ k t, d !! k = Some t) (first_occurrences keys) tracks)
  ∧ (∀ X cli (sd : gmap value song) outpath (record : song) v k,
       trackId_else_id record = Some v → hashkey v = Ok k →
       (sd !! k = None → m3u_entry X cli sd outpath record = Err (KeyError v))
       ∧ ∀ lines, m3u_entry X cli sd outpath record = Ok lines →
           ∃ s artist title duration metadata template,
             sd !! k = Some s
             ∧ s !! "artist" = Some (VStr artist) ∧ s !! "title" = Some (VStr title)
             ∧ metadata_from_mobile_client_song s = Ok metadata
             ∧ cli !! "output" = Some (VStr template)
             ∧ lines = ["#EXTINF," +:+ duration +:+ "," +:+ artist +:+ " - " +:+ title;
                        relpath X (template_to_filepath X template metadata +:+ ".mp3")
                          outpath]).
Proof.
  split; [exact songid_fields|]. split; [|split; [|split]].
  - intros songs d Hd k. rewrite (reduce_songs_to_dict_lookup songs ∅ d k Hd).
    unfold last_with_key. rewrite lookup_empty.
    rewrite (list_filter_iff (λ s, identity_key s = Ok k) (λ s, lookup_key s = Some k))
      by (intros s; apply identity_key_fields).
    by destruct (last _).
  - intros d record v k Hv Hk. unfold get_mmw_tracks. cbn [get_mmw_tracks_loop].
    rewrite songid_fields, Hv. cbn. rewrite Hk. cbn.
    rewrite decide_False by (rewrite lookup_empty; by intros [? ?]).
    by destruct (d !! k).
  - intros d songs keys Hk Hd.
    destruct (get_mmw_tracks_loop_resolved d songs keys [] ∅
                (mapM_identity_key_fields _ _ Hk) Hd) as (ts & Hts & Hf).
    rewrite filter_unseen_empty in Hf. by exists ts.
  - intros X cli sd outpath record v k Hv Hk. unfold m3u_entry.
    rewrite songid_fields, Hv. cbn. rewrite Hk. cbn. split.
    + by intros ->.
    + intros lines H. destruct (sd !! k) as [s|]; [|done]. cbn in H.
      apply bind_Ok in H as (artist & Hartist & H).
      apply bind_Ok in H as (title & Htitle & H).
      apply bind_Ok in H as (duration & _ & H).
      apply bind_Ok in H as (metadata & Hmetadata & H).
      apply bind_Ok in H as (output & Houtput & H).
      apply bind_Ok in H as (template & Htemplate & H).
      apply bind_Ok in H as (artist' & Hartist' & H).
      apply bind_Ok in H as (title' & Htitle' & H).
      injection H as <-.
      destruct artist; try done. destruct title; try done. destruct output; try done.
      injection Hartist' as <-. injection Htitle' as <-. injection Htemplate as <-.
      unfold getitem in Hartist, Htitle, Houtput.
      destruct (s !! "artist") as [?|] eqn:Ha; [injection Hartist as ->|done].
      destruct (s !! "title") as [?|] eqn:Ht; [injection Htitle as ->|done].
      destruct (cli !! "output") as [?|] eqn:Ho; [injection Houtput as ->|done].
      by eexists s, _, _, duration, metadata, _.
Qed.

(** An entry with both fields resolves under its [trackId], even when
    the dictionary has a song under its [id] as well; a record with an
    [id] only resolves under its [id]. *)
Lemma songid_precedence_witness :
  get_mmw_tracks (<[VStr "e-A" := mm_track "e-A" "x"]> example_tracks_dict) [entry "A"]
    = Ok [mm_track "A" "a"]
  ∧ get_mmw_tracks example_tracks_dict [entry "Z"] = Err (KeyError (VStr "Z"))
  ∧ get_mmw_tracks example_tracks_dict [mm_track "B" "b"] = Ok [mm_track "B" "b"].
Proof.
  destruct songid_precedence as (_ & _ & H & _). split; [|split].
  - etrans; [exact (H _ (entry "A") (VStr "A") (VStr "A") eq_refl eq_refl)|by_evaluation].
  - etrans; [exact (H _ (entry "Z") (VStr "Z") (VStr "Z") eq_refl eq_refl)|by_evaluation].
  - etrans; [exact (H _ (mm_track "B" "b") (VStr "B") (VStr "B") eq_refl eq_refl)
            |by_evaluation].
Defined.

(** ** Further properties: [removeEmptyFolders] *)

Section TraceInvariant.
(** A property of traces that holds of the empty trace and of the
    concatenation of two traces that have it holds of a program when it
    holds of its parts. *)
Context (R : list event → Prop).
Hypothesis R_nil : R [].
Hypothesis R_app : ∀ tr1 tr2, R tr1 → R tr2 → R (tr1 ++ tr2).

Lemma always_bind {A B} (p : prog A) (f : A → prog B) :
  wp p (λ _ tr, R tr) → (∀ a, wp (f a) (λ _ tr, R tr)) → wp (p ≫= f) (λ _ tr, R tr).
Proof.
  intros Hp Hf. apply wp_bind. eapply wp_mono; [|exact Hp].
  intros [a|e] tr Htr; [|done]. eapply wp_mono; [|apply Hf].
  intros out tr' Htr'. by apply R_app.
Qed.

Lemma always_for_each {A} (l : list A) (body : A → prog unit) :
  (∀ x, wp (body x) (λ _ tr, R tr)) → wp (for_each l body) (λ _ tr, R tr).
Proof.
  intros Hb. induction l as [|x l IH]; [exact R_nil|].
  cbn [for_each]. apply always_bind; [apply Hb|]. by intros [].
Qed.

Lemma always_perform (c : call) : (∀ r, R [Ev c r]) → wp (perform c) (λ _ tr, R tr).
Proof. intros H. by apply wp_perform. Qed.
End TraceInvariant.

Lemma cons_event_inv (e e' : event) l l' :
  e :: l = e' :: l' → event_call e = event_call e' ∧ e = e' ∧ l = l'.
Proof. by intros [= -> ->]. Qed.

Lemma rmdir_after_empty_listing_nil : rmdir_after_empty_listing [].
Proof. intros pre p r post H. by destruct pre. Qed.

Lemma rmdir_after_empty_listing_app tr1 tr2 :
  rmdir_after_empty_listing tr1 → rmdir_after_empty_listing tr2 →
  rmdir_after_empty_listing (tr1 ++ tr2).
Proof.
  intros H1 H2 pre p r post Heq.
  apply app_eq_inv in Heq as [(k & -> & Hk)|(k & -> & Hk)].
  - destruct k as [|e k].
    + cbn in Hk. destruct (H2 [] p r post) as [pre' Hpre]; [done|].
      by destruct pre' as [|? [|? ?]].
    + injection Hk as <- ->. by apply (H1 pre p r k).
  - destruct (H2 k p r post Hk) as [pre' ->]. exists (tr1 ++ pre'). by rewrite app_assoc.
Qed.

Lemma rmdir_after_empty_listing_other c r :
  is_rmdir c = false → rmdir_after_empty_listing [Ev c r].
Proof.
  intros Hc pre p r' post Heq. destruct pre as [|e pre].
  - apply cons_event_inv in Heq as (Heq & _ & _). cbn in Heq. by subst.
  - apply cons_event_inv in Heq as (_ & _ & Heq). by destruct pre.
Qed.

Lemma rmdir_after_empty_listing_cons c r tr :
  is_rmdir c = false → rmdir_after_empty_listing tr → rmdir_after_empty_listing (Ev c r :: tr).
Proof.
  intros Hc Htr.
  apply (rmdir_after_empty_listing_app [Ev c r] tr);
    [by apply rmdir_after_empty_listing_other|done].
Qed.

Lemma rmdir_after_empty_listing_rmdir p rp r :
  rmdir_after_empty_listing
    (Ev (Listdir p) (Ok []) :: Ev (Print ("Removing empty folder: " +:+ p)) rp
       :: match rp with Ok _ => [Ev (Rmdir p) r] | Err _ => [] end).
Proof.
  intros pre p' r' post Heq.
  destruct pre as [|e1 [|e2 pre]]; cbn in Heq.
  - by apply cons_event_inv in Heq as (? & _ & _).
  - apply cons_event_inv in Heq as (_ & _ & Heq).
    by apply cons_event_inv in Heq as (? & _ & _).
  - apply cons_event_inv in Heq as (_ & <- & Heq).
    apply cons_event_inv in Heq as (_ & <- & Heq).
    destruct rp as [[]|e]; [|by destruct pre].
    destruct pre as [|e3 pre]; cbn in Heq.
    + apply cons_event_inv in Heq as ([= <-] & _ & _). by exists [].
    + apply cons_event_inv in Heq as (_ & _ & Heq). by destruct pre.
Qed.

Lemma wp_removeEmptyFolders depth : ∀ path removeRoot,
  wp (removeEmptyFolders depth path removeRoot) (λ _ tr, rmdir_after_empty_listing tr).
Proof.
  pose proof rmdir_after_empty_listing_nil as Hnil.
  pose proof rmdir_after_empty_listing_app as Happ.
  induction depth as [|depth IH]; intros path removeRoot; cbn [removeEmptyFolders].
  - exact Hnil.
  - apply always_bind; [done..| |].
    { apply always_perform. intros r. by apply rmdir_after_empty_listing_other. }
    intros d. destruct d; cbn [negb]; [|exact Hnil].
    apply always_bind; [done..| |].
    { apply always_perform. intros r. by apply rmdir_after_empty_listing_other. }
    intros files. apply always_bind; [done..| |].
    { apply always_for_each; [done..|]. intros f. apply always_bind; [done..| |].
      - apply always_perform. intros r. by apply rmdir_after_empty_listing_other.
      - intros []; [apply IH|exact Hnil]. }
    intros _. apply wp_perform_bind. intros [files'|e].
    2: { by apply rmdir_after_empty_listing_other. }
    destruct (bool_decide _) eqn:Hempty; cbn [andb].
    2: { exact (rmdir_after_empty_listing_other (Listdir path) _ eq_refl). }
    apply bool_decide_eq_true in Hempty as ->.
    destruct removeRoot.
    2: { exact (rmdir_after_empty_listing_other (Listdir path) _ eq_refl). }
    apply wp_perform_bind. intros [[]|e].
    + apply wp_perform. intros r.
      apply (rmdir_after_empty_listing_rmdir path (Ok tt) r).
    + apply (rmdir_after_empty_listing_rmdir path (Err e) (Ok tt)).
Qed.

(** X9: [removeEmptyFolders] removes a directory only right after it has
    listed it, found the listing empty and printed the removal: in every
    run, each [os.rmdir(p)] is preceded by an empty [os.listdir(p)] and
    the message for [p]. *)
Theorem removeEmptyFolders_rmdir_after_empty_listing depth path removeRoot {W : Type}
    (respond : ∀ c : call, W → result (resp c) * W) (w : W) pre p r post :
  (run respond (removeEmptyFolders depth path removeRoot) w).2
    = pre ++ Ev (Rmdir p) r :: post →
  ∃ pre', pre = pre' ++ [Ev (Listdir p) (Ok []);
                         Ev (Print ("Removing empty folder: " +:+ p)) (Ok tt)].
Proof.
  intros Htr.
  exact (wp_run _ _ respond w (wp_removeEmptyFolders depth path removeRoot) pre p r post Htr).
Qed.

Lemma removeEmptyFolders_rmdir_after_empty_listing_witness :
  let tr := (run respond_fs (removeEmptyFolders 5 "/music" false) example_fs).2 in
  tr = take 7 tr ++ Ev (Rmdir "/music/a") (Ok tt) :: drop 8 tr
  ∧ ∃ pre', take 7 tr
            = pre' ++ [Ev (Listdir "/music/a") (Ok []);
                       Ev (Print ("Removing empty folder: " +:+ "/music/a")) (Ok tt)].
Proof.
  intros tr. assert (tr = take 7 tr ++ Ev (Rmdir "/music/a") (Ok tt) :: drop 8 tr) as Htr
    by (by_evaluation).
  split; [exact Htr|].
  exact (removeEmptyFolders_rmdir_after_empty_listing 5 "/music" false respond_fs example_fs
           (take 7 tr) "/music/a" (Ok tt) (drop 8 tr) Htr).
Defined.

(** ** Further properties: [--dry-run] *)

Lemma never_weaken (P P' : call → bool) {A} (p : prog A) :
  (∀ c, P' c = true → P c = true) → never P p → never P' p.
Proof.
  intros HP Hp. eapply wp_mono; [|exact Hp]. intros out tr Htr. cbv beta in Htr.
  eapply Forall_impl; [exact Htr|]. intros e He. cbv beta in He.
  destruct (P' (event_call e)) eqn:HP'; [|done]. apply HP in HP'. congruence.
Qed.

Lemma never_lift_bind (P : call → bool) {A B} (r : result A) (f : A → prog B) :
  match r with Ok a => never P (f a) | Err _ => True end → never P (lift r ≫= f).
Proof. destruct r; [done|]. intros _. apply never_raise. Qed.

Lemma wp_and {A} (p : prog A) (Q1 Q2 : result A → list event → Prop) :
  wp p Q1 → wp p Q2 → wp p (λ out tr, Q1 out tr ∧ Q2 out tr).
Proof.
  revert Q1 Q2. induction p as [a|e|c k IH]; intros Q1 Q2 H1 H2; [done..|].
  intros r. apply (IH r _ _ (H1 r) (H2 r)).
Qed.

Lemma getitem_Some (d : gmap string value) k v : d !! k = Some v → getitem d k = Ok v.
Proof. intros H. unfold getitem. by rewrite H. Qed.

Section DryRun.
Context (X : externals) (cli : gmap string value) (dry : value).
Hypothesis Hdry : cli !! "dry-run" = Some dry.
Hypothesis Htruthy : truthy dry = true.

Lemma only_logs_download_songs songs :
  never (λ c, negb (is_log c)) (download_songs cli songs).
Proof.
  unfold download_songs. apply never_lift_bind. rewrite (getitem_Some _ _ _ Hdry).
  rewrite Htruthy. never_solve.
Qed.

Lemma only_logs_report_or_upload up f e m :
  never (λ c, negb (is_log c)) (report_or_upload cli up f e m).
Proof.
  unfold report_or_upload, log_each. apply never_lift_bind.
  rewrite (getitem_Some _ _ _ Hdry). rewrite Htruthy. never_solve.
Qed.

Lemma only_logs_create_playlist_file sd name songs outpath :
  never (λ c, negb (is_log c)) (create_playlist_file X cli sd name songs outpath).
Proof.
  unfold create_playlist_file. apply never_bind; [apply never_lift|]. intros file.
  apply never_lift_bind. rewrite (getitem_Some _ _ _ Hdry). rewrite Htruthy. never_solve.
Qed.

Lemma dry_run_download_missing songs :
  never transfers_or_writes (download_missing_google_songs X cli songs).
Proof.
  unfold download_missing_google_songs.
  repeat first
    [ apply (never_weaken (λ c, negb (is_log c))), only_logs_download_songs; by intros []
    | never_step ].
Qed.

Lemma dry_run_create_playlist_file sd name songs outpath :
  never transfers_or_writes (create_playlist_file X cli sd name songs outpath).
Proof.
  apply (never_weaken (λ c, negb (is_log c))), only_logs_create_playlist_file. by intros [].
Qed.

Lemma dry_run_sync_up inc exc : never transfers_or_writes (sync_up X cli inc exc).
Proof.
  unfold sync_up.
  repeat first
    [ apply (never_weaken (λ c, negb (is_log c))), only_logs_report_or_upload; by intros []
    | never_step ].
Qed.
End DryRun.

Lemma dry_run_sync_down (X : externals) cli dry inc exc :
  cli !! "dry-run" = Some dry → truthy dry = true →
  never transfers_or_writes (sync_down X cli inc exc).
Proof.
  intros Hdry Htruthy. unfold sync_down.
  apply never_bind; [never_solve|]. intros ai.
  apply never_bind; [never_solve|]. intros ae.
  apply never_bind; [never_solve|]. intros [gm gf].
  apply never_bind; [never_solve|]. intros output.
  apply never_bind; [never_solve|]. intros base.
  assert (<["input" := VStrs [base]]> cli !! "dry-run" = Some dry) as Hdry'
    by by rewrite lookup_insert_ne.
  unfold move_removed_songs, sync_playlists.
  repeat first
    [ by eapply dry_run_download_missing
    | by eapply dry_run_create_playlist_file
    | by apply never_removeEmptyFolders
    | never_step ].
Qed.

(** X10: under [--dry-run] the three places that act on the result of a
    comparison only report it: [download_songs], the reporting part of the
    [up] branch and [create_playlist_file] make no call but to the
    logger. *)
Theorem dry_run_only_logs (X : externals) cli dry :
  cli !! "dry-run" = Some dry → truthy dry = true →
  (∀ songs, never (λ c, negb (is_log c)) (download_songs cli songs))
  ∧ (∀ up f e m, never (λ c, negb (is_log c)) (report_or_upload cli up f e m))
  ∧ (∀ sd name songs outpath,
       never (λ c, negb (is_log c)) (create_playlist_file X cli sd name songs outpath)).
Proof.
  intros Hdry Htruthy. split; [|split]; intros.
  - by eapply only_logs_download_songs.
  - by eapply only_logs_report_or_upload.
  - by eapply only_logs_create_playlist_file.
Qed.

Lemma dry_run_only_logs_witness :
  (∀ songs, never (λ c, negb (is_log c)) (download_songs cli_up_dry_run songs))
  ∧ (∀ up f e m, never (λ c, negb (is_log c)) (report_or_upload cli_up_dry_run up f e m))
  ∧ (∀ sd name songs outpath,
       never (λ c, negb (is_log c))
         (create_playlist_file example_externals cli_up_dry_run sd name songs outpath)).
Proof.
  apply (dry_run_only_logs example_externals cli_up_dry_run (VBool true)).
  - by_evaluation.
  - reflexivity.
Defined.

Lemma prepare_keeps (X : externals) cli k :
  k ≠ "max-depth" → k ≠ "input" → k ≠ "output" →
  wp (prepare X cli) (λ out tr,
    Forall (λ e, is_set_level (event_call e) = true) tr
    ∧ ∀ cli' fi fe, out = Ok (cli', fi, fe) → cli' !! k = cli !! k).
Proof.
  intros H1 H2 H3.
  eapply wp_mono; [|apply (wp_and _ _ _ (only_set_level_prepare X cli) (wp_prepare X cli))].
  intros out tr [Hcalls Hout]. split.
  - eapply Forall_impl; [exact Hcalls|]. intros e He. cbv beta in He.
    by destruct (is_set_level (event_call e)).
  - intros cli' fi fe Hcli.
    destruct (Hout cli' fi fe Hcli)
      as (nr & depth & quiet & input & output & include & exclude
          & _ & _ & _ & _ & _ & _ & -> & _).
    cbv zeta. rewrite !lookup_if_insert_ne' by done. by rewrite lookup_insert_ne.
Qed.

Lemma dry_run_authenticate (X : externals) cli :
  never transfers_or_writes (authenticate X cli).
Proof.
  unfold authenticate, login_mobile_client_from_cache, use_stored_credentials,
    login_mobile_client.
  never_solve.
Qed.

(** X11: a run of [main] from line 186 on with [--dry-run] downloads
    nothing, uploads nothing, deletes no file and writes no playlist
    file, in the [up] branch and in the [down] branch alike. *)
Theorem dry_run_transfers_nothing (X : externals) cli dry {W : Type}
    (respond : ∀ c : call, W → result (resp c) * W) (w : W) :
  cli !! "dry-run" = Some dry → truthy dry = true →
  Forall (λ e, transfers_or_writes (event_call e) = false)
    (run respond (main_body X cli) w).2.
Proof.
  intros Hdry Htruthy.
  apply (wp_run (main_body X cli)
           (λ _ tr, Forall (λ e, transfers_or_writes (event_call e) = false) tr)).
  unfold main_body. apply wp_bind.
  eapply wp_mono; [|apply (prepare_keeps X cli "dry-run"); done].
  intros out tr [Hcalls Hout].
  assert (Forall (λ e, transfers_or_writes (event_call e) = false) tr) as Htr.
  { eapply Forall_impl; [exact Hcalls|]. intros e He. cbv beta in He.
    by destruct (event_call e). }
  destruct out as [[[cli' fi] fe]|e]; [|done].
  specialize (Hout cli' fi fe eq_refl). rewrite Hdry in Hout.
  assert (never transfers_or_writes
            (_ ← authenticate X cli' ;
             down ← lift (getitem cli' "down") ;
             _ ← (if truthy down then sync_down X cli' fi fe else sync_up X cli' fi fe) ;
             _ ← perform MmwLogout ;
             _ ← perform McwLogout ;
             perform (Log INFO (nl +:+ "All done!")))) as Hrest.
  { repeat first
      [ apply dry_run_authenticate
      | by eapply dry_run_sync_down
      | by eapply dry_run_sync_up
      | never_step ]. }
  eapply wp_mono; [|exact Hrest]. intros out' tr' Htr'. by apply Forall_app.
Qed.

Lemma dry_run_transfers_nothing_witness :
  Forall (λ e, transfers_or_writes (event_call e) = false)
    (run (respond_with (example_answers true (["b.mp3"; "a.mp3"], [], [])))
         (main_body example_externals cli_up_dry_run) tt).2.
Proof.
  apply (dry_run_transfers_nothing example_externals cli_up_dry_run (VBool true)).
  - by_evaluation.
  - reflexivity.
Defined.

(** ** Further properties: removed-file detection and [--dry-run] *)

Lemma run_bind {A B} {W} (respond : ∀ c : call, W → result (resp c) * W)
    (p : prog A) (f : A → prog B) w :
  run respond (p ≫= f) w
  = match run respond p w with
    | (Ok a, w', tr) =>
        let '(out, w'', tr') := run respond (f a) w' in (out, w'', tr ++ tr')
    | (Err e, w', tr) => (Err e, w', tr)
    end.
Proof.
  revert w. induction p as [a|e|c k IH]; intros w.
  - cbn. by destruct (run respond (f a) w) as [[? ?] ?].
  - done.
  - change (run respond (Call c k ≫= f) w)
      with (let '(r, w') := respond c w in
            let '(out, w'', tr) := run respond (k r ≫= f) w' in (out, w'', Ev c r :: tr)).
    cbn [run]. destruct (respond c w) as [r w']. rewrite IH.
    destruct (run respond (k r) w') as [[[a|e] w''] tr]; [|done].
    by destruct (run respond (f a) w'') as [[? ?] ?].
Qed.

(** Two programs with the same runs in every environment. *)
Lemma same_runs_bind {A B} {W} (respond : ∀ c : call, W → result (resp c) * W)
    (p q : prog A) (f g : A → prog B) :
  (∀ w, run respond p w = run respond q w) →
  (∀ a w, run respond (f a) w = run respond (g a) w) →
  ∀ w, run respond (p ≫= f) w = run respond (q ≫= g) w.
Proof.
  intros Hp Hf w. rewrite !run_bind, Hp.
  destruct (run respond q w) as [[[a|e] w'] tr]; [|done]. by rewrite Hf.
Qed.

Lemma same_runs_for_each {A} {W} (respond : ∀ c : call, W → result (resp c) * W)
    (l : list A) (f g : A → prog unit) :
  (∀ a w, run respond (f a) w = run respond (g a) w) →
  ∀ w, run respond (for_each l f) w = run respond (for_each l g) w.
Proof.
  intros Hf. induction l as [|x l IH]; intros w; [done|].
  cbn [for_each]. apply same_runs_bind; [apply Hf|]. intros _. apply IH.
Qed.

Lemma getitem_insert_ne (d : gmap string value) k k' v :
  k ≠ k' → getitem (<[k := v]> d) k' = getitem d k'.
Proof. intros Hk. unfold getitem. by rewrite lookup_insert_ne. Qed.

(** X12: removed-file detection does not look at [--dry-run]: the block
    of lines 259-280 makes the same calls and moves the same files
    whatever [cli['dry-run']] holds. *)
Theorem move_removed_songs_ignores_dry_run (X : externals) cli v gm gf {W : Type}
    (respond : ∀ c : call, W → result (resp c) * W) (w : W) :
  run respond (move_removed_songs X (<["dry-run" := v]> cli) gm gf) w
  = run respond (move_removed_songs X cli gm gf) w.
Proof.
  revert w. unfold move_removed_songs.
  repeat first
    [ reflexivity
    | rewrite getitem_insert_ne by done
    | apply same_runs_for_each; intros ? ?
    | apply same_runs_bind; [intros ?|intros ? ?]
    | intros ? ].
Qed.

(** Under [--dry-run] the files that are missing from Google Music are
    moved all the same. *)
Example dry_run_moves_removed_songs :
  moved (run (respond_with (example_answers true (["x.mp3"; "old.mp3"], [], [])))
             (move_removed_songs example_externals
                (<["dry-run" := VBool true]> cli_down_removed) [titled "x"] [])
             tt).2
  = ["old.mp3"].
Proof. by_evaluation. Qed.

(** ** Further properties: what is downloaded *)

Lemma only_logs_trace tr :
  Forall (λ e, negb (is_log (event_call e)) = false) tr →
  local_songs_fetched tr = [] ∧ download_requests tr = [].
Proof.
  induction 1 as [|[c r] tr Hc _ [IH1 IH2]]; [done|].
  unfold local_songs_fetched, download_requests in *. cbn [omap list_omap] in *.
  rewrite IH1, IH2. by destruct c.
Qed.

Lemma wp_download_songs cli l :
  wp (download_songs cli l) (λ _ tr,
    local_songs_fetched tr = []
    ∧ (download_requests tr = []
       ∨ ∃ template dry,
           download_requests tr = [(l, template)] ∧ l ≠ []
           ∧ cli !! "output" = Some template
           ∧ cli !! "dry-run" = Some dry ∧ truthy dry = false)).
Proof.
  destruct (cli !! "dry-run") as [dry|] eqn:Hdry.
  2: { unfold download_songs, getitem. rewrite Hdry. split; [done|by left]. }
  destruct (truthy dry) eqn:Htruthy.
  { eapply wp_mono; [|apply (only_logs_download_songs cli dry Hdry Htruthy l)].
    intros out tr [H1 H2]%only_logs_trace. split; [done|by left]. }
  unfold download_songs. rewrite (getitem_Some _ _ _ Hdry). apply wp_lift_bind.
  rewrite Htruthy. destruct l as [|s l].
  - apply wp_perform. intros r. split; [done|by left].
  - apply wp_perform_bind. intros [[]|e]; [|split; [done|by left]].
    apply wp_lift_bind. unfold getitem.
    destruct (cli !! "output") as [template|] eqn:Hout; [|split; [done|by left]].
    apply wp_perform. intros r. split; [done|]. right. by exists template, dry.
Qed.

Lemma wp_download_missing_google_songs (X : externals) cli songs :
  wp (download_missing_google_songs X cli songs) (λ _ tr,
    ∀ l template, (l, template) ∈ download_requests tr →
      download_requests tr = [(l, template)] ∧ l ≠ []
      ∧ cli !! "output" = Some template
      ∧ (∃ dry, cli !! "dry-run" = Some dry ∧ truthy dry = false)
      ∧ ∃ loc, local_songs_fetched tr = [loc]
          ∧ ∀ s, s ∈ l ↔ s ∈ songs ∧ ∀ p, p ∈ loc.1.1 → remote_key X s ≠ local_key X p).
Proof.
  assert (∀ l t, (l, t) ∈ @nil (list song * value) → False) as Hnil
    by (intros l t H; by apply elem_of_nil in H).
  unfold download_missing_google_songs.
  apply wp_lift_bind. destruct (getitem cli "input") as [input|]; [|by intros l t H%Hnil].
  apply wp_lift_bind. destruct (getitem cli "exclude") as [exclude|]; [|by intros l t H%Hnil].
  apply wp_perform_bind. intros [[[m f] e]|]; [|by intros l t H%Hnil].
  apply wp_perform_bind. intros [[]|]; [|by intros l t H%Hnil].
  apply wp_lift_bind.
  destruct (list_sort tuple_lt download_key _) as [sorted|] eqn:Hsort;
    [|by intros l t H%Hnil].
  eapply wp_mono; [|apply wp_download_songs].
  intros out tr [Hfetched Hreq] l template Hl.
  change (download_requests (_ :: _ :: tr)) with (download_requests tr) in *.
  destruct Hreq as [Hreq|(t & dry & Hreq & Hne & Hout & Hdry & Htruthy)];
    rewrite Hreq in *; [by apply Hnil in Hl|].
  apply list_elem_of_singleton in Hl as [= -> ->].
  split; [done|]. split; [done|]. split; [done|]. split; [by exists dry|].
  exists (m, f, e). split.
  { trace_norm. by rewrite Hfetched. }
  intros s. rewrite (list_sort_perm _ _ _ _ Hsort).
  unfold compare_song_collections. rewrite list_elem_of_filter, list_elem_of_fmap. cbn.
  split.
  - intros [Hk Hs]. split; [done|]. intros p Hp Heq. apply Hk. by exists p.
  - intros [Hs Hk]. split; [|done]. intros (p & Heq & Hp). by apply (Hk p).
Qed.

(** X13: in a run of [download_missing_google_songs] there is at most
    one call of [mmw.download]; it is made only without [--dry-run], with
    the template [cli['output']] and a list that is not empty, and a song
    is in that list exactly when it is one of the songs given and its key
    is the key of no matched local song of the scan made in the run. *)
Theorem download_missing_google_songs_request (X : externals) cli songs {W : Type}
    (respond : ∀ c : call, W → result (resp c) * W) (w : W) l template :
  (l, template)
    ∈ download_requests (run respond (download_missing_google_songs X cli songs) w).2 →
  download_requests (run respond (download_missing_google_songs X cli songs) w).2
    = [(l, template)]
  ∧ l ≠ []
  ∧ cli !! "output" = Some template
  ∧ (∃ dry, cli !! "dry-run" = Some dry ∧ truthy dry = false)
  ∧ ∃ loc,
      local_songs_fetched (run respond (download_missing_google_songs X cli songs) w).2
        = [loc]
      ∧ ∀ s, s ∈ l ↔ s ∈ songs ∧ ∀ p, p ∈ loc.1.1 → remote_key X s ≠ local_key X p.
Proof.
  intros Hl.
  exact (wp_run _ _ respond w (wp_download_missing_google_songs X cli songs) l template Hl).
Qed.

Lemma download_missing_google_songs_request_witness :
  let tr := (run (respond_with (example_answers true (["x.mp3"], [], [])))
                 (download_missing_google_songs example_externals
                    (<["output" := VStr "/music"]> cli_down_removed)
                    [titled "x"; titled "y"]) tt).2 in
  download_requests tr = [([titled "y"], VStr "/music")]
  ∧ [titled "y"] ≠ []
  ∧ <["output" := VStr "/music"]> cli_down_removed !! "output" = Some (VStr "/music")
  ∧ (∃ dry, <["output" := VStr "/music"]> cli_down_removed !! "dry-run" = Some dry
            ∧ truthy dry = false)
  ∧ ∃ loc, local_songs_fetched tr = [loc]
      ∧ ∀ s, s ∈ [titled "y"]
             ↔ s ∈ [titled "x"; titled "y"]
               ∧ ∀ p, p ∈ loc.1.1 →
                      remote_key example_externals s ≠ local_key example_externals p.
Proof.
  apply (download_missing_google_songs_request example_externals
           (<["output" := VStr "/music"]> cli_down_removed) [titled "x"; titled "y"]
           (respond_with (example_answers true (["x.mp3"], [], []))) tt
           [titled "y"] (VStr "/music")).
  assert (download_requests
            (run (respond_with (example_answers true (["x.mp3"], [], [])))
                 (download_missing_google_songs example_externals
                    (<["output" := VStr "/music"]> cli_down_removed)
                    [titled "x"; titled "y"]) tt).2
          = [([titled "y"], VStr "/music")]) as -> by by_evaluation.
  apply list_elem_of_singleton. reflexivity.
Defined.

(** ** Further properties: the playlist file *)

Lemma m3u_entry_length (X : externals) cli sd outpath track lines :
  m3u_entry X cli sd outpath track = Ok lines → length lines = 2%nat.
Proof.
  unfold m3u_entry. intros H.
  repeat (apply bind_Ok in H as (? & _ & H)). by injection H as <-.
Qed.

Lemma mapM_m3u_entry_length (X : externals) cli sd outpath songs : ∀ entries,
  mapM (m3u_entry X cli sd outpath) songs = Ok entries →
  length entries = length songs ∧ length (concat entries) = (2 * length songs)%nat.
Proof.
  induction songs as [|s songs IH]; intros entries H.
  - by injection H as <-.
  - apply mapM_cons_Ok in H as (lines & entries' & Hs & Hl & ->).
    destruct (IH _ Hl) as [IH1 IH2]. apply m3u_entry_length in Hs.
    cbn [concat length]. rewrite length_app, Hs, IH1, IH2. split; lia.
Qed.

(** X14: without [--dry-run] the playlist file is written in one piece.
    If the lines of one entry cannot be built (its song is not in the
    lookup, a field is missing), [create_playlist_file] raises before it
    has made any call: no temporary file, nothing moved. Otherwise it
    writes the header and two lines for each entry to a temporary file,
    then moves that file to [<outpath>/<name>.m3u], then logs. *)
Theorem create_playlist_file_in_one_piece (X : externals) cli sd name songs outpath dry :
  cli !! "dry-run" = Some dry → truthy dry = false →
  (∀ e, mapM (m3u_entry X cli sd outpath) songs = Err e →
        create_playlist_file X cli sd (VStr name) songs outpath = Raise e)
  ∧ (∀ entries, mapM (m3u_entry X cli sd outpath) songs = Ok entries →
       length ("#EXTM3U" :: concat entries) = (1 + 2 * length songs)%nat
       ∧ create_playlist_file X cli sd (VStr name) songs outpath
         = (_ ← (temp ← perform (TempWrite ".m3u"
                                   (utf8_bom +:+ String.concat nl ("#EXTM3U" :: concat entries))) ;
                 perform (Move temp (path_join outpath (name +:+ ".m3u")))) ;
            perform (Log QUIET ("Playlist (" +:+ pretty (length songs) +:+ " tracks): "
                                  +:+ path_join outpath (name +:+ ".m3u"))))).
Proof.
  intros Hdry Htruthy. split.
  - intros e He. unfold create_playlist_file.
    rewrite (getitem_Some _ _ _ Hdry). cbn [add_str lift]. cbn. rewrite Htruthy, He. reflexivity.
  - intros entries He. split.
    { cbn [length]. by destruct (mapM_m3u_entry_length X cli sd outpath songs _ He) as [_ ->]. }
    unfold create_playlist_file.
    rewrite (getitem_Some _ _ _ Hdry). cbn [add_str lift].
    cbv beta delta [mbind prog_bind]. cbn [pbind]. rewrite Htruthy, He. reflexivity.
Qed.

Lemma create_playlist_file_in_one_piece_witness :
  (∀ e, mapM (m3u_entry example_externals cli_playlists_output example_songs_dict "/lists")
          [entry "s1"; entry "gone"] = Err e →
        create_playlist_file example_externals cli_playlists_output example_songs_dict
          (VStr "mix") [entry "s1"; entry "gone"] "/lists" = Raise e)
  ∧ (∀ entries,
       mapM (m3u_entry example_externals cli_playlists_output example_songs_dict "/lists")
         [entry "s1"; entry "gone"] = Ok entries →
       length ("#EXTM3U" :: concat entries) = (1 + 2 * length [entry "s1"; entry "gone"])%nat
       ∧ create_playlist_file example_externals cli_playlists_output example_songs_dict
           (VStr "mix") [entry "s1"; entry "gone"] "/lists"
         = (_ ← (temp ← perform (TempWrite ".m3u"
                                   (utf8_bom +:+ String.concat nl ("#EXTM3U" :: concat entries))) ;
                 perform (Move temp (path_join "/lists" ("mix" +:+ ".m3u")))) ;
            perform (Log QUIET ("Playlist (" +:+ pretty (length [entry "s1"; entry "gone"])
                                  +:+ " tracks): "
                                  +:+ path_join "/lists" ("mix" +:+ ".m3u"))))).
Proof.
  apply (create_playlist_file_in_one_piece example_externals cli_playlists_output
           example_songs_dict "mix" [entry "s1"; entry "gone"] "/lists" (VBool false)).
  - by_evaluation.
  - reflexivity.
Defined.

(** One entry that resolves gives two lines: the [#EXTINF] line with the
    duration in seconds and the path of the song. *)
Example m3u_entry_example :
  m3u_entry example_externals cli_playlists_output example_songs_dict "/lists" (entry "s1")
  = Ok ["#EXTINF,316,Muse - Psycho"; "/music/Psycho.mp3"]
  ∧ mapM (m3u_entry example_externals cli_playlists_output example_songs_dict "/lists")
      [entry "s1"; entry "gone"] = Err (KeyError (VStr "gone")).
Proof. split; by_evaluation. Qed.

(** ** Further properties: deleting after an upload *)

Lemma removal_attempts_app tr1 tr2 :
  removal_attempts (tr1 ++ tr2) = removal_attempts tr1 ++ removal_attempts tr2.
Proof. apply omap_app. Qed.

Lemma upload_requests_app tr1 tr2 :
  upload_requests (tr1 ++ tr2) = upload_requests tr1 ++ upload_requests tr2.
Proof. apply omap_app. Qed.

Lemma failed_removals_logged_app tr1 tr2 :
  failed_removals_logged tr1 → failed_removals_logged tr2 →
  failed_removals_logged (tr1 ++ tr2).
Proof.
  intros H1 H2. induction tr1 as [|e tr1 IH]; [done|].
  destruct H1 as [He H1]. split; [|by apply IH].
  destruct (failed_removal e) as [p|]; [|done].
  destruct He as (next & Hnext & Hcall). exists next. split; [|done].
  by destruct tr1.
Qed.

Lemma logging_failed_app tr1 tr2 e : logging_failed tr2 e → logging_failed (tr1 ++ tr2) e.
Proof.
  intros (pre & level & msg & ->). exists (tr1 ++ pre), level, msg. by rewrite <- app_assoc.
Qed.

(** The loop of lines 422-427 in every environment. *)
Lemma wp_remove_loop (l : list string) :
  wp (for_each l (λ s,
        try_except (perform (Remove s))
          (λ _, perform (Log WARNING ("Failed to remove " +:+ s
                                        +:+ " after successful upload")))))
     (λ out tr, removal_attempts tr `prefix_of` l
                ∧ (out = Ok tt → removal_attempts tr = l)
                ∧ failed_removals_logged tr
                ∧ upload_requests tr = []
                ∧ (∀ e, out = Err e → logging_failed tr e)).
Proof.
  apply (wp_for_each l _ (λ done tr, removal_attempts tr = done
                                     ∧ failed_removals_logged tr
                                     ∧ upload_requests tr = [])).
  - done.
  - intros done x rest tr -> (Hdone & Hlogged & Hup).
    apply wp_try_except. apply wp_perform. intros [[]|e].
    + rewrite removal_attempts_app, upload_requests_app, Hdone, Hup.
      split; [done|]. split; [|done]. by apply failed_removals_logged_app.
    + apply wp_perform. intros [[]|e'];
        rewrite !removal_attempts_app, !upload_requests_app, Hdone, Hup; cbn.
      * split; [done|]. split; [|done].
        apply failed_removals_logged_app; [done|]. cbn. split; [|done]. by eexists.
      * split; [exists rest; by rewrite <- app_assoc|]. split; [done|].
        split; [|split; [done|]].
        -- apply failed_removals_logged_app; [done|]. cbn. split; [|done]. by eexists.
        -- intros ? [= <-]. apply logging_failed_app. by eexists [_], _, _.
  - intros tr (-> & Hlogged & Hup). by repeat split.
Qed.

(** X15: the deletion of lines 420-427 and the flag of line 417.
    Without [--dry-run], the script itself calls [os.remove] only when
    there is nothing to upload and [--delete-on-success] is given. It
    then tries the matched local songs in their order; a removal that
    raises is followed at once by the warning for that file and the loop
    goes on: only a call to the logger that raises ends the run early,
    and a run that returns has tried every one of the songs. When there
    are songs to upload, the script removes nothing itself and hands
    [cli['delete-on-success']] to [mmw.upload] together with the songs
    and [cli['match']]; [mmw.upload] is called in no other case. *)
Theorem delete_on_success_removals cli dry delete_on_success up f e m {W : Type}
    (respond : ∀ c : call, W → result (resp c) * W) (w : W) :
  cli !! "dry-run" = Some dry → truthy dry = false →
  cli !! "delete-on-success" = Some delete_on_success →
  (up ≠ [] ∨ truthy delete_on_success = false →
     removal_attempts (run respond (report_or_upload cli up f e m) w).2 = [])
  ∧ (up = [] → truthy delete_on_success = true →
       removal_attempts (run respond (report_or_upload cli up f e m) w).2 `prefix_of` m
       ∧ ((run respond (report_or_upload cli up f e m) w).1.1 = Ok tt →
            removal_attempts (run respond (report_or_upload cli up f e m) w).2 = m))
  ∧ failed_removals_logged (run respond (report_or_upload cli up f e m) w).2
  ∧ (up = [] → ∀ err, (run respond (report_or_upload cli up f e m) w).1.1 = Err err →
       logging_failed (run respond (report_or_upload cli up f e m) w).2 err)
  ∧ (∀ request, request ∈ upload_requests (run respond (report_or_upload cli up f e m) w).2 →
       up ≠ [] ∧ ∃ enable_matching,
         cli !! "match" = Some enable_matching
         ∧ request = (up, enable_matching, delete_on_success))
  ∧ (up ≠ [] → (run respond (report_or_upload cli up f e m) w).1.1 = Ok tt →
       ∃ enable_matching,
         cli !! "match" = Some enable_matching
         ∧ upload_requests (run respond (report_or_upload cli up f e m) w).2
           = [(up, enable_matching, delete_on_success)]).
Proof.
  intros Hdry Htruthy Hdos.
  assert (wp (report_or_upload cli up f e m) (λ out tr,
            (up ≠ [] ∨ truthy delete_on_success = false → removal_attempts tr = [])
            ∧ (up = [] → truthy delete_on_success = true →
                 removal_attempts tr `prefix_of` m
                 ∧ (out = Ok tt → removal_attempts tr = m))
            ∧ failed_removals_logged tr
            ∧ (up = [] → ∀ err, out = Err err → logging_failed tr err)
            ∧ (∀ request, request ∈ upload_requests tr →
                 up ≠ [] ∧ ∃ enable_matching,
                   cli !! "match" = Some enable_matching
                   ∧ request = (up, enable_matching, delete_on_success))
            ∧ (up ≠ [] → out = Ok tt →
                 ∃ enable_matching,
                   cli !! "match" = Some enable_matching
                   ∧ upload_requests tr = [(up, enable_matching, delete_on_success)])))
    as Hwp.
  { unfold report_or_upload. rewrite (getitem_Some _ _ _ Hdry).
    apply wp_lift_bind. rewrite Htruthy. destruct up as [|s up].
    - apply wp_perform_bind. intros [[]|e'].
      2: { split; [done|]. split; [intros _ _; split; [apply prefix_nil|done]|].
           split; [done|]. split; [|split; [by intros ? ?%elem_of_nil|done]].
           intros _ ? [= <-]. by eexists [], _, _. }
      rewrite (getitem_Some _ _ _ Hdos). apply wp_lift_bind.
      destruct (truthy delete_on_success) eqn:Hd.
      + eapply wp_mono; [|apply wp_remove_loop].
        intros out tr (Hpre & Hall & Hlogged & Hup & Hfail).
        change (removal_attempts (_ :: tr)) with (removal_attempts tr).
        change (upload_requests (_ :: tr)) with (upload_requests tr). rewrite Hup.
        split; [by intros [?|?]|]. split; [done|]. split; [by split|].
        split; [|split; [by intros ? ?%elem_of_nil|done]].
        intros _ err Herr. by apply (logging_failed_app [_]), Hfail.
      + split; [done|]. split; [by intros _ ?|]. split; [done|].
        split; [done|]. split; [by intros ? ?%elem_of_nil|done].
    - apply wp_perform_bind. intros [[]|e'].
      2: { split; [done|]. split; [done|]. split; [done|]. split; [done|].
           split; [by intros ? ?%elem_of_nil|done]. }
      apply wp_lift_bind. unfold getitem at 1.
      destruct (cli !! "match") as [mt|] eqn:Hmatch.
      2: { split; [done|]. split; [done|]. split; [done|]. split; [done|].
           split; [by intros ? ?%elem_of_nil|done]. }
      rewrite (getitem_Some _ _ _ Hdos). apply wp_lift_bind.
      apply wp_perform. intros r. split; [done|]. split; [done|]. split; [done|].
      split; [done|]. split.
      + intros request Hin. cbn in Hin. apply list_elem_of_singleton in Hin as ->.
        split; [done|]. by exists mt.
      + intros _ _. by exists mt. }
  exact (wp_run _ _ respond w Hwp).
Qed.

(** Both removals fail; both are tried, each failure is followed by its
    warning, and the run returns. *)
Lemma delete_on_success_removals_witness :
  read_only_removal_run.1.1 = Ok tt
  ∧ removal_attempts read_only_removal_run.2 = ["a.mp3"; "b.mp3"]
  ∧ failed_removals_logged read_only_removal_run.2
  ∧ upload_requests read_only_removal_run.2 = []
  ∧ calls read_only_removal_run.2
    = [Log INFO (nl +:+ "No songs to upload");
       Remove "a.mp3"; Log WARNING "Failed to remove a.mp3 after successful upload";
       Remove "b.mp3"; Log WARNING "Failed to remove b.mp3 after successful upload"].
Proof.
  assert (read_only_removal_run.1.1 = Ok tt) as Hout by by_evaluation.
  destruct (delete_on_success_removals cli_up_delete (VBool false) (VBool true)
              [] [] [] ["a.mp3"; "b.mp3"] respond_read_only tt)
    as (_ & Hall & Hlogged & _ & Hup & _); [by_evaluation|reflexivity|by_evaluation|].
  split; [exact Hout|]. split; [by apply Hall|]. split; [exact Hlogged|].
  split; [|by_evaluation].
  destruct (upload_requests read_only_removal_run.2) as [|request l] eqn:Hreq; [done|].
  destruct (Hup request) as [Hne _]; [|done].
  change (request ∈ upload_requests read_only_removal_run.2). rewrite Hreq. by left.
Defined.

(** With songs to upload the flag goes to [mmw.upload]. *)
Example delete_on_success_handed_to_upload :
  calls (run respond_read_only (report_or_upload cli_up_delete ["a.mp3"] [] [] ["b.mp3"]) tt).2
  = [Log INFO (nl +:+ "Uploading 1 song(s) to Google Music" +:+ nl);
     MmwUpload ["a.mp3"] (VBool false) (VBool true)].
Proof. by_evaluation. Qed.

(** ** Further properties: the mobile-client credentials *)

Ltac unit_answer a :=
  let T := type of a in
  let T' := eval cbn in T in
  lazymatch T' with unit => destruct a | _ => idtac end.

Ltac wp_unfold :=
  repeat first
    [ progress cbn -[path_join dirname dict_repr getitem creds_filepath
                     credentials_loaded usernames_entered credentials_dumped
                     opened_for_writing login_steps]
    | match goal with
      | |- ∀ r : result _, _ => let a := fresh "a" in intros [a|?]; [unit_answer a|]
      | |- context [lift (getitem ?c ?k)] => destruct (getitem c k)
      end ].

Ltac credentials_leaf :=
  cbn; unfold creds_filepath; split; [|split];
  [ intros p d H;
    first
      [ by apply elem_of_nil in H
      | apply list_elem_of_singleton in H; injection H as -> ->;
        split; [reflexivity|]; split; [reflexivity|];
        first [ left; by split | right; by eexists _, _, _, _ ] ]
  | by intros ?
  | intros H1 H2;
    first
      [ discriminate H1 | discriminate H2
      | eexists; split; [reflexivity|]; split; [reflexivity|];
        intros H; first [ by apply elem_of_nil in H | reflexivity ] ] ].

Lemma wp_login_mobile_client_from_cache (X : externals) f :
  wp (login_mobile_client_from_cache X (VStr f)) (λ out tr,
    (∀ p d, (p, d) ∈ credentials_dumped tr →
       credentials_dumped tr = [(p, d)] ∧ p = creds_filepath X f
       ∧ (credentials_loaded tr = [d] ∧ usernames_entered tr = [] ∧ login_steps tr = []
          ∨ ∃ user master auth android,
              usernames_entered tr = [user]
              ∧ login_steps tr
                = [Ev (Input "Enter your Google username or email address: ") (Ok user);
                   Ev (McwLogin user) (Ok tt);
                   Ev (McwGetAttr "api.session._master_token") (Ok master);
                   Ev (McwGetAttr "api.session._authtoken") (Ok auth);
                   Ev (McwGetAttr "api.android_id") (Ok android)]
              ∧ d = <["androidId" := android]> (<["email" := VStr user]>
                      (<["authToken" := auth]> (<["masterToken" := master]> ∅)))))
    ∧ (out = Ok tt → credentials_dumped tr ≠ [])
    ∧ (credentials_loaded tr = [] → usernames_entered tr = [] →
         ∃ e, out = Err e ∧ credentials_dumped tr = []
              ∧ (creds_filepath X f ∈ opened_for_writing tr →
                 e = UnboundLocalError "creds"))).
Proof.
  unfold login_mobile_client_from_cache, use_stored_credentials, login_mobile_client.
  wp_unfold; credentials_leaf.
Qed.

(** X16: what [login_mobile_client_from_cache] writes. In every run the
    credentials file is written at most once, at
    [<directory of OAUTH_FILEPATH>/mc<oauth_filename>.cred]. When no user
    name was asked for, what is written is the dictionary read from that
    file in the same run, as it was read, and no login took place.
    Otherwise the run asked for the user name once, called [mcw.login]
    with it and then read the session's master token, auth token and
    android id, in this order and each once, and what is written is the
    dictionary of [masterToken], [authToken], [email] and [androidId]
    with the three values read and the user name typed in. *)
Theorem login_mobile_client_from_cache_writes (X : externals) f {W : Type}
    (respond : ∀ c : call, W → result (resp c) * W) (w : W) p d :
  (p, d) ∈ credentials_dumped (run respond (login_mobile_client_from_cache X (VStr f)) w).2 →
  credentials_dumped (run respond (login_mobile_client_from_cache X (VStr f)) w).2
    = [(p, d)]
  ∧ p = creds_filepath X f
  ∧ (credentials_loaded (run respond (login_mobile_client_from_cache X (VStr f)) w).2 = [d]
     ∧ usernames_entered (run respond (login_mobile_client_from_cache X (VStr f)) w).2 = []
     ∧ login_steps (run respond (login_mobile_client_from_cache X (VStr f)) w).2 = []
     ∨ ∃ user master auth android,
         usernames_entered (run respond (login_mobile_client_from_cache X (VStr f)) w).2
           = [user]
         ∧ login_steps (run respond (login_mobile_client_from_cache X (VStr f)) w).2
           = [Ev (Input "Enter your Google username or email address: ") (Ok user);
              Ev (McwLogin user) (Ok tt);
              Ev (McwGetAttr "api.session._master_token") (Ok master);
              Ev (McwGetAttr "api.session._authtoken") (Ok auth);
              Ev (McwGetAttr "api.android_id") (Ok android)]
         ∧ d = <["androidId" := android]> (<["email" := VStr user]>
                 (<["authToken" := auth]> (<["masterToken" := master]> ∅)))).
Proof.
  intros Hd.
  exact (proj1 (wp_run _ _ respond w (wp_login_mobile_client_from_cache X f)) p d Hd).
Qed.

(** Two runs: with stored credentials that the mobile client accepts the
    file is written back as it was read; with stored credentials that it
    does not accept, the file receives what the session holds after the
    login. *)
Lemma login_mobile_client_from_cache_writes_witness :
  (credentials_dumped
     (run (respond_with (example_answers true ([], [], [])))
          (login_mobile_client_from_cache example_externals (VStr "oauth")) tt).2
   = [("/home/user/.local/share/gmusicapi/mcoauth.cred", example_credentials)]
   ∧ credentials_loaded
       (run (respond_with (example_answers true ([], [], [])))
            (login_mobile_client_from_cache example_externals (VStr "oauth")) tt).2
     = [example_credentials])
  ∧ (credentials_dumped
       (run respond_stale_credentials
            (login_mobile_client_from_cache example_externals (VStr "oauth")) tt).2
     = [("/home/user/.local/share/gmusicapi/mcoauth.cred", fresh_credentials)]
     ∧ ∃ user master auth android,
         login_steps
           (run respond_stale_credentials
                (login_mobile_client_from_cache example_externals (VStr "oauth")) tt).2
         = [Ev (Input "Enter your Google username or email address: ") (Ok user);
            Ev (McwLogin user) (Ok tt);
            Ev (McwGetAttr "api.session._master_token") (Ok master);
            Ev (McwGetAttr "api.session._authtoken") (Ok auth);
            Ev (McwGetAttr "api.android_id") (Ok android)]
         ∧ fresh_credentials
           = <["androidId" := android]> (<["email" := VStr user]>
               (<["authToken" := auth]> (<["masterToken" := master]> ∅)))).
Proof.
  split.
  - destruct (login_mobile_client_from_cache_writes example_externals "oauth"
                (respond_with (example_answers true ([], [], []))) tt
                "/home/user/.local/share/gmusicapi/mcoauth.cred" example_credentials)
      as (Hdumped & _ & [(Hloaded & _)|(user & _ & _ & _ & Huser & _)]).
    + assert (credentials_dumped
                (run (respond_with (example_answers true ([], [], [])))
                     (login_mobile_client_from_cache example_externals (VStr "oauth")) tt).2
              = [("/home/user/.local/share/gmusicapi/mcoauth.cred", example_credentials)])
        as -> by by_evaluation.
      apply list_elem_of_singleton. reflexivity.
    + split; [exact Hdumped|exact Hloaded].
    + assert (usernames_entered
                (run (respond_with (example_answers true ([], [], [])))
                     (login_mobile_client_from_cache example_externals (VStr "oauth")) tt).2
              = []) as Hnone by by_evaluation.
      rewrite Hnone in Huser. discriminate.
  - destruct (login_mobile_client_from_cache_writes example_externals "oauth"
                respond_stale_credentials tt
                "/home/user/.local/share/gmusicapi/mcoauth.cred" fresh_credentials)
      as (Hdumped & _ & [(_ & Hnone & _)|(user & master & auth & android & _ & Hsteps & Hd)]).
    + assert (credentials_dumped
                (run respond_stale_credentials
                     (login_mobile_client_from_cache example_externals (VStr "oauth")) tt).2
              = [("/home/user/.local/share/gmusicapi/mcoauth.cred", fresh_credentials)])
        as -> by by_evaluation.
      apply list_elem_of_singleton. reflexivity.
    + assert (usernames_entered
                (run respond_stale_credentials
                     (login_mobile_client_from_cache example_externals (VStr "oauth")) tt).2
              = ["user@example.com"]) as Hone by by_evaluation.
      rewrite Hone in Hnone. discriminate.
    + split; [exact Hdumped|]. exists user, master, auth, android.
      split; [exact Hsteps|exact Hd].
Defined.

(** The credentials written after the login are those the session
    holds: each token under its own name. *)
Example fresh_credentials_tokens :
  fresh_credentials !! "masterToken" = Some (VStr "new api.session._master_token")
  ∧ fresh_credentials !! "authToken" = Some (VStr "new api.session._authtoken")
  ∧ fresh_credentials !! "androidId" = Some (VStr "new api.android_id")
  ∧ fresh_credentials !! "email" = Some (VStr "user@example.com").
Proof. repeat split; by_evaluation. Qed.

(** X17: [creds] can be unbound at line 156. A run of
    [login_mobile_client_from_cache] that neither read stored credentials
    nor asked for a user name does not return and writes no credentials:
    it raises, and once it has opened the credentials file for writing
    the exception is [UnboundLocalError] for [creds]. This is the run in
    which the file cannot be loaded and the device query succeeds. *)
Theorem login_mobile_client_from_cache_unbound (X : externals) f {W : Type}
    (respond : ∀ c : call, W → result (resp c) * W) (w : W) :
  credentials_loaded (run respond (login_mobile_client_from_cache X (VStr f)) w).2 = [] →
  usernames_entered (run respond (login_mobile_client_from_cache X (VStr f)) w).2 = [] →
  ∃ e, (run respond (login_mobile_client_from_cache X (VStr f)) w).1.1 = Err e
       ∧ credentials_dumped (run respond (login_mobile_client_from_cache X (VStr f)) w).2 = []
       ∧ (creds_filepath X f
            ∈ opened_for_writing (run respond (login_mobile_client_from_cache X (VStr f)) w).2 →
          e = UnboundLocalError "creds").
Proof.
  intros Hl Hu.
  exact (proj2 (proj2 (wp_run _ _ respond w (wp_login_mobile_client_from_cache X f))) Hl Hu).
Qed.

Lemma login_mobile_client_from_cache_unbound_witness :
  let r := run respond_no_credentials
               (login_mobile_client_from_cache example_externals (VStr "oauth")) tt in
  opened_for_writing r.2 = [creds_filepath example_externals "oauth"]
  ∧ ∃ e, r.1.1 = Err e ∧ credentials_dumped r.2 = []
         ∧ (creds_filepath example_externals "oauth" ∈ opened_for_writing r.2 →
            e = UnboundLocalError "creds").
Proof.
  split; [by_evaluation|].
  apply (login_mobile_client_from_cache_unbound example_externals "oauth"
           respond_no_credentials tt); by_evaluation.
Defined.

(** ** Further properties: when the favorites are defined *)

Lemma rated_above_3_inv all_songs : ∀ selected,
  rated_above_3 all_songs = Ok selected →
  Forall (λ t, ∃ r, getitem t "rating" ≫= int = Ok r) all_songs.
Proof.
  induction all_songs as [|t rest IH]; intros selected H; [constructor|].
  cbn [rated_above_3] in H.
  apply bind_Ok in H as (rating & Hrating & H). apply bind_Ok in H as (r & Hr & H).
  apply bind_Ok in H as (keep & Hkeep & _).
  constructor; [|by eapply IH]. exists r. rewrite Hrating. exact Hr.
Qed.

Lemma mapM_favorites_key_inv selected : ∀ ks,
  mapM favorites_key selected = Ok ks →
  Forall (λ t, ∃ ts, int (get t "lastModifiedTimestamp") = Ok ts) selected.
Proof.
  induction selected as [|t rest IH]; intros ks H; [constructor|].
  apply mapM_cons_Ok in H as (k & ks' & Hk & Hrest & _).
  constructor; [|by eapply IH]. unfold favorites_key in Hk.
  apply bind_Ok in Hk as (ts & Hts & _). by exists ts.
Qed.

(** X18: the favorites can be computed exactly when every song of the
    library has a rating that [int] accepts and every song rated above 3
    has a [lastModifiedTimestamp] that [int] accepts. One song without a
    rating makes line 357 raise, whatever its rating would have been. *)
Theorem thumbs_up_defined all_songs :
  (∃ favorites, thumbs_up all_songs = Ok favorites)
  ↔ Forall (λ t, ∃ r, getitem t "rating" ≫= int = Ok r) all_songs
    ∧ Forall (λ t, rating_above_3 t = true →
                   ∃ ts, int (get t "lastModifiedTimestamp") = Ok ts) all_songs.
Proof.
  split.
  - intros [favorites H]. unfold thumbs_up in H.
    apply bind_Ok in H as (selected & Hsel & Hsort).
    pose proof (rated_above_3_inv _ _ Hsel) as Hr. split; [exact Hr|].
    rewrite (rated_above_3_filter _ Hr) in Hsel. injection Hsel as <-.
    apply list_sort_inv in Hsort as (ks & Hks & _).
    apply mapM_favorites_key_inv in Hks.
    apply List.Forall_forall. intros t Hin Hab.
    rewrite List.Forall_forall in Hks. apply Hks. by apply List.filter_In.
  - intros [Hr Hts]. unfold thumbs_up. rewrite (rated_above_3_filter _ Hr). cbn.
    set (selected := List.filter rating_above_3 all_songs).
    assert (Forall (λ t, ∃ ts, int (get t "lastModifiedTimestamp") = Ok ts) selected) as Hsel.
    { apply List.Forall_forall. intros t [Hin Hab]%List.filter_In.
      rewrite List.Forall_forall in Hts. by apply Hts. }
    eexists.
    exact (list_sort_Ok (λ a b : Z, Ok (a <? b)) favorites_key selected _
             (favorites_keys selected Hsel)
             (pairwise_comparable_total _ Z.ltb _ (λ _ _, eq_refl))).
Qed.

(** A library with one unrated song has no favorites playlist. *)
Example thumbs_up_unrated :
  thumbs_up [rated_song "x" "5" "100"; titled "y"] = Err (KeyError (VStr "rating")).
Proof. by_evaluation. Qed.

(** ** Further properties: the keys of the command line *)

Lemma lstrip_head chars s c r : lstrip chars s = String c r → c ∉ chars.
Proof.
  induction s as [|c0 s IH]; [done|]. cbn [lstrip].
  case_bool_decide as Hc0; [exact IH|]. by intros [= <- _].
Qed.

Lemma cli_of_docopt_lookup items : ∀ (d : gmap string value) k,
  foldl (λ d kv, <[docopt_key kv.1 := kv.2]> d) d items !! k
  = match last (filter (λ kv : string * value, docopt_key kv.1 = k) items) with
    | Some kv => Some kv.2
    | None => d !! k
    end.
Proof.
  induction items as [|[k0 v0] items IH]; intros d k; [done|].
  cbn [foldl]. rewrite IH, filter_cons. cbn [fst snd].
  destruct (decide (docopt_key k0 = k)) as [<-|Hk].
  - rewrite last_cons, lookup_insert_eq. by destruct (last _).
  - by rewrite lookup_insert_ne.
Qed.

(** X19: the dictionary of line 182. Its keys are the names docopt
    returns with the leading dashes and the angle brackets taken off: a
    key is present exactly when it is the stripped name of some item,
    its value is that of the last such item, and no key begins with [-]
    or [<] or ends with [>]. *)
Theorem cli_of_docopt_keys (items : list (string * value)) :
  (∀ k, is_Some (cli_of_docopt items !! k)
        ↔ ∃ name v, (name, v) ∈ items ∧ docopt_key name = k)
  ∧ (∀ before name v after,
       items = before ++ (name, v) :: after →
       Forall (λ kv, docopt_key kv.1 ≠ docopt_key name) after →
       cli_of_docopt items !! docopt_key name = Some v)
  ∧ (∀ k, is_Some (cli_of_docopt items !! k) →
       ∀ c r, (k = String c r → c ≠ "-"%char ∧ c ≠ "<"%char)
              ∧ (k = r +:+ String c "" → c ≠ ">"%char)).
Proof.
  assert (∀ k, cli_of_docopt items !! k
               = match last (filter (λ kv : string * value, docopt_key kv.1 = k) items) with
                 | Some kv => Some kv.2
                 | None => None
                 end) as Hlookup.
  { intros k. etrans; [exact (cli_of_docopt_lookup items ∅ k)|]. by rewrite lookup_empty. }
  assert (∀ k, is_Some (cli_of_docopt items !! k)
               ↔ ∃ name v, (name, v) ∈ items ∧ docopt_key name = k) as Hdom.
  { intros k. rewrite Hlookup. split.
    - destruct (last _) as [[name v]|] eqn:Hl; [|by intros [? ?]]. intros _.
      apply last_Some_elem_of, list_elem_of_filter in Hl as [Hk Hin]. by exists name, v.
    - intros (name & v & Hin & Hk).
      destruct (last _) as [kv|] eqn:Hl; [by eexists|]. apply last_None in Hl.
      assert ((name, v) ∈ filter (λ kv : string * value, docopt_key kv.1 = k) items) as Hf
        by by apply list_elem_of_filter.
      rewrite Hl in Hf. by apply elem_of_nil in Hf. }
  split; [exact Hdom|]. split.
  - intros before name v after -> Hafter. rewrite Hlookup.
    rewrite filter_app, filter_cons_True by done.
    assert (filter (λ kv : string * value, docopt_key kv.1 = docopt_key name) after = [])
      as ->.
    { clear -Hafter. induction Hafter as [|x l Hx _ IH]; [done|].
      by rewrite filter_cons_False. }
    by rewrite last_snoc.
  - intros k (name & v & _ & <-)%Hdom c r. unfold docopt_key. split.
    + intros Hk. destruct (rstrip_head _ _ _ _ Hk) as [s' Hs'].
      apply lstrip_head in Hs'. rewrite !not_elem_of_cons in Hs'. by destruct Hs' as (? & ? & _).
    + intros Hk. apply rstrip_last in Hk. rewrite !not_elem_of_cons in Hk. by destruct Hk as [? _].
Qed.

(** ** Further properties: the mobile client *)

Lemma mobile_authentication_failed_app tr1 tr2 :
  mobile_authentication_failed (tr1 ++ tr2)
  = mobile_authentication_failed tr1 || mobile_authentication_failed tr2.
Proof. apply existsb_app. Qed.

Lemma mobile_authentication_failed_never tr :
  Forall (λ e, is_mcw_auth_query (event_call e) = false) tr →
  mobile_authentication_failed tr = false.
Proof.
  induction 1 as [|[c r] tr Hc _ IH]; [done|].
  simpl in *. rewrite IH. by destruct c.
Qed.

Lemma only_set_level_quiet tr :
  Forall (λ e, negb (is_set_level (event_call e)) = false) tr →
  mobile_authentication_failed tr = false ∧ no_reconciliation tr.
Proof.
  induction 1 as [|[c r] tr Hc _ [IH1 IH2]]; [by split; [|constructor]|].
  split.
  - simpl in *. rewrite IH1. by destruct c.
  - constructor; [|done]. by destruct c.
Qed.

Section MobileClient.
Context (X : externals).

Lemma never_mcw_auth_login v :
  never is_mcw_auth_query (login_mobile_client_from_cache X v).
Proof.
  unfold login_mobile_client_from_cache, use_stored_credentials, login_mobile_client.
  never_solve.
Qed.

Lemma never_mcw_auth_sync cli inc exc :
  never is_mcw_auth_query (sync_down X cli inc exc)
  ∧ never is_mcw_auth_query (sync_up X cli inc exc).
Proof.
  split.
  - unfold sync_down, move_removed_songs, sync_playlists, download_missing_google_songs,
      download_songs, create_playlist_file.
    repeat first [by apply never_removeEmptyFolders | never_step].
  - unfold sync_up, report_or_upload, log_each. never_solve.
Qed.

Lemma no_reconciliation_authenticate cli :
  never reconciliation_call (authenticate X cli).
Proof.
  unfold authenticate, login_mobile_client_from_cache, use_stored_credentials,
    login_mobile_client.
  never_solve.
Qed.

Lemma wp_authenticate_mobile cli :
  wp (authenticate X cli) (λ out tr,
    mobile_authentication_failed tr = true → out = Err (SystemExit None)).
Proof.
  unfold authenticate.
  apply wp_lift_bind. destruct (getitem cli "log") as [log|]; [|done].
  apply wp_perform_bind. intros [[]|]; [|done].
  apply wp_lift_bind. destruct (getitem cli "cred") as [cred|]; [|done].
  apply wp_lift_bind. destruct (getitem cli "uploader-id") as [uploader_id|]; [|done].
  apply wp_perform_bind. intros [[]|]; [|done].
  apply wp_perform_bind. intros [[|]|]; [|done..].
  cbn [negb]. apply wp_perform_bind. intros [[]|]; [|done].
  apply wp_lift_bind. destruct (getitem cli "playlists") as [playlists|]; [|done].
  destruct (truthy playlists); [|done].
  apply wp_lift_bind. apply wp_bind.
  eapply wp_mono; [|apply (never_mcw_auth_login cred)].
  intros [[]|e] tr Htr%mobile_authentication_failed_never.
  - apply wp_perform_bind. intros [[|]|e]; cbn [negb].
    + simpl. rewrite mobile_authentication_failed_app, Htr. done.
    + done.
    + simpl. rewrite mobile_authentication_failed_app, Htr. done.
  - simpl. by rewrite Htr.
Qed.

Lemma wp_main_body_mobile_authentication cli :
  wp (main_body X cli) (λ out tr,
    mobile_authentication_failed tr = true →
    out = Err (SystemExit None) ∧ no_reconciliation tr).
Proof.
  unfold main_body. apply wp_bind.
  eapply wp_mono; [|apply only_set_level_prepare].
  intros [[[cli' inc] exc]|e] tr [Hna Hnr]%only_set_level_quiet.
  2: { by rewrite Hna. }
  apply wp_bind.
  eapply wp_mono;
    [|apply (wp_and _ _ _ (wp_authenticate_mobile cli') (no_reconciliation_authenticate cli'))].
  intros [[]|e] tr' [Hauth Hnr'].
  - assert (mobile_authentication_failed (tr ++ tr') = false) as Hpre.
    { rewrite mobile_authentication_failed_app, Hna. simpl.
      destruct (mobile_authentication_failed tr'); [by specialize (Hauth eq_refl)|done]. }
    assert (never is_mcw_auth_query
              (down ← lift (getitem cli' "down") ;
               _ ← (if truthy down then sync_down X cli' inc exc
                    else sync_up X cli' inc exc) ;
               _ ← perform MmwLogout ;
               _ ← perform McwLogout ;
               perform (Log INFO (nl +:+ "All done!")))) as Hrest.
    { destruct (never_mcw_auth_sync cli' inc exc) as [Hd Hu].
      repeat first [exact Hd | exact Hu | never_step]. }
    eapply wp_mono; [|exact Hrest].
    intros out tr'' Htr''%mobile_authentication_failed_never. cbv beta.
    by rewrite app_assoc, mobile_authentication_failed_app, Hpre, Htr''.
  - cbv beta. rewrite mobile_authentication_failed_app, Hna. simpl. intros Hf.
    rewrite (Hauth Hf). split; [done|]. by apply Forall_app.
Qed.

Lemma without_playlists_authenticate cli playlists :
  cli !! "playlists" = Some playlists → truthy playlists = false →
  never mobile_client_use (authenticate X cli).
Proof.
  intros Hpl Htruthy. unfold authenticate.
  repeat first
    [ apply never_lift_bind; rewrite (getitem_Some _ _ _ Hpl); cbv beta iota;
      rewrite Htruthy
    | never_step ].
Qed.

Lemma without_playlists_sync_down cli playlists inc exc :
  cli !! "playlists" = Some playlists → truthy playlists = false →
  never mobile_client_use (sync_down X cli inc exc).
Proof.
  intros Hpl Htruthy. unfold sync_down.
  apply never_bind; [never_solve|]. intros ai.
  apply never_bind; [never_solve|]. intros ae.
  apply never_bind; [never_solve|]. intros [gm gf].
  apply never_bind; [never_solve|]. intros output.
  apply never_bind; [never_solve|]. intros base.
  assert (<["input" := VStrs [base]]> cli !! "playlists" = Some playlists) as Hpl'
    by by rewrite lookup_insert_ne.
  unfold move_removed_songs, download_missing_google_songs, download_songs.
  repeat first
    [ apply never_lift_bind; rewrite (getitem_Some _ _ _ Hpl'); cbv beta iota;
      rewrite Htruthy
    | by apply never_removeEmptyFolders
    | never_step ].
Qed.

Lemma without_playlists_sync_up cli inc exc :
  never mobile_client_use (sync_up X cli inc exc).
Proof. unfold sync_up, report_or_upload, log_each. never_solve. Qed.
End MobileClient.

(** X20: in every run of [main] from line 186 on in which the mobile
    client turns out not to be authenticated (line 216), the script
    leaves through [sys.exit()] with exit status zero, before any
    collection is fetched or acted on. *)
Theorem mobile_authentication_failure_exits (X : externals) cli {W : Type}
    (respond : ∀ c : call, W → result (resp c) * W) (w w' : W) out tr :
  run respond (main_body X cli) w = (out, w', tr) →
  mobile_authentication_failed tr = true →
  out = Err (SystemExit None) ∧ exit_status out = 0 ∧ no_reconciliation tr.
Proof.
  intros Hrun Hf.
  destruct (run_wp _ _ respond w out w' tr (wp_main_body_mobile_authentication X cli) Hrun Hf)
    as [-> Hnr].
  by repeat split.
Qed.

Lemma mobile_authentication_failure_exits_witness :
  let r := run (respond_with answers_mobile_refused)
               (main_body example_externals cli_down_playlists) tt in
  r.1.1 = Err (SystemExit None) ∧ exit_status r.1.1 = 0 ∧ no_reconciliation r.2.
Proof.
  intros r.
  apply (mobile_authentication_failure_exits example_externals cli_down_playlists
           (respond_with answers_mobile_refused) tt r.1.2 r.1.1 r.2).
  - by_evaluation.
  - by_evaluation.
Defined.

(** X21: without [--playlists] the mobile client is created and logged
    out and nothing else: a run of [main] from line 186 on never logs it
    in, never asks for the user name, never reads or writes the
    credentials file and never queries the library or the playlists. *)
Theorem without_playlists_no_mobile_client (X : externals) cli playlists {W : Type}
    (respond : ∀ c : call, W → result (resp c) * W) (w : W) :
  cli !! "playlists" = Some playlists → truthy playlists = false →
  Forall (λ e, mobile_client_use (event_call e) = false)
    (run respond (main_body X cli) w).2.
Proof.
  intros Hpl Htruthy.
  apply (wp_run (main_body X cli)
           (λ _ tr, Forall (λ e, mobile_client_use (event_call e) = false) tr)).
  unfold main_body. apply wp_bind.
  eapply wp_mono; [|apply (prepare_keeps X cli "playlists"); done].
  intros out tr [Hcalls Hout].
  assert (Forall (λ e, mobile_client_use (event_call e) = false) tr) as Htr.
  { eapply Forall_impl; [exact Hcalls|]. intros e He. cbv beta in He.
    by destruct (event_call e). }
  destruct out as [[[cli' fi] fe]|e]; [|done].
  specialize (Hout cli' fi fe eq_refl). rewrite Hpl in Hout.
  assert (never mobile_client_use
            (_ ← authenticate X cli' ;
             down ← lift (getitem cli' "down") ;
             _ ← (if truthy down then sync_down X cli' fi fe else sync_up X cli' fi fe) ;
             _ ← perform MmwLogout ;
             _ ← perform McwLogout ;
             perform (Log INFO (nl +:+ "All done!")))) as Hrest.
  { repeat first
      [ by eapply without_playlists_authenticate
      | by eapply without_playlists_sync_down
      | apply without_playlists_sync_up
      | never_step ]. }
  eapply wp_mono; [|exact Hrest]. intros out' tr' Htr'. by apply Forall_app.
Qed.

Lemma without_playlists_no_mobile_client_witness :
  Forall (λ e, mobile_client_use (event_call e) = false)
    (run (respond_with (example_answers true (["b.mp3"; "a.mp3"], [], [])))
         (main_body example_externals cli_up) tt).2.
Proof.
  apply (without_playlists_no_mobile_client example_externals cli_up VNone).
  - by_evaluation.
  - reflexivity.
Defined.
